(** * A shallow embedding of the aq TOML parser (src/parse/toml/toml.go)

    The development follows the second revision of the parser in
    [toml.go] (the one with [parseKeyParts], [consumeValue], arrays of
    tables and inline tables).  Go strings are byte strings and are
    modelled by [string]; the pointer graph built by the parser is
    modelled by an explicit heap of tables and arrays, so that the
    aliasing between [p.root] and [p.cur] is kept. *)

From Stdlib Require Import ZArith List String Ascii Bool Lia.
From stdpp Require Import base option list gmap strings.
Import ListNotations.

Local Open Scope string_scope.
Local Open Scope bool_scope.
Local Open Scope list_scope.

(** ** Bytes *)

Module Ch.
Definition nul : ascii := ascii_of_nat 0.
Definition tab : ascii := ascii_of_nat 9.
Definition nl : ascii := ascii_of_nat 10.
Definition vt : ascii := ascii_of_nat 11.
Definition ff : ascii := ascii_of_nat 12.
Definition cr : ascii := ascii_of_nat 13.
Definition bs : ascii := ascii_of_nat 8.
Definition sp : ascii := " "%char.
Definition dq : ascii := ascii_of_nat 34.
Definition sq : ascii := "'"%char.
Definition backslash : ascii := ascii_of_nat 92.
Definition hash : ascii := "#"%char.
Definition dot : ascii := "."%char.
Definition eq : ascii := "="%char.
Definition comma : ascii := ","%char.
Definition lbrack : ascii := "["%char.
Definition rbrack : ascii := "]"%char.
Definition lbrace : ascii := "{"%char.
Definition rbrace : ascii := "}"%char.
Definition underscore : ascii := "_"%char.
End Ch.

Definition isb (c d : ascii) : bool := Ascii.eqb c d.
Definition byteZ (c : ascii) : Z := Z.of_N (N_of_ascii c).
Definition byte_of_Z (z : Z) : ascii := ascii_of_N (Z.to_N (z mod 256)).

(** [b.WriteByte(ch)] and [b.WriteString(t)] on a [strings.Builder]. *)
Definition WriteByte (b : string) (ch : ascii) : string := b +:+ String ch EmptyString.
Definition WriteString (b t : string) : string := b +:+ t.

Definition str1 (c : ascii) : string := String c EmptyString.
Definition triple (q : ascii) : string := String q (String q (String q EmptyString)).
Definition isEmpty (s : string) : bool := String.eqb s EmptyString.
Definition len (s : string) : nat := String.length s.

(** ** The Go [strings] package, on byte strings *)

Module strings.

Fixpoint HasPrefix (s prefix : string) {struct prefix} : bool :=
  match prefix, s with
  | EmptyString, _ => true
  | String p prefix', String c s' => isb p c && HasPrefix s' prefix'
  | String _ _, EmptyString => false
  end.

Definition rev (s : string) : string :=
  string_of_list_ascii (List.rev (list_ascii_of_string s)).

Definition HasSuffix (s suffix : string) : bool :=
  HasPrefix (rev s) (rev suffix).

Fixpoint drop (n : nat) (s : string) : string :=
  match n, s with
  | O, _ => s
  | S n', String _ s' => drop n' s'
  | S _, EmptyString => EmptyString
  end.

Fixpoint take (n : nat) (s : string) : string :=
  match n, s with
  | O, _ => EmptyString
  | S n', String c s' => String c (take n' s')
  | S _, EmptyString => EmptyString
  end.

(** [strings.Index(s, substr)], [None] standing for -1. *)
Fixpoint Index_from (i : nat) (s substr : string) : option nat :=
  if HasPrefix s substr then Some i
  else match s with
       | EmptyString => None
       | String _ s' => Index_from (S i) s' substr
       end.
Definition Index (s substr : string) : option nat := Index_from 0 s substr.

Definition Contains (s substr : string) : bool :=
  match Index s substr with Some _ => true | None => false end.

(** [strings.ReplaceAll] of the one-byte string [c] by the empty
    string: every byte [c] is dropped. *)
Fixpoint RemoveAll (c : ascii) (s : string) : string :=
  match s with
  | EmptyString => EmptyString
  | String d s' => if isb d c then RemoveAll c s' else String d (RemoveAll c s')
  end.

(** White space in the sense of [unicode.IsSpace]: the six ASCII
    characters, and the UTF-8 encodings of U+0085, U+00A0, U+1680,
    U+2000..U+200A, U+2028, U+2029, U+202F, U+205F and U+3000. *)
Definition asciiSpace (c : ascii) : bool :=
  isb c Ch.tab || isb c Ch.nl || isb c Ch.vt || isb c Ch.ff || isb c Ch.cr || isb c Ch.sp.

Definition space2 (c1 c2 : ascii) : bool :=
  (byteZ c1 =? 194)%Z && ((byteZ c2 =? 133)%Z || (byteZ c2 =? 160)%Z).

Definition space3 (c1 c2 c3 : ascii) : bool :=
  let a := byteZ c1 in let b := byteZ c2 in let c := byteZ c3 in
  ((a =? 225) && (b =? 154) && (c =? 128))%Z
  || ((a =? 226) && (b =? 128) && (((128 <=? c) && (c <=? 138)) || (c =? 168) || (c =? 169) || (c =? 175)))%Z
  || ((a =? 226) && (b =? 129) && (c =? 159))%Z
  || ((a =? 227) && (b =? 128) && (c =? 128))%Z.

Fixpoint TrimLeftSpace (l : list ascii) : list ascii :=
  match l with
  | [] => []
  | c1 :: l1 =>
      if asciiSpace c1 then TrimLeftSpace l1
      else match l1 with
           | [] => l
           | c2 :: l2 =>
               if space2 c1 c2 then TrimLeftSpace l2
               else match l2 with
                    | [] => l
                    | c3 :: l3 => if space3 c1 c2 c3 then TrimLeftSpace l3 else l
                    end
           end
  end.

(** The same from the end: the argument is the reversed byte list. *)
Fixpoint TrimRightSpace_rev (l : list ascii) : list ascii :=
  match l with
  | [] => []
  | c1 :: l1 =>
      if asciiSpace c1 then TrimRightSpace_rev l1
      else match l1 with
           | [] => l
           | c2 :: l2 =>
               if space2 c2 c1 then TrimRightSpace_rev l2
               else match l2 with
                    | [] => l
                    | c3 :: l3 => if space3 c3 c2 c1 then TrimRightSpace_rev l3 else l
                    end
           end
  end.

Definition TrimSpace (s : string) : string :=
  string_of_list_ascii
    (List.rev (TrimRightSpace_rev (List.rev (TrimLeftSpace (list_ascii_of_string s))))).

(** [strings.EqualFold(s, t)] for an ASCII lower-case [t] without
    [k] or [s] (the only letters with non-ASCII fold partners). *)
Definition lower (c : ascii) : ascii :=
  let z := byteZ c in
  if ((65 <=? z) && (z <=? 90))%Z then byte_of_Z (z + 32) else c.

Fixpoint EqualFoldLower (s t : string) : bool :=
  match s, t with
  | EmptyString, EmptyString => true
  | String c s', String d t' => isb (lower c) d && EqualFoldLower s' t'
  | _, _ => false
  end.

End strings.

(** ** The Go [strconv] package: unsigned and signed integer parsing *)

Module strconv.

Local Open Scope Z_scope.

Inductive NumErr := ErrSyntax | ErrRange.

(** The value of one digit byte: [0-9], or a letter taken with
    [lower(c) = c | 0x20]. *)
Definition digitVal (c : ascii) : option Z :=
  let z := byteZ c in
  if (48 <=? z) && (z <=? 57) then Some (z - 48)
  else
    let l := Z.lor z 32 in
    if (97 <=? l) && (l <=? 122) then Some (l - 97 + 10) else None.

Fixpoint ParseUint_loop (s : string) (base maxVal cutoff n : Z) : NumErr + Z :=
  match s with
  | EmptyString => inr n
  | String c s' =>
      match digitVal c with
      | None => inl ErrSyntax
      | Some d =>
          if base <=? d then inl ErrSyntax
          else if cutoff <=? n then inl ErrRange
          else
            let n := n * base in
            let n1 := (n + d) mod 2 ^ 64 in
            if (n1 <? n) || (maxVal <? n1) then inl ErrRange
            else ParseUint_loop s' base maxVal cutoff n1
      end
  end.

(** [strconv.ParseUint(s, base, bitSize)] for an explicit base
    (2..36) and a bit size of 32 or 64. *)
Definition ParseUint (s : string) (base bitSize : Z) : NumErr + Z :=
  if isEmpty s then inl ErrSyntax
  else ParseUint_loop s base (2 ^ bitSize - 1) ((2 ^ 64 - 1) / base + 1) 0.

(** [strconv.ParseInt(s, 10, 64)]. *)
Definition ParseInt (s : string) (base bitSize : Z) : NumErr + Z :=
  match s with
  | EmptyString => inl ErrSyntax
  | String c s' =>
      let neg := isb c "-"%char in
      let digits := if isb c "+"%char || neg then s' else s in
      match ParseUint digits base bitSize with
      | inl ErrSyntax => inl ErrSyntax
      | r =>
          let un := match r with inr un => un | inl _ => 2 ^ bitSize - 1 end in
          let cutoff := 2 ^ (bitSize - 1) in
          if negb neg && (cutoff <=? un) then inl ErrRange
          else if neg && (cutoff <? un) then inl ErrRange
          else inr (if neg then - un else un)
      end
  end.

End strconv.

(** Two's complement conversions: [int64(v)] of a [uint64], [rune(v)]
    of a [uint64], and the wrap-around of an [int64] product. *)
Definition wrap64 (z : Z) : Z := ((z + 2 ^ 63) mod 2 ^ 64 - 2 ^ 63)%Z.
Definition wrap32 (z : Z) : Z := ((z + 2 ^ 31) mod 2 ^ 32 - 2 ^ 31)%Z.

(** ** [utf8.AppendRune], as used by [strings.Builder.WriteRune] *)

Module utf8.

Local Open Scope Z_scope.

Definition cont (z : Z) : ascii := byte_of_Z (Z.lor 128 (Z.land z 63)).

Definition AppendRune (r : Z) : string :=
  let i := r mod 2 ^ 32 in
  if i <=? 127 then str1 (byte_of_Z i)
  else if i <=? 2047 then
    String (byte_of_Z (Z.lor 192 (Z.shiftr i 6))) (str1 (cont i))
  else
    let i := if (1114111 <? i) || ((55296 <=? i) && (i <=? 57343)) then 65533 else i in
    if i <=? 65535 then
      String (byte_of_Z (Z.lor 224 (Z.shiftr i 12)))
        (String (cont (Z.shiftr i 6)) (str1 (cont i)))
    else
      String (byte_of_Z (Z.lor 240 (Z.shiftr i 18)))
        (String (cont (Z.shiftr i 12))
           (String (cont (Z.shiftr i 6)) (str1 (cont i)))).

End utf8.

(** ** Errors

    An error is either a plain message ([errors.New], or the error of
    a [strconv] call) or a message annotated by [errf] with the line
    counter of the parser, [fmt.Errorf("toml:%d: %s", p.lineNo, msg)].
    Messages built with [fmt.Sprintf("... %q ...", key)] keep the key
    as an argument. *)

Inductive message :=
| Text (s : string)
| KeyNotTable (part : string)
| KeyNotArray (last : string)
| DuplicateKey (last : string)
| NumErrorText (fn num : string) (why : strconv.NumErr).

Inductive error :=
| Plain (m : message)
| Annotated (lineNo : nat) (m : message)
| ErrTooLong.

Definition errors_New (s : string) : error := Plain (Text s).

(** [err.Error()] *)
Definition Error_text (e : error) : message :=
  match e with
  | Plain m => m
  | Annotated _ m => m
  | ErrTooLong => Text "bufio.Scanner: token too long"
  end.

(** ** The library interface left abstract

    Floating point numbers and calendar times come from the Go
    standard library ([math], [strconv.ParseFloat], [time.Parse]);
    the parser only stores what these functions return. *)

Class GoLib (float64 Time : Type) := {
  math_Inf : Z -> float64;
  math_NaN : float64;
  strconv_ParseFloat : string -> strconv.NumErr + float64;
  time_Parse : string -> string -> option Time;
}.

(** ** AST definitions *)

Inductive ValueKind :=
| ValueString | ValueInt | ValueFloat | ValueBool | ValueDatetime
| ValueLocalDate | ValueLocalTime | ValueLocalDatetime | ValueTable | ValueArray.

#[export] Instance ValueKind_eq_dec : EqDecision ValueKind.
Proof. solve_decision. Defined.

(** Addresses in the store. *)
Abbreviation addr := nat (only parsing).

(** ** Outcomes

    A Go call returns normally, returns an error, or panics (index
    or slice bounds out of range, failed type assertion on a nil
    pointer).  [OutOfFuel] is the model's own outcome for the
    recursion bound of [parseValue]; it is shown below to be
    unreachable with the fuel the entry points give. *)
Inductive outcome (S A : Type) :=
| Ok (a : A) (s : S)
| Err (e : error) (s : S)
| Panic
| OutOfFuel.
Arguments Ok {S A} a s.
Arguments Err {S A} e s.
Arguments Panic {S A}.
Arguments OutOfFuel {S A}.

Definition bind {S A B} (c : outcome S A) (k : A -> S -> outcome S B) : outcome S B :=
  match c with
  | Ok a s => k a s
  | Err e s => Err e s
  | Panic => Panic
  | OutOfFuel => OutOfFuel
  end.

(** ** Utilities of the parser: scanners over byte strings

    The Go loops [for i := 0; i < len(s); i++] are written as
    recursions over the rest of the string from index [i]; a step
    [i += 2] is a recursive call on the rest after three bytes. *)

(** The four flags every quote-aware scanner of the source keeps. *)
Record quotes := Q {
  inBasic : bool;
  inLiteral : bool;
  basicMulti : bool;
  literalMulti : bool;
}.

Definition noQuotes : quotes := Q false false false false.

(** [i+2 < len(s) && s[i] == c && s[i+1] == c && s[i+2] == c] *)
Definition triple_at (c : ascii) (s : string) : bool :=
  match s with
  | String c0 (String c1 (String c2 _)) => isb c0 c && isb c1 c && isb c2 c
  | _ => false
  end.

Fixpoint parseKeyParts_loop (s : string) (parts : list string) (cur : string)
    (inQuote : ascii) (escape : bool) : error + list string :=
  match s with
  | EmptyString =>
      if negb (isb inQuote Ch.nul) then inl (errors_New "unterminated quoted key")
      else
        let last := strings.TrimSpace cur in
        inr (if negb (isEmpty last) then parts ++ [last] else parts)
  | String ch s' =>
      if negb (isb inQuote Ch.nul) then
        if isb inQuote Ch.dq && isb ch Ch.backslash && negb escape then
          parseKeyParts_loop s' parts cur inQuote true
        else if escape then
          parseKeyParts_loop s' parts (WriteByte cur ch) inQuote false
        else if isb ch inQuote then
          parseKeyParts_loop s' parts cur Ch.nul escape
        else
          parseKeyParts_loop s' parts (WriteByte cur ch) inQuote escape
      else if isb ch Ch.dq || isb ch Ch.sq then
        if negb (len cur =? 0)%nat && negb (isEmpty (strings.TrimSpace cur)) then
          inl (errors_New "invalid quoted key position")
        else
          parseKeyParts_loop s' parts EmptyString ch escape
      else if isb ch Ch.dot then
        let part := strings.TrimSpace cur in
        parseKeyParts_loop s' (if negb (isEmpty part) then parts ++ [part] else parts)
          EmptyString inQuote escape
      else
        parseKeyParts_loop s' parts (WriteByte cur ch) inQuote escape
  end.

Definition parseKeyParts (s : string) : error + list string :=
  parseKeyParts_loop s [] EmptyString Ch.nul false.

Fixpoint stripComment_loop (s : string) (q : quotes) (b : string) : string :=
  match s with
  | EmptyString => b
  | String ch s1 =>
      let skip3 q' b' :=
        match s1 with
        | String _ (String _ s3) => stripComment_loop s3 q' b'
        | _ => b'
        end in
      if inBasic q then
        let unescaped :=
          if basicMulti q then
            if triple_at Ch.dq s then
              skip3 (Q false (inLiteral q) false (literalMulti q)) (WriteString b (triple Ch.dq))
            else stripComment_loop s1 q (WriteByte b ch)
          else
            stripComment_loop s1
              (if isb ch Ch.dq then Q false (inLiteral q) (basicMulti q) (literalMulti q) else q)
              (WriteByte b ch) in
        if isb ch Ch.backslash then
          match s1 with
          | String c1 s2 => stripComment_loop s2 q (WriteByte (WriteByte b ch) c1)
          | EmptyString => unescaped
          end
        else unescaped
      else if inLiteral q then
        if literalMulti q then
          if triple_at Ch.sq s then
            skip3 (Q (inBasic q) false (basicMulti q) false) (WriteString b (triple Ch.sq))
          else stripComment_loop s1 q (WriteByte b ch)
        else
          stripComment_loop s1
            (if isb ch Ch.sq then Q (inBasic q) false (basicMulti q) (literalMulti q) else q)
            (WriteByte b ch)
      else if isb ch Ch.dq then
        if triple_at Ch.dq s then
          skip3 (Q true (inLiteral q) true (literalMulti q)) (WriteString b (triple Ch.dq))
        else
          stripComment_loop s1 (Q true (inLiteral q) false (literalMulti q)) (WriteByte b ch)
      else if isb ch Ch.sq then
        if triple_at Ch.sq s then
          skip3 (Q (inBasic q) true (basicMulti q) true) (WriteString b (triple Ch.sq))
        else
          stripComment_loop s1 (Q (inBasic q) true (basicMulti q) false) (WriteByte b ch)
      else if isb ch Ch.hash then b
      else stripComment_loop s1 q (WriteByte b ch)
  end.

Definition stripCommentPreserveStrings (s : string) : string :=
  stripComment_loop s noQuotes EmptyString.

(** [findUnquotedEqual]: the index of the first [=] outside quotes,
    or -1.  [i] is the index of the first byte of [s]. *)
Fixpoint findUnquotedEqual_loop (s : string) (i : Z) (q : quotes) : Z :=
  match s with
  | EmptyString => (-1)%Z
  | String ch s1 =>
      let skip3 q' :=
        match s1 with
        | String _ (String _ s3) => findUnquotedEqual_loop s3 (i + 3)%Z q'
        | _ => (-1)%Z
        end in
      let next q' := findUnquotedEqual_loop s1 (i + 1)%Z q' in
      if inBasic q then
        if isb ch Ch.backslash then
          match s1 with
          | String _ s2 => findUnquotedEqual_loop s2 (i + 2)%Z q
          | EmptyString => (-1)%Z
          end
        else if basicMulti q then
          if triple_at Ch.dq s then skip3 (Q false (inLiteral q) false (literalMulti q))
          else next q
        else if isb ch Ch.dq then next (Q false (inLiteral q) (basicMulti q) (literalMulti q))
        else next q
      else if inLiteral q then
        if literalMulti q then
          if triple_at Ch.sq s then skip3 (Q (inBasic q) false (basicMulti q) false)
          else next q
        else if isb ch Ch.sq then next (Q (inBasic q) false (basicMulti q) (literalMulti q))
        else next q
      else if isb ch Ch.dq then
        if triple_at Ch.dq s then skip3 (Q true (inLiteral q) true (literalMulti q))
        else next (Q true (inLiteral q) (basicMulti q) (literalMulti q))
      else if isb ch Ch.sq then
        if triple_at Ch.sq s then skip3 (Q (inBasic q) true (basicMulti q) true)
        else next (Q (inBasic q) true (basicMulti q) (literalMulti q))
      else if isb ch Ch.eq then i
      else next q
  end.

Definition findUnquotedEqual (s : string) : Z := findUnquotedEqual_loop s 0%Z noQuotes.

(** The bracket-depth scan of [consumeValue]; the source has the same
    loop twice, over the first line and over every line pulled after
    it, with [depth] and the flags carried from one to the next. *)
Fixpoint scanDepth (s : string) (depth : Z) (q : quotes) : Z * quotes :=
  match s with
  | EmptyString => (depth, q)
  | String ch s1 =>
      let skip3 q' :=
        match s1 with
        | String _ (String _ s3) => scanDepth s3 depth q'
        | _ => (depth, q')
        end in
      let next q' := scanDepth s1 depth q' in
      if inBasic q then
        if isb ch Ch.backslash then
          match s1 with
          | String _ s2 => scanDepth s2 depth q
          | EmptyString => (depth, q)
          end
        else if basicMulti q then
          if triple_at Ch.dq s then skip3 (Q false (inLiteral q) false (literalMulti q))
          else next q
        else if isb ch Ch.dq then next (Q false (inLiteral q) (basicMulti q) (literalMulti q))
        else next q
      else if inLiteral q then
        if literalMulti q then
          if triple_at Ch.sq s then skip3 (Q (inBasic q) false (basicMulti q) false)
          else next q
        else if isb ch Ch.sq then next (Q (inBasic q) false (basicMulti q) (literalMulti q))
        else next q
      else if isb ch Ch.dq then
        if triple_at Ch.dq s then skip3 (Q true (inLiteral q) true (literalMulti q))
        else next (Q true (inLiteral q) (basicMulti q) (literalMulti q))
      else if isb ch Ch.sq then
        if triple_at Ch.sq s then skip3 (Q (inBasic q) true (basicMulti q) true)
        else next (Q (inBasic q) true (basicMulti q) (literalMulti q))
      else if isb ch Ch.lbrack || isb ch Ch.lbrace then scanDepth s1 (depth + 1)%Z q
      else if isb ch Ch.rbrack || isb ch Ch.rbrace then scanDepth s1 (depth - 1)%Z q
      else next q
  end.

(** [splitTopLevel(s, sep)] *)
Fixpoint splitTopLevel_loop (s : string) (sep : ascii) (parts : list string) (cur : string)
    (depthB depthC : Z) (q : quotes) : list string :=
  match s with
  | EmptyString =>
      if (0 <? len cur)%nat then parts ++ [strings.TrimSpace cur] else parts
  | String ch s1 =>
      let finish cur' :=
        if (0 <? len cur')%nat then parts ++ [strings.TrimSpace cur'] else parts in
      let skip3 q' cur' :=
        match s1 with
        | String _ (String _ s3) => splitTopLevel_loop s3 sep parts cur' depthB depthC q'
        | _ => finish cur'
        end in
      let next q' := splitTopLevel_loop s1 sep parts (WriteByte cur ch) depthB depthC q' in
      if inBasic q then
        if isb ch Ch.backslash then
          match s1 with
          | String c1 s2 =>
              splitTopLevel_loop s2 sep parts (WriteByte (WriteByte cur Ch.backslash) c1)
                depthB depthC q
          | EmptyString => finish cur
          end
        else if basicMulti q then
          if triple_at Ch.dq s then
            skip3 (Q false (inLiteral q) false (literalMulti q)) (WriteString cur (triple Ch.dq))
          else next q
        else if isb ch Ch.dq then next (Q false (inLiteral q) (basicMulti q) (literalMulti q))
        else next q
      else if inLiteral q then
        if literalMulti q then
          if triple_at Ch.sq s then
            skip3 (Q (inBasic q) false (basicMulti q) false) (WriteString cur (triple Ch.sq))
          else next q
        else if isb ch Ch.sq then next (Q (inBasic q) false (basicMulti q) (literalMulti q))
        else next q
      else if isb ch Ch.dq then
        if triple_at Ch.dq s then
          skip3 (Q true (inLiteral q) true (literalMulti q)) (WriteString cur (triple Ch.dq))
        else next (Q true (inLiteral q) (basicMulti q) (literalMulti q))
      else if isb ch Ch.sq then
        if triple_at Ch.sq s then
          skip3 (Q (inBasic q) true (basicMulti q) true) (WriteString cur (triple Ch.sq))
        else next (Q (inBasic q) true (basicMulti q) (literalMulti q))
      else if isb ch Ch.lbrack then
        splitTopLevel_loop s1 sep parts (WriteByte cur ch) (depthB + 1)%Z depthC q
      else if isb ch Ch.rbrack then
        splitTopLevel_loop s1 sep parts (WriteByte cur ch) (depthB - 1)%Z depthC q
      else if isb ch Ch.lbrace then
        splitTopLevel_loop s1 sep parts (WriteByte cur ch) depthB (depthC + 1)%Z q
      else if isb ch Ch.rbrace then
        splitTopLevel_loop s1 sep parts (WriteByte cur ch) depthB (depthC - 1)%Z q
      else if (depthB =? 0)%Z && (depthC =? 0)%Z && isb ch sep then
        splitTopLevel_loop s1 sep (parts ++ [strings.TrimSpace cur]) EmptyString depthB depthC q
      else next q
  end.

Definition splitTopLevel (s : string) (sep : ascii) : list string :=
  splitTopLevel_loop s sep [] EmptyString 0%Z 0%Z noQuotes.

(** [extractTripleQuoted(s, quote)]; [None] is the [false] result. *)
Definition extractTripleQuoted (s : string) (quote : ascii) : option string :=
  if (len s <? 6)%nat then None
  else if isb quote Ch.dq && negb (strings.HasPrefix s (triple Ch.dq)) then None
  else if isb quote Ch.sq && negb (strings.HasPrefix s (triple Ch.sq)) then None
  else
    let end_ := if isb quote Ch.sq then triple Ch.sq else triple Ch.dq in
    match strings.Index (strings.drop 3 s) end_ with
    | None => None
    | Some idx =>
        let content := strings.take idx (strings.drop 3 s) in
        match content with
        | String c content' => Some (if isb c Ch.nl then content' else content)
        | EmptyString => Some content
        end
    end.

(** [s[len(s)-1]], for a non-empty [s]. *)
Definition lastByte (s : string) : option ascii :=
  List.last (map Some (list_ascii_of_string s)) None.

(** [extractSingleQuoted(s, quote)] *)
Definition extractSingleQuoted (s : string) (quote : ascii) : option string :=
  match s with
  | String c0 (String _ _) =>
      if negb (isb c0 quote) then None
      else match lastByte s with
           | Some cl =>
               if negb (isb cl quote) then None
               else Some (strings.take (len s - 2) (strings.drop 1 s))
           | None => None
           end
  | _ => None
  end.

(** [parseHexRune(h)]: [strconv.ParseUint(h, 16, 32)], then [rune(v)]. *)
Definition parseHexRune (h : string) : error + Z :=
  match strconv.ParseUint h 16 32 with
  | inl why => inl (Plain (NumErrorText "ParseUint" h why))
  | inr v => inr (wrap32 v)
  end.

(** The first pass of [decodeBasicString] for multi-line strings: a
    backslash right before a newline is dropped with the newline and
    the spaces and tabs after it.  [folding] is true while the inner
    loop [for i+1 < len(s) && (s[i+1] == ' ' || s[i+1] == '\t')] runs. *)
Fixpoint foldLines (s : string) (folding : bool) (b : string) : string :=
  match s with
  | EmptyString => b
  | String ch s1 =>
      if folding && (isb ch Ch.sp || isb ch Ch.tab) then foldLines s1 true b
      else if isb ch Ch.backslash then
        match s1 with
        | String c1 s2 =>
            if isb c1 Ch.nl then foldLines s2 true b
            else foldLines s1 false (WriteByte b ch)
        | EmptyString => WriteByte b ch
        end
      else foldLines s1 false (WriteByte b ch)
  end.

(** The escape pass of [decodeBasicString].  [skip] counts the bytes
    of a [\u] or [\U] escape still to be passed over ([i += 4],
    [i += 8]). *)
Fixpoint decodeEscapes (s : string) (skip : nat) (out : string) : error + string :=
  match s with
  | EmptyString => inr out
  | String ch s1 =>
      match skip with
      | S k => decodeEscapes s1 k out
      | O =>
          if negb (isb ch Ch.backslash) then decodeEscapes s1 0 (WriteByte out ch)
          else
            match s1 with
            | EmptyString => inl (errors_New "invalid escape")
            | String e s2 =>
                let simple (c : ascii) := decodeEscapes s2 0 (WriteByte out c) in
                let unicode (n : nat) :=
                  if (len s2 <? n)%nat then inl (errors_New "invalid unicode escape")
                  else match parseHexRune (strings.take n s2) with
                       | inl err => inl err
                       | inr r => decodeEscapes s2 n (WriteString out (utf8.AppendRune r))
                       end in
                if isb e "b"%char then simple Ch.bs
                else if isb e "t"%char then simple Ch.tab
                else if isb e "n"%char then simple Ch.nl
                else if isb e "f"%char then simple Ch.ff
                else if isb e "r"%char then simple Ch.cr
                else if isb e Ch.dq then simple Ch.dq
                else if isb e Ch.backslash then simple Ch.backslash
                else if isb e "u"%char then unicode 4%nat
                else if isb e "U"%char then unicode 8%nat
                else inl (errors_New "unsupported escape")
            end
      end
  end.

Definition decodeBasicString (s : string) (multiline : bool) : error + string :=
  let s := if multiline then foldLines s false EmptyString else s in
  decodeEscapes s 0 EmptyString.

(** [parseIntToken] *)
Definition parseIntBase (s : string) (base : Z) : error + Z :=
  let sign := if strings.HasPrefix s "-" then (-1)%Z else 1%Z in
  let s := if strings.HasPrefix s "-" then strings.drop 1 s else s in
  let s := if strings.HasPrefix s "+" then strings.drop 1 s else s in
  match strconv.ParseUint (strings.drop 2 s) base 64 with
  | inl why => inl (Plain (NumErrorText "ParseUint" (strings.drop 2 s) why))
  | inr v => inr (wrap64 (wrap64 v * sign))
  end.

Definition parseIntToken (s : string) : error + Z :=
  let s := strings.RemoveAll Ch.underscore s in
  if strings.HasPrefix s "0x" || strings.HasPrefix s "-0x" || strings.HasPrefix s "+0x" then
    parseIntBase s 16
  else if strings.HasPrefix s "0o" || strings.HasPrefix s "-0o" || strings.HasPrefix s "+0o" then
    parseIntBase s 8
  else if strings.HasPrefix s "0b" || strings.HasPrefix s "-0b" || strings.HasPrefix s "+0b" then
    parseIntBase s 2
  else
    match strconv.ParseInt s 10 64 with
    | inl why => inl (Plain (NumErrorText "ParseInt" s why))
    | inr i => inr i
    end.

Notation "'let!' ( x , s ) ':=' c 'in' k" := (bind c (fun x s => k))
  (at level 10, x name, s name, c at level 100, k at level 200).

(** Go's [s[lo:hi]] on a string: a run-time panic ([None]) unless
    [lo <= hi <= len(s)]. *)
Definition slice (s : string) (lo hi : Z) : option string :=
  if ((0 <=? lo) && (lo <=? hi) && (hi <=? Z.of_nat (len s)))%Z
  then Some (strings.take (Z.to_nat (hi - lo)) (strings.drop (Z.to_nat lo) s))
  else None.

(** [parts[len(parts)-1]] with the segments before it: [None] is the
    index-out-of-range panic on an empty slice. *)
Definition splitLast (parts : list string) : option (list string * string) :=
  match List.rev parts with
  | [] => None
  | last :: front => Some (List.rev front, last)
  end.

(** ** The scanner

    [bufio.Scanner] with its default split function [ScanLines] and
    its default buffer: the input is cut at every newline, a carriage
    return at the end of a line is dropped, a last line without
    newline is delivered when it is not empty, and a line of 65536
    bytes or more stops the scan with [ErrTooLong]. *)
Record Scanner := MkScanner {
  pending : list string;
  failed : bool;
}.

Definition dropCR (s : string) : string :=
  match lastByte s with
  | Some c => if isb c Ch.cr then strings.take (len s - 1) s else s
  | None => s
  end.

Definition tooLong (line : string) : bool := (65536 <=? Z.of_nat (len line))%Z.

Fixpoint ScanLines (s : string) (line : string) : list string * bool :=
  match s with
  | EmptyString =>
      if isEmpty line then ([], false)
      else if tooLong line then ([], true)
      else ([dropCR line], false)
  | String ch s' =>
      if isb ch Ch.nl then
        if tooLong line then ([], true)
        else let (rest, bad) := ScanLines s' EmptyString in (dropCR line :: rest, bad)
      else ScanLines s' (WriteByte line ch)
  end.

Definition NewScanner (input : string) : Scanner :=
  let (lines, bad) := ScanLines input EmptyString in MkScanner lines bad.

(** ** A reference instance of the library interface

    Used to run the parser on concrete documents.  [time_Parse]
    follows [time.Parse] on the eight layouts of the source: fixed
    two-digit fields except the hour, range checks on every field, an
    optional fractional second, and [Z] or a numeric offset for the
    zone.  Floats are kept as the decimal number the literal denotes
    (no rounding to binary64, no hexadecimal floats). *)

Module RefLib.

Local Open Scope Z_scope.

Record time := MkTime {
  year : Z; month : Z; day : Z;
  hour : Z; minute : Z; second : Z; nsec : Z;
  offset : Z;
}.

Inductive float :=
| Inf (sign : Z)
| NaN
| Decimal (negative : bool) (mantissa : Z) (exp10 : Z).

Inductive chunk :=
| Lit (c : ascii)
| stdLongYear | stdZeroMonth | stdZeroDay
| stdHour | stdZeroMinute | stdZeroSecond
| stdFracSecond9 | stdISO8601ColonTZ.

Definition date_chunks : list chunk :=
  [stdLongYear; Lit "-"; stdZeroMonth; Lit "-"; stdZeroDay].
Definition clock_chunks : list chunk :=
  [stdHour; Lit ":"; stdZeroMinute; Lit ":"; stdZeroSecond].

Definition chunks (layout : string) : option (list chunk) :=
  if String.eqb layout "2006-01-02T15:04:05.999999999Z07:00" then
    Some (date_chunks ++ [Lit "T"] ++ clock_chunks ++ [stdFracSecond9; stdISO8601ColonTZ])
  else if String.eqb layout "2006-01-02T15:04:05" then
    Some (date_chunks ++ [Lit "T"] ++ clock_chunks)
  else if String.eqb layout "2006-01-02 15:04:05" then
    Some (date_chunks ++ [Lit " "] ++ clock_chunks)
  else if String.eqb layout "2006-01-02T15:04:05.999999999" then
    Some (date_chunks ++ [Lit "T"] ++ clock_chunks ++ [stdFracSecond9])
  else if String.eqb layout "2006-01-02 15:04:05.999999999" then
    Some (date_chunks ++ [Lit " "] ++ clock_chunks ++ [stdFracSecond9])
  else if String.eqb layout "2006-01-02" then Some date_chunks
  else if String.eqb layout "15:04:05" then Some clock_chunks
  else if String.eqb layout "15:04:05.999999999" then Some (clock_chunks ++ [stdFracSecond9])
  else None.

Definition digit (c : ascii) : option Z :=
  let z := byteZ c in if (48 <=? z) && (z <=? 57) then Some (z - 48) else None.

Definition isDigit (c : ascii) : bool :=
  match digit c with Some _ => true | None => false end.

(** [getnum(s, fixed)] *)
Definition getnum (s : string) (fixed : bool) : option (Z * string) :=
  match s with
  | String c0 s1 =>
      match digit c0 with
      | None => None
      | Some d0 =>
          match s1 with
          | String c1 s2 =>
              match digit c1 with
              | Some d1 => Some (d0 * 10 + d1, s2)
              | None => if fixed then None else Some (d0, s1)
              end
          | EmptyString => if fixed then None else Some (d0, s1)
          end
      end
  | EmptyString => None
  end.

Fixpoint digits (s : string) (n : nat) (acc : Z) : option Z :=
  match n, s with
  | O, _ => Some acc
  | S n', String c s' =>
      match digit c with
      | Some d => digits s' n' (acc * 10 + d)
      | None => None
      end
  | S _, EmptyString => None
  end.

(** The digits of a fractional second: all of them are consumed,
    the first nine count. *)
Fixpoint fraction (s : string) (seen : nat) (ns : Z) : Z * string :=
  match s with
  | String c s' =>
      match digit c with
      | Some d =>
          fraction s' (S seen) (if (seen <? 9)%nat then ns + d * 10 ^ (8 - Z.of_nat seen) else ns)
      | None => (ns, s)
      end
  | EmptyString => (ns, s)
  end.

Definition commaOrPeriod (c : ascii) : bool := isb c "."%char || isb c ","%char.

Definition hasFraction (s : string) : bool :=
  match s with
  | String c0 (String c1 _) => commaOrPeriod c0 && isDigit c1
  | _ => false
  end.

Fixpoint cutspace (s : string) : string :=
  match s with
  | String c s' => if isb c " "%char then cutspace s' else s
  | EmptyString => s
  end.

Definition isLeap (y : Z) : bool :=
  (y mod 4 =? 0) && (negb (y mod 100 =? 0) || (y mod 400 =? 0)).

Definition daysIn (m y : Z) : Z :=
  if m =? 2 then (if isLeap y then 29 else 28)
  else if (m =? 4) || (m =? 6) || (m =? 9) || (m =? 11) then 30 else 31.

Definition in_range (lo x hi : Z) : bool := (lo <=? x) && (x <=? hi).

Fixpoint parseChunks (cs : list chunk) (v : string) (t : time) : option time :=
  match cs with
  | [] =>
      if isEmpty v && in_range 1 (day t) (daysIn (month t) (year t)) then Some t else None
  | c :: cs' =>
      match c with
      | Lit ch =>
          match v with
          | String ch' v' =>
              if isb ch ch' then parseChunks cs' (if isb ch " "%char then cutspace v' else v') t
              else None
          | EmptyString => None
          end
      | stdLongYear =>
          match digits v 4 0 with
          | Some y =>
              parseChunks cs' (strings.drop 4 v)
                (MkTime y (month t) (day t) (hour t) (minute t) (second t) (nsec t) (offset t))
          | None => None
          end
      | stdZeroMonth =>
          match getnum v true with
          | Some (m, v') =>
              if in_range 1 m 12 then
                parseChunks cs' v'
                  (MkTime (year t) m (day t) (hour t) (minute t) (second t) (nsec t) (offset t))
              else None
          | None => None
          end
      | stdZeroDay =>
          match getnum v true with
          | Some (d, v') =>
              parseChunks cs' v'
                (MkTime (year t) (month t) d (hour t) (minute t) (second t) (nsec t) (offset t))
          | None => None
          end
      | stdHour =>
          match getnum v false with
          | Some (hh, v') =>
              if in_range 0 hh 23 then
                parseChunks cs' v'
                  (MkTime (year t) (month t) (day t) hh (minute t) (second t) (nsec t) (offset t))
              else None
          | None => None
          end
      | stdZeroMinute =>
          match getnum v true with
          | Some (mm, v') =>
              if in_range 0 mm 59 then
                parseChunks cs' v'
                  (MkTime (year t) (month t) (day t) (hour t) mm (second t) (nsec t) (offset t))
              else None
          | None => None
          end
      | stdZeroSecond =>
          match getnum v true with
          | Some (ss, v') =>
              if in_range 0 ss 59 then
                let followed := match cs' with stdFracSecond9 :: _ => true | _ => false end in
                let (ns, v') :=
                  if hasFraction v' && negb followed then fraction (strings.drop 1 v') 0 0
                  else (nsec t, v') in
                parseChunks cs' v'
                  (MkTime (year t) (month t) (day t) (hour t) (minute t) ss ns (offset t))
              else None
          | None => None
          end
      | stdFracSecond9 =>
          if hasFraction v then
            let (ns, v') := fraction (strings.drop 1 v) 0 0 in
            parseChunks cs' v'
              (MkTime (year t) (month t) (day t) (hour t) (minute t) (second t) ns (offset t))
          else parseChunks cs' v t
      | stdISO8601ColonTZ =>
          match v with
          | String c0 v' =>
              if isb c0 "Z"%char then parseChunks cs' v' t
              else if (len v <? 6)%nat then None
              else
                match getnum (strings.take 2 v') true, getnum (strings.take 2 (strings.drop 3 v')) true with
                | Some (hr, _), Some (mm, _) =>
                    if negb (isb ":"%char (default Ch.nul (lastByte (strings.take 4 v)))) then None
                    else if (24 <? hr) || (60 <? mm) then None
                    else
                      let off := (hr * 60 + mm) * 60 in
                      if isb c0 "+"%char then
                        parseChunks cs' (strings.drop 6 v)
                          (MkTime (year t) (month t) (day t) (hour t) (minute t) (second t) (nsec t) off)
                      else if isb c0 "-"%char then
                        parseChunks cs' (strings.drop 6 v)
                          (MkTime (year t) (month t) (day t) (hour t) (minute t) (second t) (nsec t) (- off))
                      else None
                | _, _ => None
                end
          | EmptyString => None
          end
      end
  end.

Definition Parse (layout value : string) : option time :=
  match chunks layout with
  | Some cs => parseChunks cs value (MkTime 0 1 1 0 0 0 0 0)
  | None => None
  end.

(** Decimal floating-point literals: [sign] digits [. digits]
    [e [sign] digits], and the special forms of [strconv]. *)
Fixpoint mantissa (s : string) (dot : bool) (seen : bool) (m e : Z)
    : option (Z * Z * string) :=
  match s with
  | String c s' =>
      match digit c with
      | Some d => mantissa s' dot true (m * 10 + d) (if dot then e - 1 else e)
      | None =>
          if isb c "."%char && negb dot then mantissa s' true seen m e
          else if seen then Some (m, e, s) else None
      end
  | EmptyString => if seen then Some (m, e, s) else None
  end.

Fixpoint exponent (s : string) (seen : bool) (acc : Z) : option Z :=
  match s with
  | String c s' =>
      match digit c with
      | Some d => exponent s' true (acc * 10 + d)
      | None => None
      end
  | EmptyString => if seen then Some acc else None
  end.

Definition unsignedFloat (neg : bool) (s : string) : strconv.NumErr + float :=
  if strings.EqualFoldLower s "inf" || strings.EqualFoldLower s "infinity" then
    inr (Inf (if neg then -1 else 1))
  else
    match mantissa s false false 0 0 with
    | Some (m, e, EmptyString) => inr (Decimal neg m e)
    | Some (m, e, String c rest) =>
        if isb c "e"%char || isb c "E"%char then
          let (eneg, rest) :=
            match rest with
            | String c' rest' =>
                if isb c' "-"%char then (true, rest')
                else if isb c' "+"%char then (false, rest') else (false, rest)
            | EmptyString => (false, rest)
            end in
          match exponent rest false 0 with
          | Some x => inr (Decimal neg m (if eneg then e - x else e + x))
          | None => inl strconv.ErrSyntax
          end
        else inl strconv.ErrSyntax
    | None => inl strconv.ErrSyntax
    end.

Definition ParseFloat (s : string) : strconv.NumErr + float :=
  if strings.EqualFoldLower s "nan" then inr NaN
  else
    match s with
    | String c s' =>
        if isb c "-"%char then unsignedFloat true s'
        else if isb c "+"%char then unsignedFloat false s'
        else unsignedFloat false s
    | EmptyString => inl strconv.ErrSyntax
    end.

End RefLib.

#[export] Instance refLib : GoLib RefLib.float RefLib.time := {|
  math_Inf := RefLib.Inf;
  math_NaN := RefLib.NaN;
  strconv_ParseFloat := RefLib.ParseFloat;
  time_Parse := RefLib.Parse;
|}.

(** ** Definitions used by the statements

    The integer literal as the specification words it: underscores
    are stripped, an optional sign is taken off, a prefix [0x], [0o]
    or [0b] selects the base of the unsigned digits after it and the
    sign is applied to their value afterwards; without such a prefix
    the whole literal is a signed decimal number of 64 bits. *)

Definition signOf (s : string) : Z * string :=
  match s with
  | String c s' =>
      if isb c "-"%char then ((-1)%Z, s')
      else if isb c "+"%char then (1%Z, s')
      else (1%Z, s)
  | EmptyString => (1%Z, s)
  end.

Definition basePrefix (s : string) : option (Z * string) :=
  match s with
  | String c0 (String c1 digits) =>
      if isb c0 "0"%char then
        if isb c1 "x"%char then Some (16%Z, digits)
        else if isb c1 "o"%char then Some (8%Z, digits)
        else if isb c1 "b"%char then Some (2%Z, digits)
        else None
      else None
  | _ => None
  end.

Definition intLiteral_spec (s : string) : error + Z :=
  let s := strings.RemoveAll Ch.underscore s in
  let (sign, body) := signOf s in
  match basePrefix body with
  | Some (base, digits) =>
      match strconv.ParseUint digits base 64 with
      | inl why => inl (Plain (NumErrorText "ParseUint" digits why))
      | inr v => inr (wrap64 (wrap64 v * sign))
      end
  | None =>
      match strconv.ParseInt s 10 64 with
      | inl why => inl (Plain (NumErrorText "ParseInt" s why))
      | inr i => inr i
      end
  end.

(** The number a string of digits denotes in [base], read after the
    value [acc] of the digits before it; [None] when a byte is not a
    digit of the base. *)
Fixpoint digitsValue (base : Z) (ds : string) (acc : Z) : option Z :=
  match ds with
  | EmptyString => Some acc
  | String c ds' =>
      match strconv.digitVal c with
      | Some d => if (d <? base)%Z then digitsValue base ds' (acc * base + d)%Z else None
      | None => None
      end
  end.

(** The documents of the test suite and of the statements below. *)
Definition NL : string := str1 Ch.nl.
Definition DQ : string := str1 Ch.dq.

Definition lines (ls : list string) : string :=
  fold_right (fun l rest => l +:+ NL +:+ rest) EmptyString ls.

(** [TestArrayOfTables] *)
Definition doc_products : string :=
  lines [ EmptyString;
          "[[products]]";
          "name = " +:+ DQ +:+ "Hammer" +:+ DQ;
          "sku = 738594937";
          EmptyString;
          "[[products]]";
          "name = " +:+ DQ +:+ "Nails" +:+ DQ;
          "sku = 284758393";
          "count = 100" ].

(** A quoted key and the dotted key of the same spelling. *)
Definition doc_quoted : string :=
  DQ +:+ "a.b" +:+ DQ +:+ " = 1" +:+ NL +:+ "a.b = 2".

(** [TestMultilineArrayAndTrailingComma] *)
Definition doc_ports : string :=
  lines [ EmptyString; "ports = ["; "  8001,"; "  8002,"; "]" ].

(** An array of mixed kinds written over four lines. *)
Definition doc_mixed : string :=
  lines [ "a = ["; "1,"; DQ +:+ "x" +:+ DQ; "]" ].

(** ** The parser, over any instance of the library interface *)

Section Toml.
Context {float64 Time : Type} {lib : GoLib float64 Time}.

(** The dynamically typed payload [V any] of a [Value]. *)
Inductive any :=
| AString (s : string)
| AInt64 (i : Z)
| AFloat64 (f : float64)
| ABool (b : bool)
| ATime (t : Time).

(** A [Node] interface value: a pointer to a [Table], to an [Array]
    or to a [Value].  Values are never mutated after their creation
    and are kept in the node itself. *)
Inductive Node :=
| NTable (t : addr)
| NArray (a : addr)
| NValue (Type_ : ValueKind) (V : any).

Definition Kind (n : Node) : ValueKind :=
  match n with
  | NTable _ => ValueTable
  | NArray _ => ValueArray
  | NValue ty _ => ty
  end.

(** The store: [tables h !! t] is the [Items] map of the table at
    address [t], [arrays h !! a] the [Elems] slice of the array at
    address [a]. *)
Record heap := Heap {
  tables : list (gmap string Node);
  arrays : list (list Node);
}.

Definition empty_heap : heap := Heap [] [].

(** [NewTable()] *)
Definition NewTable (h : heap) : addr * heap :=
  (length (tables h), Heap (tables h ++ [∅]) (arrays h)).

(** [&Array{Elems: make([]Node, 0)}] *)
Definition NewArray (h : heap) : addr * heap :=
  (length (arrays h), Heap (tables h) (arrays h ++ [[]])).

Definition Items (h : heap) (t : addr) : option (gmap string Node) := tables h !! t.
Definition Elems (h : heap) (a : addr) : option (list Node) := arrays h !! a.

(** [t.Items[k] = n] *)
Definition setItem (h : heap) (t : addr) (k : string) (n : Node) : heap :=
  match tables h !! t with
  | Some m => Heap (<[t := <[k := n]> m]> (tables h)) (arrays h)
  | None => h
  end.

(** [arr.Elems = append(arr.Elems, n)] *)
Definition appendElem (h : heap) (a : addr) (n : Node) : heap :=
  match arrays h !! a with
  | Some l => Heap (tables h) (<[a := l ++ [n]]> (arrays h))
  | None => h
  end.

Definition parseFloatToken (s : string) : error + float64 :=
  if String.eqb s "inf" || String.eqb s "+inf" then inr (math_Inf 1)
  else if String.eqb s "-inf" then inr (math_Inf (-1))
  else if strings.EqualFoldLower s "nan" then inr math_NaN
  else
    let s := strings.RemoveAll Ch.underscore s in
    match strconv_ParseFloat s with
    | inl why => inl (Plain (NumErrorText "ParseFloat" s why))
    | inr f => inr f
    end.

(** The first layout of the list that [time.Parse] accepts. *)
Fixpoint firstLayout (layouts : list string) (s : string) : option Time :=
  match layouts with
  | [] => None
  | l :: layouts' =>
      match time_Parse l s with
      | Some t => Some t
      | None => firstLayout layouts' s
      end
  end.

Definition parseLocalDateTimeVariants (s : string) : option Node :=
  match firstLayout ["2006-01-02T15:04:05"; "2006-01-02 15:04:05";
                     "2006-01-02T15:04:05.999999999"; "2006-01-02 15:04:05.999999999"] s with
  | Some t => Some (NValue ValueLocalDatetime (ATime t))
  | None =>
      match time_Parse "2006-01-02" s with
      | Some d => Some (NValue ValueLocalDate (ATime d))
      | None =>
          match firstLayout ["15:04:05"; "15:04:05.999999999"] s with
          | Some t => Some (NValue ValueLocalTime (ATime t))
          | None => None
          end
      end
  end.

Definition RFC3339Nano : string := "2006-01-02T15:04:05.999999999Z07:00".

(** The loop [for i := 0; i < len(parts)-1; i++] of [parseKeyValue],
    of the array branch of [parseTableHeader] and of
    [parseInlineTableToken], and the loop [for _, part := range parts]
    of the plain branch of [parseTableHeader]: they have the same
    body, up to the error returned on a binding that is not a table.
    [parts] is the list of the segments the loop visits. *)
Fixpoint walk (notTable : string -> error) (parts : list string) (t : addr) (h : heap)
    : outcome heap addr :=
  match parts with
  | [] => Ok t h
  | part :: rest =>
      match Items h t with
      | None => Panic
      | Some items =>
          match items !! part with
          | None =>
              let (next, h1) := NewTable h in
              walk notTable rest next (setItem h1 t part (NTable next))
          | Some n =>
              if negb (bool_decide (Kind n = ValueTable)) then Err (notTable part) h
              else match n with
                   | NTable t' => walk notTable rest t' h
                   | _ => Panic
                   end
          end
      end
  end.

(** [_, exists := t.Items[k]] *)
Definition hasItem (h : heap) (t : addr) (k : string) : option bool :=
  match Items h t with
  | None => None
  | Some items => Some (bool_decide (is_Some (items !! k)))
  end.

(** *** Compound values, over the recursive call to [parseValue] *)
Section Compound.
Variable parseValue : string -> heap -> outcome heap Node.

(** The body of [for _, part := range parts] in [parseArrayToken].
  [elemKind] is [None] for the zero value of the variable. *)
Fixpoint parseArray_loop (parts : list string) (arr : addr) (elemKind : option ValueKind)
  (h : heap) : outcome heap unit :=
match parts with
| [] => Ok tt h
| part :: parts' =>
    if isEmpty (strings.TrimSpace part) then parseArray_loop parts' arr elemKind h
    else
      let! (v, h) := parseValue part h in
      match Elems h arr with
      | None => Panic
      | Some elems =>
          if (length elems =? 0)%nat then
            parseArray_loop parts' arr (Some (Kind v)) (appendElem h arr v)
          else if negb (bool_decide (Some (Kind v) = elemKind)) then
            Err (errors_New "mixed-type array") h
          else parseArray_loop parts' arr elemKind (appendElem h arr v)
      end
end.

Definition parseArrayToken (s : string) (h : heap) : outcome heap Node :=
let content := strings.TrimSpace (stripCommentPreserveStrings s) in
if negb (strings.HasPrefix content "[") then Err (errors_New "invalid array") h
else
  match slice content 1 (Z.of_nat (len content) - 1) with
  | None => Panic
  | Some content =>
      let content := strings.TrimSpace content in
      let parts := splitTopLevel content Ch.comma in
      let (arr, h) := NewArray h in
      let! (_, h) := parseArray_loop parts arr None h in
      Ok (NArray arr) h
  end.

(** [parseInlineTableToken] from the walk on, for one pair: [parts]
  are the segments of its key, [val] the text after its [=], and
  [t] the table under construction. *)
Definition inlinePair_bind (parts : list string) (val : string) (t : addr) (h : heap)
  : outcome heap unit :=
match splitLast parts with
| None => Panic
| Some (front, last) =>
    let! (cur, h) := walk (fun _ => errors_New "inline table path conflict") front t h in
    match hasItem h cur last with
    | None => Panic
    | Some true => Err (errors_New "duplicate inline table key") h
    | Some false =>
        let! (v, h) := parseValue val h in
        Ok tt (setItem h cur last v)
    end
end.

(** One iteration of [for _, pair := range pairs] in
  [parseInlineTableToken], on the table [t]. *)
Definition parseInlinePair (pair : string) (t : addr) (h : heap) : outcome heap unit :=
let pair := strings.TrimSpace pair in
if isEmpty pair then Ok tt h
else
  let idx := findUnquotedEqual pair in
  if (idx <? 0)%Z then Err (errors_New "invalid inline table kv") h
  else
    let key := strings.TrimSpace (strings.take (Z.to_nat idx) pair) in
    let val := strings.TrimSpace (strings.drop (Z.to_nat idx + 1) pair) in
    match parseKeyParts key with
    | inl err => Err err h
    | inr parts => inlinePair_bind parts val t h
    end.

Fixpoint parseInline_loop (pairs : list string) (t : addr) (h : heap) : outcome heap unit :=
match pairs with
| [] => Ok tt h
| kv :: pairs' =>
    let! (_, h) := parseInlinePair kv t h in
    parseInline_loop pairs' t h
end.

Definition parseInlineTableToken (s : string) (h : heap) : outcome heap Node :=
let content := strings.TrimSpace (stripCommentPreserveStrings s) in
if negb (strings.HasPrefix content "{") || negb (strings.HasSuffix content "}") then
  Err (errors_New "invalid inline table") h
else
  match slice content 1 (Z.of_nat (len content) - 1) with
  | None => Panic
  | Some inner =>
      let inner := strings.TrimSpace inner in
      let pairs := splitTopLevel inner Ch.comma in
      let (t, h) := NewTable h in
      let! (_, h) := parseInline_loop pairs t h in
      Ok (NTable t) h
  end.

(** The body of [parseValue]. *)
Definition parseValue_body (s : string) (h : heap) : outcome heap Node :=
let s := strings.TrimSpace (stripCommentPreserveStrings s) in
if isEmpty s then Err (errors_New "empty value") h
else if strings.HasPrefix s (triple Ch.dq) then
  match extractTripleQuoted s Ch.dq with
  | None => Err (errors_New "unterminated multiline string") h
  | Some content =>
      match decodeBasicString content true with
      | inl err => Err err h
      | inr decoded => Ok (NValue ValueString (AString decoded)) h
      end
  end
else if strings.HasPrefix s (triple Ch.sq) then
  match extractTripleQuoted s Ch.sq with
  | None => Err (errors_New "unterminated multiline literal string") h
  | Some content => Ok (NValue ValueString (AString content)) h
  end
else if strings.HasPrefix s (str1 Ch.dq) then
  match extractSingleQuoted s Ch.dq with
  | None => Err (errors_New "unterminated string") h
  | Some content =>
      match decodeBasicString content false with
      | inl err => Err err h
      | inr decoded => Ok (NValue ValueString (AString decoded)) h
      end
  end
else if strings.HasPrefix s (str1 Ch.sq) then
  match extractSingleQuoted s Ch.sq with
  | None => Err (errors_New "unterminated literal string") h
  | Some content => Ok (NValue ValueString (AString content)) h
  end
else if strings.HasPrefix s "[" then parseArrayToken s h
else if strings.HasPrefix s "{" then parseInlineTableToken s h
else if String.eqb s "true" || String.eqb s "false" then
  Ok (NValue ValueBool (ABool (String.eqb s "true"))) h
else if String.eqb s "inf" || String.eqb s "+inf" then
  Ok (NValue ValueFloat (AFloat64 (math_Inf 1))) h
else if String.eqb s "-inf" then
  Ok (NValue ValueFloat (AFloat64 (math_Inf (-1)))) h
else if strings.EqualFoldLower s "nan" then
  Ok (NValue ValueFloat (AFloat64 math_NaN)) h
else
  match time_Parse RFC3339Nano s with
  | Some t => Ok (NValue ValueDatetime (ATime t)) h
  | None =>
      match parseLocalDateTimeVariants s with
      | Some n => Ok n h
      | None =>
          match parseIntToken s with
          | inr i => Ok (NValue ValueInt (AInt64 i)) h
          | inl _ =>
              match parseFloatToken s with
              | inr f => Ok (NValue ValueFloat (AFloat64 f)) h
              | inl _ => Err (errors_New "unsupported value") h
              end
          end
      end
  end.

End Compound.

(** [parseValue] calls itself through [parseArrayToken] and
    [parseInlineTableToken] on strictly shorter strings; the
    recursion is bounded by [fuel]. *)
Fixpoint parseValue_fuel (fuel : nat) (s : string) (h : heap) : outcome heap Node :=
  match fuel with
  | O => OutOfFuel
  | S fuel' => parseValue_body (parseValue_fuel fuel') s h
  end.

Definition parseValue (s : string) (h : heap) : outcome heap Node :=
  parseValue_fuel (S (len s)) s h.

(** ** The parser *)


Record parser := MkParser {
  scanner : Scanner;
  root : addr;
  cur : addr;
  lineNo : nat;
  store : heap;
}.

Definition errf (p : parser) (msg : message) : error := Annotated (lineNo p) msg.

Definition with_store (p : parser) (h : heap) : parser :=
  MkParser (scanner p) (root p) (cur p) (lineNo p) h.
Definition with_cur (p : parser) (t : addr) : parser :=
  MkParser (scanner p) (root p) t (lineNo p) (store p).

(** A heap computation run on the store of the parser. *)
Definition on_store {A} (p : parser) (c : outcome heap A) : outcome parser A :=
  match c with
  | Ok a h => Ok a (with_store p h)
  | Err e h => Err e (with_store p h)
  | Panic => Panic
  | OutOfFuel => OutOfFuel
  end.

Definition notTable (p : parser) (part : string) : error := errf p (KeyNotTable part).

(** The branch [if !isArray { ... }] of [parseTableHeader], on the
    segments [parts] of the header. *)
Definition tableHeader_plain (parts : list string) (p : parser) : outcome parser unit :=
  let! (t, p) := on_store p (walk (notTable p) parts (root p) (store p)) in
  Ok tt (with_cur p t).

(** The rest of [parseTableHeader], for a header [[[...]]]. *)
Definition tableHeader_array (parts : list string) (p : parser) : outcome parser unit :=
  match splitLast parts with
  | None => Panic
  | Some (front, last) =>
      let! (parent, p) := on_store p (walk (notTable p) front (root p) (store p)) in
      match Items (store p) parent with
      | None => Panic
      | Some items =>
          match items !! last with
          | None =>
              let (arr, h) := NewArray (store p) in
              let h := setItem h parent last (NArray arr) in
              let (newTbl, h) := NewTable h in
              Ok tt (with_cur (with_store p (appendElem h arr (NTable newTbl))) newTbl)
          | Some existing =>
              if negb (bool_decide (Kind existing = ValueArray)) then
                Err (errf p (KeyNotArray last)) p
              else
                match existing with
                | NArray arr =>
                    let (newTbl, h) := NewTable (store p) in
                    Ok tt (with_cur (with_store p (appendElem h arr (NTable newTbl))) newTbl)
                | _ => Panic
                end
          end
      end
  end.

Definition parseTableHeader (line : string) (p : parser) : outcome parser unit :=
  let s := strings.TrimSpace (stripCommentPreserveStrings line) in
  let isArray := strings.HasPrefix s "[[" in
  if isArray && negb (strings.HasSuffix s "]]") then
    Err (errf p (Text "invalid array-of-table header")) p
  else if negb isArray && negb (strings.HasSuffix s "]") then
    Err (errf p (Text "invalid table header")) p
  else
    let k := if isArray then 2%Z else 1%Z in
    match slice s k (Z.of_nat (len s) - k) with
    | None => Panic
    | Some name =>
        match parseKeyParts (strings.TrimSpace name) with
        | inl err => Err (errf p (Error_text err)) p
        | inr parts =>
            if negb isArray then tableHeader_plain parts p
            else tableHeader_array parts p
        end
    end.

(** [p.scanner.Scan()], [p.scanner.Text()] and [p.lineNo++]. *)
Definition scanLine (p : parser) : option (string * parser) :=
  match pending (scanner p) with
  | [] => None
  | line :: rest =>
      Some (line, MkParser (MkScanner rest (failed (scanner p))) (root p) (cur p)
                    (S (lineNo p)) (store p))
  end.

(** The two loops of [consumeValue] that pull lines until a
    triple-quoted string is closed.  The recursion is on the lines
    the scanner still holds. *)
Fixpoint pullTriple (delim : string) (unterminated : string) (initial : string)
    (b : string) (lines : list string) (p : parser) : outcome parser string :=
  match lines with
  | [] => Err (errors_New unterminated) p
  | line :: lines' =>
      let p := MkParser (MkScanner lines' (failed (scanner p))) (root p) (cur p)
                 (S (lineNo p)) (store p) in
      let b := WriteString (WriteString b (str1 Ch.nl)) line in
      if strings.Contains (strings.drop (len initial) b) delim then Ok b p
      else pullTriple delim unterminated initial b lines' p
  end.

(** The loop [for depth > 0] of [consumeValue]. *)
Fixpoint pullCompound (b : string) (depth : Z) (q : quotes)
    (lines : list string) (p : parser) : outcome parser string :=
  if (depth <=? 0)%Z then Ok b p
  else
    match lines with
    | [] => Err (errors_New "unterminated compound value") p
    | line :: lines' =>
        let p := MkParser (MkScanner lines' (failed (scanner p))) (root p) (cur p)
                   (S (lineNo p)) (store p) in
        let b := WriteString (WriteString b (str1 Ch.nl)) line in
        let (depth, q) := scanDepth line depth q in
        pullCompound b depth q lines' p
    end.

Definition consumeValue (initial : string) (p : parser) : outcome parser string :=
  let s := initial in
  let sTrim := strings.TrimSpace (stripCommentPreserveStrings s) in
  if isEmpty sTrim then Err (errors_New "empty value") p
  else if strings.HasPrefix sTrim (triple Ch.dq)
          && negb (strings.Contains (strings.drop 3 sTrim) (triple Ch.dq)) then
    pullTriple (triple Ch.dq) "unterminated multiline string" initial s
      (pending (scanner p)) p
  else if strings.HasPrefix sTrim (triple Ch.sq)
          && negb (strings.Contains (strings.drop 3 sTrim) (triple Ch.sq)) then
    pullTriple (triple Ch.sq) "unterminated multiline literal string" initial s
      (pending (scanner p)) p
  else if strings.HasPrefix sTrim "[" || strings.HasPrefix sTrim "{" then
    let (depth, q) := scanDepth s 0%Z noQuotes in
    pullCompound s depth q (pending (scanner p)) p
  else Ok s p.

(** [parseKeyValue] from the walk on: [parts] are the segments of the
    key and [val] is the text after the [=]. *)
Definition keyValue_bind (parts : list string) (val : string) (p : parser)
    : outcome parser unit :=
  match splitLast parts with
  | None => Panic
  | Some (front, last) =>
      let! (t, p) := on_store p (walk (notTable p) front (cur p) (store p)) in
      match hasItem (store p) t last with
      | None => Panic
      | Some true => Err (errf p (DuplicateKey last)) p
      | Some false =>
          match consumeValue val p with
          | Err err p => Err (errf p (Error_text err)) p
          | Ok fullVal p =>
              match parseValue fullVal (store p) with
              | Err err _ => Err (errf p (Error_text err)) p
              | Ok v h => Ok tt (with_store p (setItem h t last v))
              | Panic => Panic
              | OutOfFuel => OutOfFuel
              end
          | Panic => Panic
          | OutOfFuel => OutOfFuel
          end
      end
  end.

Definition parseKeyValue (line : string) (idx : Z) (p : parser) : outcome parser unit :=
  let key := strings.TrimSpace (strings.take (Z.to_nat idx) line) in
  let val := strings.TrimSpace (strings.drop (Z.to_nat idx + 1) line) in
  match parseKeyParts key with
  | inl err => Err (errf p (Error_text err)) p
  | inr parts => keyValue_bind parts val p
  end.

(** The body of the loop of [Parse], for the line [text] just read
    (the line counter is already incremented). *)
Definition parseLine (text : string) (p : parser) : outcome parser unit :=
  let line := strings.TrimSpace text in
  if isEmpty line || strings.HasPrefix line "#" then Ok tt p
  else if strings.HasPrefix line "[" then parseTableHeader line p
  else
    let idx := findUnquotedEqual line in
    if (idx <? 0)%Z then Err (errf p (Text "invalid syntax")) p
    else parseKeyValue line idx p.

(** [for p.scanner.Scan() { ... }]: every turn reads at least one
    line, so [fuel] above the number of pending lines is enough. *)
Fixpoint Parse_loop (fuel : nat) (p : parser) : outcome parser unit :=
  match fuel with
  | O => OutOfFuel
  | S fuel' =>
      match scanLine p with
      | None =>
          if failed (scanner p) then Err ErrTooLong p else Ok tt p
      | Some (text, p) =>
          let! (_, p) := parseLine text p in
          Parse_loop fuel' p
      end
  end.

Definition newParser (input : string) : parser :=
  let (root, h) := NewTable empty_heap in
  MkParser (NewScanner input) root root 0 h.

Definition Parse_run (input : string) : outcome parser unit :=
  let p := newParser input in
  Parse_loop (S (length (pending (scanner p)))) p.

(** [Parse(r)] for a reader [r] that delivers [input]: the root table
    in the final store, or the error. *)
Definition Parse (input : string) : outcome heap addr :=
  match Parse_run input with
  | Ok _ p => Ok (root p) (store p)
  | Err e p => Err e (store p)
  | Panic => Panic
  | OutOfFuel => OutOfFuel
  end.

(** ** Safe access helpers *)

Fixpoint Get_loop (h : heap) (cur : Node) (path : list string) : option Node :=
  match path with
  | [] => Some cur
  | p :: path' =>
      if (len p =? 0)%nat then Get_loop h cur path'
      else
        match cur with
        | NTable t =>
            match Items h t with
            | Some items =>
                match items !! p with
                | Some n => Get_loop h n path'
                | None => None
                end
            | None => None
            end
        | _ => None
        end
  end.

(** [Get(root, path...)]; [None] is the result [(nil, false)]. *)
Definition Get (h : heap) (root : addr) (path : list string) : option Node :=
  Get_loop h (NTable root) path.

(** [MustString(n)] and [MustInt(n)]; [None] is the panic of the
    failed type assertion. *)
Definition MustString (n : Node) : option string :=
  match n with NValue _ (AString s) => Some s | _ => None end.
Definition MustInt (n : Node) : option Z :=
  match n with NValue _ (AInt64 i) => Some i | _ => None end.

(** ** Predicates on stores used by the statements *)

(** Every binding of every table of [h] and every element of every
    array of [h] is still there in [h']. *)
Definition preserved (h h' : heap) : Prop :=
  (forall t items, Items h t = Some items ->
     exists items', Items h' t = Some items' /\ items ⊆ items')
  /\ (forall a elems, Elems h a = Some elems ->
     exists elems', Elems h' a = Some elems' /\ elems `prefix_of` elems').

(** [h'] has the tables of [h] below [lt] and the arrays of [h] below
    [la] as they are in [h], and no fewer tables and arrays. *)
Definition frame (lt la : nat) (h h' : heap) : Prop :=
  length (tables h) <= length (tables h')
  /\ length (arrays h) <= length (arrays h')
  /\ (forall t, t < lt -> tables h' !! t = tables h !! t)
  /\ (forall a, a < la -> arrays h' !! a = arrays h !! a).

(** The tables from the address [lt] on refer to tables from [lt] on. *)
Definition closed_from (lt : nat) (h : heap) : Prop :=
  forall t items k t',
    lt <= t -> tables h !! t = Some items -> items !! k = Some (NTable t') -> lt <= t'.

(** A node that is not a pointer below [lt] (tables) or [la] (arrays). *)
Definition fresh (lt la : nat) (n : Node) : Prop :=
  match n with
  | NTable t => lt <= t
  | NArray a => la <= a
  | NValue _ _ => True
  end.

(** All elements report the same discriminant tag. *)
Definition homogeneous (elems : list Node) : Prop :=
  forall e1 e2, e1 ∈ elems -> e2 ∈ elems -> Kind e1 = Kind e2.

(** The nine scalar tags. *)
Definition scalarKind (k : ValueKind) : Prop := k <> ValueTable /\ k <> ValueArray.

(** What a call of [parseValue] may do to the store it is given: it
    leaves the tables and arrays of [h] as they are, returns a node
    made of new tables and arrays only, and the new tables refer to
    new tables only. *)
Definition allocates_only (h : heap) (n : Node) (h' : heap) : Prop :=
  frame (length (tables h)) (length (arrays h)) h h'
  /\ fresh (length (tables h)) (length (arrays h)) n
  /\ closed_from (length (tables h)) h'.

(** [p'] is [p] after [k] more lines were read from the scanner:
    the line counter went up by [k]; the tree is not looked at. *)
Definition pulled_lines (k : nat) (p p' : parser) : Prop :=
  exists pulled,
    length pulled = k
    /\ pending (scanner p) = pulled ++ pending (scanner p')
    /\ failed (scanner p') = failed (scanner p)
    /\ lineNo p' = lineNo p + k.

(** The parser state a call ends in, with or without an error,
    satisfies [P]. *)
Definition ends_in {A} (r : outcome parser A) (P : parser -> Prop) : Prop :=
  match r with
  | Ok _ p' => P p'
  | Err _ p' => P p'
  | Panic => True
  | OutOfFuel => True
  end.

(** The error is the message [m] annotated with the line counter of
    the state the call ends in. *)
Definition annotated_at_end {A} (r : outcome parser A) : Prop :=
  match r with
  | Err e p' => exists m, e = Annotated (lineNo p') m
  | _ => True
  end.

Definition nonEmptyKey (k : string) : Prop := k <> EmptyString.

(** The lines pulled after the first one, each after a newline. *)
Definition joinLines (pulled : list string) : string :=
  fold_right (fun line rest => str1 Ch.nl +:+ line +:+ rest) EmptyString pulled.

(** [p'] is [p] after the lines [pulled] were read: nothing but the
    scanner and the line counter differs. *)
Definition after_lines (pulled : list string) (p p' : parser) : Prop :=
  pending (scanner p) = pulled ++ pending (scanner p')
  /\ failed (scanner p') = failed (scanner p)
  /\ lineNo p' = lineNo p + length pulled
  /\ root p' = root p /\ cur p' = cur p /\ store p' = store p.

(** The payload of a [Value] has the dynamic type its tag names. *)
Definition tagged (ty : ValueKind) (v : any) : Prop :=
  match ty, v with
  | ValueString, AString _ => True
  | ValueInt, AInt64 _ => True
  | ValueFloat, AFloat64 _ => True
  | ValueBool, ABool _ => True
  | ValueDatetime, ATime _ => True
  | ValueLocalDate, ATime _ => True
  | ValueLocalTime, ATime _ => True
  | ValueLocalDatetime, ATime _ => True
  | _, _ => False
  end.

(** A node of the store [h]: a pointer to one of its tables or
    arrays, or a [Value] whose tag fits its payload. *)
Definition valid (h : heap) (n : Node) : Prop :=
  match n with
  | NTable t => t < length (tables h)
  | NArray a => a < length (arrays h)
  | NValue ty v => tagged ty v
  end.

(** Every binding of every table and every element of every array is
    a node of the store. *)
Definition wf (h : heap) : Prop :=
  (forall t items k n, tables h !! t = Some items -> items !! k = Some n -> valid h n)
  /\ (forall a elems n, arrays h !! a = Some elems -> n ∈ elems -> valid h n).

(** The state of a parser: a well-formed store with the root and the
    current table in it. *)
Definition wf_parser (p : parser) : Prop :=
  wf (store p) /\ root p < length (tables (store p)) /\ cur p < length (tables (store p)).

(** [h'] has the tables and arrays of [h], and maybe more. *)
Definition grows (h h' : heap) : Prop :=
  length (tables h) <= length (tables h') /\ length (arrays h) <= length (arrays h').

(** What an accepted line does to the state of the parser. *)
Definition extends (p p' : parser) : Prop :=
  wf_parser p' /\ root p' = root p /\ preserved (store p) (store p').

(** The name between the brackets of a header. *)
Definition headerName (line : string) : option string :=
  let s := strings.TrimSpace (stripCommentPreserveStrings line) in
  let k := if strings.HasPrefix s "[[" then 2%Z else 1%Z in
  slice s k (Z.of_nat (len s) - k).

Definition isArrayHeader (line : string) : bool :=
  strings.HasPrefix (strings.TrimSpace (stripCommentPreserveStrings line)) "[[".





(** A byte of the ASCII range that is not white space. *)
Definition solid (c : ascii) : Prop :=
  strings.asciiSpace c = false /\ (byteZ c < 128)%Z.

Definition qBasic : quotes := Q true false false false.
Definition qLiteral : quotes := Q false true false false.

(** The bytes of [s] satisfy [P]. *)
Definition bytes (P : ascii -> Prop) (s : string) : Prop :=
  Forall P (list_ascii_of_string s).

(** The text after a value on its line: blanks, then nothing or a
    comment. *)
Definition lineEnd (pad tail : string) : Prop :=
  bytes (fun c => strings.asciiSpace c = true) pad
  /\ (tail = EmptyString \/ exists comment, tail = String Ch.hash comment).

(** The byte a two-byte escape of a basic string stands for. *)
Definition simpleEscape (e : ascii) : option ascii :=
  if isb e "b"%char then Some Ch.bs
  else if isb e "t"%char then Some Ch.tab
  else if isb e "n"%char then Some Ch.nl
  else if isb e "f"%char then Some Ch.ff
  else if isb e "r"%char then Some Ch.cr
  else if isb e Ch.dq then Some Ch.dq
  else if isb e Ch.backslash then Some Ch.backslash
  else None.

(** [basicBody body s]: the text [body] between the quotes of a basic
    string is made of bytes other than the quote and the backslash,
    which stand for themselves, and of two-byte escapes, and [s] is
    the string it stands for. *)
Inductive basicBody : string -> string -> Prop :=
| basicBody_nil : basicBody EmptyString EmptyString
| basicBody_byte c body s :
    c <> Ch.dq -> c <> Ch.backslash -> basicBody body s ->
    basicBody (String c body) (String c s)
| basicBody_escape e c body s :
    simpleEscape e = Some c -> basicBody body s ->
    basicBody (String Ch.backslash (String e body)) (String c s).

(** The standard way to write a string as a basic string: the quote
    and the backslash are escaped. *)
Fixpoint escapeBasic (s : string) : string :=
  match s with
  | EmptyString => EmptyString
  | String c s' =>
      if isb c Ch.dq || isb c Ch.backslash
      then String Ch.backslash (String c (escapeBasic s'))
      else String c (escapeBasic s')
  end.

(** The bytes of a bare key: ASCII letters, digits, [_] and [-]. *)
Definition bareByte (c : ascii) : Prop :=
  let z := byteZ c in
  (48 <= z <= 57 \/ 65 <= z <= 90 \/ 97 <= z <= 122 \/ z = 95 \/ z = 45)%Z.

Definition bareKey (k : string) : Prop := k <> EmptyString /\ bytes bareByte k.

(** The segments of a dotted key. *)
Fixpoint dotted (ks : list string) : string :=
  match ks with
  | [] => EmptyString
  | [k] => k
  | k :: ks' => k +:+ String Ch.dot (dotted ks')
  end.

(** The body of a string between quotes [q] and the string it stands
    for: a basic string, or a literal string. *)
Definition quotedBody (q : ascii) (body s : string) : Prop :=
  (q = Ch.dq /\ basicBody body s) \/ (q = Ch.sq /\ bytes (fun c => c <> Ch.sq) body /\ s = body).

Definition blanks (pad : string) : Prop := bytes (fun c => strings.asciiSpace c = true) pad.

(** What [parseKeyValue] does once the key is cut into [front] and
    [last] and the value is known to be the node [v]. *)
Definition bindValue (front : list string) (last : string) (v : Node) (p : parser)
  : outcome parser unit :=
  let! (t, p1) := on_store p (walk (notTable p) front (cur p) (store p)) in
  match hasItem (store p1) t last with
  | None => Panic
  | Some true => Err (errf p1 (DuplicateKey last)) p1
  | Some false => Ok tt (with_store p1 (setItem (store p1) t last v))
  end.

(** The text of a key/value line: a dotted key, the byte [=] and the
    text of the value, with blanks between them. *)
Definition keyValueLine (padL : string) (ks : list string) (padA padB value : string) : string :=
  padL +:+ dotted ks +:+ padA +:+ String Ch.eq (padB +:+ value).







(** The values [ToUntyped] returns: the payload of a [Value], a
    slice [[]any] or a map [map[string]any]. *)
#[warnings="-register-all"] Inductive untyped :=
| UValue (v : any)
| USlice (l : list untyped)
| UMap (m : gmap string untyped).

(** [for i := range v.Elems { out[i] = ToUntyped(v.Elems[i]) }],
    over the recursive call [f]. *)
Fixpoint untypedElems (f : Node -> outcome unit untyped) (elems : list Node)
    : outcome unit (list untyped) :=
  match elems with
  | [] => Ok [] tt
  | e :: rest =>
      let! (u, _) := f e in
      let! (out, _) := untypedElems f rest in
      Ok (u :: out) tt
  end.

(** [for k, child := range v.Items { m[k] = ToUntyped(child) }], on
    the list of the bindings of the map. *)
Fixpoint untypedItems (f : Node -> outcome unit untyped) (items : list (string * Node))
    : outcome unit (gmap string untyped) :=
  match items with
  | [] => Ok ∅ tt
  | (k, child) :: rest =>
      let! (u, _) := f child in
      let! (m, _) := untypedItems f rest in
      Ok (<[k := u]> m) tt
  end.

(** The body of [ToUntyped], over the recursive call [f].  [Panic] is
    the dereference of a pointer that is not in the store. *)
Definition ToUntyped_body (f : Node -> outcome unit untyped) (h : heap) (n : Node)
    : outcome unit untyped :=
  match n with
  | NValue _ v => Ok (UValue v) tt
  | NArray a =>
      match Elems h a with
      | None => Panic
      | Some elems =>
          let! (out, _) := untypedElems f elems in
          Ok (USlice out) tt
      end
  | NTable t =>
      match Items h t with
      | None => Panic
      | Some items =>
          let! (m, _) := untypedItems f (map_to_list items) in
          Ok (UMap m) tt
      end
  end.

(** [ToUntyped] calls itself on the children of the node; the
    recursion is bounded by [fuel]. *)
Fixpoint ToUntyped_fuel (fuel : nat) (h : heap) (n : Node) : outcome unit untyped :=
  match fuel with
  | O => OutOfFuel
  | S fuel' => ToUntyped_body (ToUntyped_fuel fuel' h) h n
  end.

(** The number of tables and arrays of a store. *)
Definition size (h : heap) : nat := length (tables h) + length (arrays h).

(** [ToUntyped(n)], with fuel for a path through every table and
    array of the store. *)
Definition ToUntyped (h : heap) (n : Node) : outcome unit untyped :=
  ToUntyped_fuel (S (size h)) h n.

(** [GetUntyped(root, path...)]; [None] is the result [(nil, false)]. *)
Definition GetUntyped (h : heap) (root : addr) (path : list string)
    : outcome unit (option untyped) :=
  match Get h root path with
  | None => Ok None tt
  | Some n => let! (u, _) := ToUntyped h n in Ok (Some u) tt
  end.

(** Ranks for the tables and the arrays of a store. *)
Record ranks := Ranks { rt : nat -> nat; ra : nat -> nat }.

(** The node [n] is a [Value] or has a rank above [r]. *)
Definition above (R : ranks) (r : nat) (n : Node) : Prop :=
  match n with
  | NTable t => r < rt R t
  | NArray a => r < ra R a
  | NValue _ _ => True
  end.

(** The node [n] is a [Value] or has a rank from [b] on. *)
Definition newer (R : ranks) (b : nat) (n : Node) : Prop :=
  match n with
  | NTable t => b <= rt R t
  | NArray a => b <= ra R a
  | NValue _ _ => True
  end.

(** Every binding and every element has a rank above the rank of
    the table or array that holds it, and the ranks are below the
    size of the store. *)
Definition ranked (R : ranks) (h : heap) : Prop :=
  (forall t items k n,
      tables h !! t = Some items -> items !! k = Some n -> above R (rt R t) n)
  /\ (forall a elems n,
        arrays h !! a = Some elems -> n ∈ elems -> above R (ra R a) n)
  /\ (forall t, t < length (tables h) -> rt R t < size h)
  /\ (forall a, a < length (arrays h) -> ra R a < size h).

(** A store without a cycle: its tables and arrays can be ranked. *)
Definition acyclic (h : heap) : Prop := exists R, ranked R h.

(** A well-formed store with its ranks. *)
Definition good (R : ranks) (h : heap) : Prop := wf h /\ ranked R h.

(** The ranks [R'] give the tables and arrays of [h] the rank [R]
    gives them. *)
Definition older (R : ranks) (h : heap) (R' : ranks) : Prop :=
  (forall t, t < length (tables h) -> rt R' t = rt R t)
  /\ (forall a, a < length (arrays h) -> ra R' a = ra R a).

(** From the store [h] ranked by [R] to the store [h'] ranked by [R']. *)
Definition advance (R : ranks) (h : heap) (R' : ranks) (h' : heap) : Prop :=
  good R' h' /\ grows h h' /\ older R h R'.

(** The ranks after [NewTable] and [NewArray]: the new table or
    array gets the size of the store as its rank. *)
Definition rankTable (R : ranks) (h : heap) : ranks :=
  Ranks (fun t => if decide (t = length (tables h)) then size h else rt R t) (ra R).

Definition rankArray (R : ranks) (h : heap) : ranks :=
  Ranks (rt R) (fun a => if decide (a = length (arrays h)) then size h else ra R a).

(** The fuel a node needs: one more than the ranks left above it. *)
Definition need (R : ranks) (h : heap) (n : Node) : nat :=
  match n with
  | NTable t => S (size h - rt R t)
  | NArray a => S (size h - ra R a)
  | NValue _ _ => 1
  end.

(** The state of the quote-aware scanners inside a multi-line
    string delimited by three quotes [q]. *)
Definition qMulti (q : ascii) : quotes :=
  if isb q Ch.sq then Q false true false true else Q true false true false.

(** The body of a multi-line string as [parseValue] reads it: no
    quote of its kind and, in a basic string, no backslash. *)
Definition multiBody (q : ascii) (body : string) : Prop :=
  bytes (fun c => c <> q /\ (q = Ch.dq -> c <> Ch.backslash)) body.

(** [content = content[1:]] when the content begins with a newline. *)
Definition dropFirstNewline (content : string) : string :=
  match content with
  | String c content' => if isb c Ch.nl then content' else content
  | EmptyString => content
  end.

(** ** Lemmas on the store *)

Lemma isb_spec a b : reflect (a = b) (isb a b).
Proof. apply Ascii.eqb_spec. Qed.

Lemma isEmpty_spec s : reflect (s = EmptyString) (isEmpty s).
Proof. apply String.eqb_spec. Qed.

Lemma tables_setItem h t k n items :
  tables h !! t = Some items ->
  tables (setItem h t k n) = <[t := <[k := n]> items]> (tables h).
Proof. intros Ht. unfold setItem. rewrite Ht. reflexivity. Qed.

Lemma setItem_None h t k n : tables h !! t = None -> setItem h t k n = h.
Proof. intros Ht. unfold setItem. rewrite Ht. reflexivity. Qed.

Lemma arrays_setItem h t k n : arrays (setItem h t k n) = arrays h.
Proof. unfold setItem. destruct (tables h !! t); reflexivity. Qed.

Lemma length_tables_setItem h t k n : length (tables (setItem h t k n)) = length (tables h).
Proof.
  unfold setItem. destruct (tables h !! t); [|reflexivity].
  simpl. apply length_insert.
Qed.

Lemma lookup_setItem_ne h t k n t' :
  t <> t' -> tables (setItem h t k n) !! t' = tables h !! t'.
Proof.
  intros Hne. unfold setItem. destruct (tables h !! t); [|reflexivity].
  simpl. apply list_lookup_insert_ne. exact Hne.
Qed.

Lemma lookup_setItem_eq h t k n items :
  tables h !! t = Some items ->
  tables (setItem h t k n) !! t = Some (<[k := n]> items).
Proof.
  intros Ht. rewrite (tables_setItem _ _ _ _ _ Ht).
  apply list_lookup_insert_eq. eapply lookup_lt_Some, Ht.
Qed.

Lemma tables_appendElem h a n : tables (appendElem h a n) = tables h.
Proof. unfold appendElem. destruct (arrays h !! a); reflexivity. Qed.

Lemma length_arrays_appendElem h a n :
  length (arrays (appendElem h a n)) = length (arrays h).
Proof.
  unfold appendElem. destruct (arrays h !! a); [|reflexivity].
  simpl. apply length_insert.
Qed.

Lemma lookup_appendElem_ne h a n a' :
  a <> a' -> arrays (appendElem h a n) !! a' = arrays h !! a'.
Proof.
  intros Hne. unfold appendElem. destruct (arrays h !! a); [|reflexivity].
  simpl. apply list_lookup_insert_ne. exact Hne.
Qed.

Lemma lookup_appendElem_eq h a n elems :
  arrays h !! a = Some elems ->
  arrays (appendElem h a n) !! a = Some (elems ++ [n]).
Proof.
  intros Ha. unfold appendElem. rewrite Ha. simpl.
  apply list_lookup_insert_eq. eapply lookup_lt_Some, Ha.
Qed.

Lemma frame_refl lt la h : frame lt la h h.
Proof. unfold frame. auto. Qed.

Lemma frame_trans lt la lt' la' h1 h2 h3 :
  lt <= lt' -> la <= la' ->
  frame lt la h1 h2 -> frame lt' la' h2 h3 -> frame lt la h1 h3.
Proof.
  intros Hlt Hla (T1 & A1 & FT1 & FA1) (T2 & A2 & FT2 & FA2).
  repeat split; try lia.
  - intros t Ht. rewrite FT2 by lia. apply FT1, Ht.
  - intros a Ha. rewrite FA2 by lia. apply FA1, Ha.
Qed.

Lemma frame_weaken lt la lt' la' h h' :
  lt <= lt' -> la <= la' -> frame lt' la' h h' -> frame lt la h h'.
Proof.
  intros Hlt Hla (T & A & FT & FA). repeat split; auto.
  - intros t Ht. apply FT. lia.
  - intros a Ha. apply FA. lia.
Qed.

Lemma frame_NewTable lt la h : lt <= length (tables h) -> frame lt la h (NewTable h).2.
Proof.
  intros Hlt. unfold frame, NewTable. simpl. rewrite length_app. simpl.
  repeat split; try lia; auto.
  intros t Ht. apply lookup_app_l. lia.
Qed.

Lemma frame_NewArray lt la h : la <= length (arrays h) -> frame lt la h (NewArray h).2.
Proof.
  intros Hla. unfold frame, NewArray. simpl. rewrite length_app. simpl.
  repeat split; try lia; auto.
  intros a Ha. apply lookup_app_l. lia.
Qed.

Lemma frame_setItem lt la h t k n : lt <= t -> frame lt la h (setItem h t k n).
Proof.
  intros Hlt. unfold frame. rewrite length_tables_setItem, arrays_setItem.
  repeat split; auto.
  intros t' Ht'. apply lookup_setItem_ne. lia.
Qed.

Lemma frame_appendElem lt la h a n : la <= a -> frame lt la h (appendElem h a n).
Proof.
  intros Hla. unfold frame. rewrite length_arrays_appendElem, tables_appendElem.
  repeat split; auto.
  intros a' Ha'. apply lookup_appendElem_ne. lia.
Qed.

Lemma closed_from_frame lt h h' :
  closed_from lt h -> frame (length (tables h)) 0 h h' ->
  closed_from (length (tables h)) h' -> lt <= length (tables h) -> closed_from lt h'.
Proof.
  intros Hc (_ & _ & FT & _) Hc' Hlt t items k t' Ht Hitems Hk.
  destruct (decide (t < length (tables h))) as [Hold|Hnew].
  - rewrite FT in Hitems by exact Hold. eapply Hc; eauto.
  - assert (length (tables h) <= t') by (eapply Hc'; [|exact Hitems|exact Hk]; lia). lia.
Qed.

Lemma closed_from_setItem lt h t k n :
  closed_from lt h -> fresh lt 0 n -> closed_from lt (setItem h t k n).
Proof.
  intros Hc Hn t1 items1 k1 t' Ht1 Hitems Hk1.
  destruct (decide (t = t1)) as [<-|Hne].
  - destruct (tables h !! t) as [items|] eqn:Ht.
    + rewrite (lookup_setItem_eq _ _ _ _ _ Ht) in Hitems. injection Hitems as <-.
      destruct (decide (k = k1)) as [<-|Hk].
      * rewrite lookup_insert_eq in Hk1. injection Hk1 as ->. exact Hn.
      * rewrite lookup_insert_ne in Hk1 by exact Hk. eapply Hc; eauto.
    + rewrite (setItem_None _ _ _ _ Ht) in Hitems. rewrite Ht in Hitems. discriminate.
  - rewrite lookup_setItem_ne in Hitems by exact Hne. eapply Hc; eauto.
Qed.

Lemma closed_from_appendElem lt h a n : closed_from lt h -> closed_from lt (appendElem h a n).
Proof. unfold closed_from. rewrite tables_appendElem. auto. Qed.

Lemma closed_from_NewTable lt h : closed_from lt h -> closed_from lt (NewTable h).2.
Proof.
  intros Hc t items k t' Ht Hitems Hk. unfold NewTable in Hitems. simpl in Hitems.
  destruct (decide (t < length (tables h))) as [Hold|Hnew].
  - rewrite lookup_app_l in Hitems by exact Hold. eapply Hc; eauto.
  - rewrite lookup_app_r in Hitems by lia.
    destruct (t - length (tables h)) as [|i]; simpl in Hitems; [|discriminate].
    injection Hitems as <-. rewrite lookup_empty in Hk. discriminate.
Qed.

Lemma closed_from_NewArray lt h : closed_from lt h -> closed_from lt (NewArray h).2.
Proof. unfold closed_from, NewArray. simpl. auto. Qed.

Lemma preserved_refl h : preserved h h.
Proof.
  split.
  - intros t items Ht. exists items. split; [exact Ht | reflexivity].
  - intros a elems Ha. exists elems. split; [exact Ha | reflexivity].
Qed.

Lemma preserved_trans h1 h2 h3 : preserved h1 h2 -> preserved h2 h3 -> preserved h1 h3.
Proof.
  intros [T1 A1] [T2 A2]. split.
  - intros t items Ht. destruct (T1 _ _ Ht) as (items2 & Ht2 & Hsub2).
    destruct (T2 _ _ Ht2) as (items3 & Ht3 & Hsub3).
    exists items3. split; [exact Ht3 | etrans; eassumption].
  - intros a elems Ha. destruct (A1 _ _ Ha) as (elems2 & Ha2 & Hpre2).
    destruct (A2 _ _ Ha2) as (elems3 & Ha3 & Hpre3).
    exists elems3. split; [exact Ha3 | etrans; eassumption].
Qed.

Lemma frame_preserved h h' :
  frame (length (tables h)) (length (arrays h)) h h' -> preserved h h'.
Proof.
  intros (_ & _ & FT & FA). split.
  - intros t items Ht. exists items. split; [|reflexivity].
    unfold Items in *. rewrite FT; [exact Ht | eapply lookup_lt_Some, Ht].
  - intros a elems Ha. exists elems. split; [|reflexivity].
    unfold Elems in *. rewrite FA; [exact Ha | eapply lookup_lt_Some, Ha].
Qed.

Lemma preserved_setItem h t k n items :
  Items h t = Some items -> items !! k = None -> preserved h (setItem h t k n).
Proof.
  intros Ht Hk. split.
  - intros t1 items1 Ht1. unfold Items in *.
    destruct (decide (t = t1)) as [<-|Hne].
    + rewrite (lookup_setItem_eq _ _ _ _ _ Ht). rewrite Ht in Ht1. injection Ht1 as <-.
      eexists. split; [reflexivity|]. apply insert_subseteq, Hk.
    + rewrite lookup_setItem_ne by exact Hne. exists items1. split; [exact Ht1 | reflexivity].
  - intros a elems Ha. unfold Elems in *. rewrite arrays_setItem.
    exists elems. split; [exact Ha | reflexivity].
Qed.

Lemma preserved_appendElem h a n : preserved h (appendElem h a n).
Proof.
  split.
  - intros t items Ht. unfold Items in *. rewrite tables_appendElem.
    exists items. split; [exact Ht | reflexivity].
  - intros a1 elems Ha1. unfold Elems in *.
    destruct (decide (a = a1)) as [<-|Hne].
    + rewrite (lookup_appendElem_eq _ _ _ _ Ha1). eexists. split; [reflexivity|].
      apply prefix_app_r. reflexivity.
    + rewrite lookup_appendElem_ne by exact Hne. exists elems. split; [exact Ha1 | reflexivity].
Qed.

Lemma preserved_NewTable h : preserved h (NewTable h).2.
Proof. apply frame_preserved, frame_NewTable. lia. Qed.

Lemma preserved_NewArray h : preserved h (NewArray h).2.
Proof. apply frame_preserved, frame_NewArray. lia. Qed.

(** ** Lemmas on [walk] *)

Lemma bind_Ok {S A B} (c : outcome S A) (k : A -> S -> outcome S B) b s :
  bind c k = Ok b s -> exists a s1, c = Ok a s1 /\ k a s1 = Ok b s.
Proof. destruct c; simpl; intros E; try discriminate. eauto. Qed.

Lemma walk_nil e t h : walk e [] t h = Ok t h.
Proof. reflexivity. Qed.

Lemma walk_cons e part rest t h :
  walk e (part :: rest) t h =
  match Items h t with
  | None => Panic
  | Some items =>
      match items !! part with
      | None => walk e rest (length (tables h))
                  (setItem (NewTable h).2 t part (NTable (length (tables h))))
      | Some n =>
          if negb (bool_decide (Kind n = ValueTable)) then Err (e part) h
          else match n with
               | NTable t' => walk e rest t' h
               | _ => Panic
               end
      end
  end.
Proof. reflexivity. Qed.

Lemma walk_app e pre rest : forall t h,
  walk e (pre ++ rest) t h = let! (t1, h1) := walk e pre t h in walk e rest t1 h1.
Proof.
  induction pre as [|part pre IH]; intros t h; [reflexivity|].
  rewrite <- app_comm_cons, !walk_cons.
  destruct (Items h t) as [items|]; [|reflexivity].
  destruct (items !! part) as [n|]; [|apply IH].
  destruct (negb (bool_decide (Kind n = ValueTable))); [reflexivity|].
  destruct n; try reflexivity. apply IH.
Qed.

(** A binding that is not a table stops the walk with the error of
    the caller; a binding the walk goes through is a table. *)
Lemma walk_not_table e part rest t h items n :
  Items h t = Some items -> items !! part = Some n -> Kind n <> ValueTable ->
  walk e (part :: rest) t h = Err (e part) h.
Proof.
  intros Ht Hn Hk. rewrite walk_cons, Ht, Hn.
  rewrite bool_decide_eq_false_2 by exact Hk. reflexivity.
Qed.

Lemma walk_through_table e part rest t h items n t' h' :
  Items h t = Some items -> items !! part = Some n ->
  walk e (part :: rest) t h = Ok t' h' -> exists t1, n = NTable t1.
Proof.
  intros Ht Hn. rewrite walk_cons, Ht, Hn.
  destruct (negb (bool_decide (Kind n = ValueTable))); [discriminate|].
  destruct n; try discriminate. eauto.
Qed.

Lemma walk_preserved e parts : forall t h t' h',
  walk e parts t h = Ok t' h' -> preserved h h'.
Proof.
  induction parts as [|part rest IH]; intros t h t' h' Hw.
  - injection Hw as <- <-. apply preserved_refl.
  - rewrite walk_cons in Hw.
    destruct (Items h t) as [items|] eqn:Ht; [|discriminate].
    destruct (items !! part) as [n|] eqn:Hn.
    + destruct (negb (bool_decide (Kind n = ValueTable))); [discriminate|].
      destruct n; try discriminate. eapply IH, Hw.
    + apply IH in Hw. eapply preserved_trans; [|exact Hw].
      eapply preserved_trans; [apply preserved_NewTable|].
      eapply preserved_setItem; [|exact Hn].
      unfold Items, NewTable in *. simpl. rewrite lookup_app_l; [exact Ht|].
      eapply lookup_lt_Some, Ht.
Qed.

Lemma walk_frame e parts : forall t h t' h' lt la,
  lt <= t -> lt <= length (tables h) -> closed_from lt h ->
  walk e parts t h = Ok t' h' ->
  frame lt la h h' /\ lt <= t' /\ closed_from lt h'.
Proof.
  induction parts as [|part rest IH]; intros t h t' h' lt la Ht Hlt Hc Hw.
  - injection Hw as <- <-. split; [apply frame_refl | auto].
  - rewrite walk_cons in Hw.
    destruct (Items h t) as [items|] eqn:Hit; [|discriminate].
    destruct (items !! part) as [n|] eqn:Hn.
    + destruct (negb (bool_decide (Kind n = ValueTable))); [discriminate|].
      destruct n as [t1| |]; try discriminate.
      eapply IH; [|exact Hlt|exact Hc|exact Hw].
      eapply Hc; [exact Ht|exact Hit|exact Hn].
    + apply (IH _ _ _ _ lt la) in Hw as (F & Ht' & Hc').
      * split; [|auto].
        eapply (frame_trans lt la lt la); [lia|lia| |exact F].
        eapply (frame_trans lt la lt la); [lia|lia|apply frame_NewTable, Hlt|].
        apply frame_setItem, Ht.
      * exact Hlt.
      * rewrite length_tables_setItem. unfold NewTable. simpl. rewrite length_app. lia.
      * apply closed_from_setItem; [apply closed_from_NewTable, Hc | exact Hlt].
Qed.

(** ** What [parseValue] does to the store *)

Lemma closed_from_length h : closed_from (length (tables h)) h.
Proof.
  intros t items k t' Ht Hitems _. apply lookup_lt_Some in Hitems. lia.
Qed.

Lemma allocates_only_scalar h ty v : allocates_only h (NValue ty v) h.
Proof. split; [apply frame_refl | split; [exact I | apply closed_from_length]]. Qed.

Lemma parseLocalDateTimeVariants_scalar s n :
  parseLocalDateTimeVariants s = Some n -> exists ty v, n = NValue ty v /\ scalarKind ty.
Proof.
  unfold parseLocalDateTimeVariants, scalarKind. intros E.
  repeat case_match; simplify_eq; eauto.
Qed.

(** The three ways [parseValue] returns a node: a scalar, with the
    store untouched, or the result of one of the two compound parsers. *)
Lemma parseValue_body_cases pv s h n h' :
  parseValue_body pv s h = Ok n h' ->
  (h' = h /\ exists ty v, n = NValue ty v /\ scalarKind ty)
  \/ (exists s', parseArrayToken pv s' h = Ok n h')
  \/ (exists s', parseInlineTableToken pv s' h = Ok n h').
Proof.
  unfold parseValue_body. intros E.
  repeat match type of E with
         | context [if ?b then _ else _] => destruct b eqn:?
         | context [match ?x with _ => _ end] => destruct x eqn:?
         end;
    try discriminate; try (right; eauto; fail);
    try (left; simplify_eq; split; [reflexivity|];
         first [ eapply parseLocalDateTimeVariants_scalar; eassumption
               | do 2 eexists; split; [reflexivity | split; discriminate] ]).
Qed.

Lemma parseArray_loop_cons pv part parts arr ek h :
  parseArray_loop pv (part :: parts) arr ek h =
  if isEmpty (strings.TrimSpace part) then parseArray_loop pv parts arr ek h
  else
    let! (v, h) := pv part h in
    match Elems h arr with
    | None => Panic
    | Some elems =>
        if (length elems =? 0)%nat then
          parseArray_loop pv parts arr (Some (Kind v)) (appendElem h arr v)
        else if negb (bool_decide (Some (Kind v) = ek)) then
          Err (errors_New "mixed-type array") h
        else parseArray_loop pv parts arr ek (appendElem h arr v)
    end.
Proof. reflexivity. Qed.

Section Frame.
Variable pv : string -> heap -> outcome heap Node.
Hypothesis pv_allocates : forall s h n h', pv s h = Ok n h' -> allocates_only h n h'.

Lemma pv_step lt la s h v h1 :
  lt <= length (tables h) -> la <= length (arrays h) -> closed_from lt h ->
  pv s h = Ok v h1 ->
  frame lt la h h1 /\ closed_from lt h1 /\ fresh lt la v
  /\ length (tables h) <= length (tables h1) /\ length (arrays h) <= length (arrays h1).
Proof.
  intros Hlt Hla Hc Hpv. apply pv_allocates in Hpv as (F & Fr & C).
  split; [eapply frame_weaken; [| |exact F]; lia|].
  split; [eapply closed_from_frame; [exact Hc| |exact C|exact Hlt];
          eapply frame_weaken; [| |exact F]; lia|].
  split; [destruct v; simpl in *; lia|].
  destruct F as (? & ? & _). auto.
Qed.

Lemma parseArray_loop_frame parts : forall arr ek h h' lt la,
  lt <= length (tables h) -> la <= arr -> la <= length (arrays h) -> closed_from lt h ->
  parseArray_loop pv parts arr ek h = Ok tt h' ->
  frame lt la h h' /\ closed_from lt h'.
Proof.
  induction parts as [|part parts IH]; intros arr ek h h' lt la Hlt Harr Hla Hc E.
  - injection E as <-. split; [apply frame_refl | exact Hc].
  - rewrite parseArray_loop_cons in E.
    destruct (isEmpty (strings.TrimSpace part)); [eapply (IH arr ek); eassumption|].
    apply bind_Ok in E as (v & h1 & Hpv & E).
    destruct (pv_step lt la _ _ _ _ Hlt Hla Hc Hpv) as (F1 & C1 & _ & LT & LA).
    destruct (Elems h1 arr) as [elems|]; [|discriminate].
    assert (frame lt la h (appendElem h1 arr v)) as F2.
    { eapply (frame_trans lt la lt la); [lia|lia|exact F1|]. apply frame_appendElem, Harr. }
    assert (forall ek', parseArray_loop pv parts arr ek' (appendElem h1 arr v) = Ok tt h' ->
              frame lt la h h' /\ closed_from lt h') as Hnext.
    { intros ek' E'. apply (IH _ _ _ _ lt la) in E' as (F3 & C3).
      - split; [|exact C3]. eapply (frame_trans lt la lt la); [lia|lia|exact F2|exact F3].
      - rewrite tables_appendElem. lia.
      - exact Harr.
      - rewrite length_arrays_appendElem. lia.
      - apply closed_from_appendElem, C1. }
    destruct (length elems =? 0)%nat; [eapply Hnext, E|].
    destruct (negb (bool_decide (Some (Kind v) = ek))); [discriminate|].
    eapply Hnext, E.
Qed.

Lemma parseArrayToken_allocates s h n h' :
  parseArrayToken pv s h = Ok n h' -> allocates_only h n h'.
Proof.
  unfold parseArrayToken. intros E.
  destruct (negb (strings.HasPrefix _ "[")); [discriminate|].
  destruct (slice _ _ _) as [content|]; [|discriminate].
  simpl in E. apply bind_Ok in E as ([] & h1 & Hloop & E). injection E as <- <-.
  apply (parseArray_loop_frame _ _ _ _ _ (length (tables h)) (length (arrays h))) in Hloop
    as (F & C); simpl; rewrite ?length_app; simpl; try lia.
  - split; [|split; [simpl; lia | exact C]].
    eapply (frame_trans _ _ (length (tables h)) (length (arrays h))); [lia|lia| |exact F].
    apply (frame_NewArray _ _ h). lia.
  - apply (closed_from_NewArray _ h), closed_from_length.
Qed.

Lemma inlinePair_bind_frame parts val t h h' lt la :
  lt <= t -> lt <= length (tables h) -> la <= length (arrays h) -> closed_from lt h ->
  inlinePair_bind pv parts val t h = Ok tt h' ->
  frame lt la h h' /\ closed_from lt h'.
Proof.
  intros Ht Hlt Hla Hc E. unfold inlinePair_bind in E.
  destruct (splitLast parts) as [[front last]|]; [|discriminate].
  apply bind_Ok in E as (cur & h1 & Hw & E).
  apply (walk_frame _ _ _ _ _ _ lt la Ht Hlt Hc) in Hw as (F1 & Hcur & C1).
  destruct (hasItem h1 cur last) as [[]|]; try discriminate.
  apply bind_Ok in E as (v & h2 & Hpv & E). injection E as <-.
  assert (lt <= length (tables h1) /\ la <= length (arrays h1)) as [Hlt1 Hla1]
    by (destruct F1 as (? & ? & _); lia).
  destruct (pv_step lt la _ _ _ _ Hlt1 Hla1 C1 Hpv) as (F2 & C2 & Fr & _).
  split.
  - eapply (frame_trans lt la lt la); [lia|lia|exact F1|].
    eapply (frame_trans lt la lt la); [lia|lia|exact F2|]. apply frame_setItem, Hcur.
  - apply closed_from_setItem; [exact C2|]. destruct v; simpl in *; auto. lia.
Qed.

Lemma parseInlinePair_frame kv t h h' lt la :
  lt <= t -> lt <= length (tables h) -> la <= length (arrays h) -> closed_from lt h ->
  parseInlinePair pv kv t h = Ok tt h' ->
  frame lt la h h' /\ closed_from lt h'.
Proof.
  intros Ht Hlt Hla Hc E. unfold parseInlinePair in E.
  destruct (isEmpty _); [injection E as <-; split; [apply frame_refl|exact Hc]|].
  destruct (_ <? _)%Z; [discriminate|].
  destruct (parseKeyParts _) as [err|parts]; [discriminate|].
  eapply (inlinePair_bind_frame parts _ t); eassumption.
Qed.

Lemma parseInline_loop_frame pairs : forall t h h' lt la,
  lt <= t -> lt <= length (tables h) -> la <= length (arrays h) -> closed_from lt h ->
  parseInline_loop pv pairs t h = Ok tt h' ->
  frame lt la h h' /\ closed_from lt h'.
Proof.
  induction pairs as [|kv pairs IH]; intros t h h' lt la Ht Hlt Hla Hc E.
  - injection E as <-. split; [apply frame_refl | exact Hc].
  - change (parseInline_loop pv (kv :: pairs) t h)
      with (let! (_, h1) := parseInlinePair pv kv t h in parseInline_loop pv pairs t h1) in E.
    apply bind_Ok in E as ([] & h1 & Hp & E).
    apply (parseInlinePair_frame _ _ _ _ lt la Ht Hlt Hla Hc) in Hp as (F1 & C1).
    apply (IH _ _ _ lt la) in E as (F2 & C2); try assumption.
    + split; [|exact C2]. eapply (frame_trans lt la lt la); [lia|lia|exact F1|exact F2].
    + destruct F1 as (? & ? & _). lia.
    + destruct F1 as (? & ? & _). lia.
Qed.

Lemma parseInlineTableToken_allocates s h n h' :
  parseInlineTableToken pv s h = Ok n h' -> allocates_only h n h'.
Proof.
  unfold parseInlineTableToken. intros E.
  destruct (_ || _); [discriminate|].
  destruct (slice _ _ _) as [inner|]; [|discriminate].
  simpl in E. apply bind_Ok in E as ([] & h1 & Hloop & E). injection E as <- <-.
  apply (parseInline_loop_frame _ _ _ _ (length (tables h)) (length (arrays h))) in Hloop
    as (F & C); simpl; rewrite ?length_app; simpl; try lia.
  - split; [|split; [simpl; lia | exact C]].
    eapply (frame_trans _ _ (length (tables h)) (length (arrays h))); [lia|lia| |exact F].
    apply (frame_NewTable _ _ h). lia.
  - apply (closed_from_NewTable _ h), closed_from_length.
Qed.

Lemma parseValue_body_allocates s h n h' :
  parseValue_body pv s h = Ok n h' -> allocates_only h n h'.
Proof.
  intros E. apply parseValue_body_cases in E as [(-> & ty & v & -> & _)|[[s' E]|[s' E]]].
  - apply allocates_only_scalar.
  - eapply parseArrayToken_allocates, E.
  - eapply parseInlineTableToken_allocates, E.
Qed.

End Frame.

Lemma parseValue_fuel_allocates fuel : forall s h n h',
  parseValue_fuel fuel s h = Ok n h' -> allocates_only h n h'.
Proof.
  induction fuel as [|fuel IH]; intros s h n h' E; [discriminate|].
  simpl in E. eapply parseValue_body_allocates; [exact IH | exact E].
Qed.

Lemma parseValue_allocates s h n h' : parseValue s h = Ok n h' -> allocates_only h n h'.
Proof. apply parseValue_fuel_allocates. Qed.

Lemma parseValue_preserved s h n h' : parseValue s h = Ok n h' -> preserved h h'.
Proof. intros E. apply parseValue_allocates in E as (F & _). apply frame_preserved, F. Qed.

(** ** Literal arrays are homogeneous *)

Section Homogeneous.
Variable pv : string -> heap -> outcome heap Node.
Hypothesis pv_allocates : forall s h n h', pv s h = Ok n h' -> allocates_only h n h'.

Lemma pv_keeps_array s h v h1 arr :
  arr < length (arrays h) -> pv s h = Ok v h1 -> Elems h1 arr = Elems h arr.
Proof.
  intros Harr Hpv. apply pv_allocates in Hpv as ((_ & _ & _ & FA) & _).
  unfold Elems. apply FA, Harr.
Qed.

Lemma parseArray_loop_kinds parts : forall arr ek h h' elems,
  Elems h arr = Some elems ->
  (forall e, e ∈ elems -> ek = Some (Kind e)) ->
  parseArray_loop pv parts arr ek h = Ok tt h' ->
  exists elems',
    Elems h' arr = Some elems' /\ elems `prefix_of` elems' /\ homogeneous elems'.
Proof.
  induction parts as [|part parts IH]; intros arr ek h h' elems Harr Hek E.
  - injection E as <-. exists elems. split; [exact Harr|]. split; [reflexivity|].
    intros e1 e2 H1 H2. apply Hek in H1, H2. congruence.
  - rewrite parseArray_loop_cons in E.
    destruct (isEmpty (strings.TrimSpace part)); [eapply IH; eassumption|].
    apply bind_Ok in E as (v & h1 & Hpv & E).
    assert (Elems h1 arr = Some elems) as Harr1.
    { rewrite (pv_keeps_array _ _ _ _ _ (lookup_lt_Some _ _ _ Harr) Hpv). exact Harr. }
    rewrite Harr1 in E.
    assert (forall ek', (forall e, e ∈ elems ++ [v] -> ek' = Some (Kind e)) ->
              parseArray_loop pv parts arr ek' (appendElem h1 arr v) = Ok tt h' ->
              exists elems', Elems h' arr = Some elems' /\ elems `prefix_of` elems'
                             /\ homogeneous elems') as Hnext.
    { intros ek' Hek' E'.
      eapply IH in E' as (elems' & Ha & Hpre & Hh); [| |exact Hek'].
      - exists elems'. split; [exact Ha|]. split; [|exact Hh].
        etrans; [|exact Hpre]. apply prefix_app_r. reflexivity.
      - apply lookup_appendElem_eq, Harr1. }
    destruct (length elems =? 0)%nat eqn:Hlen.
    + apply Nat.eqb_eq, nil_length_inv in Hlen. subst elems.
      eapply Hnext; [|exact E].
      intros e He. apply list_elem_of_singleton in He. congruence.
    + destruct (bool_decide (Some (Kind v) = ek)) eqn:Hk; [|discriminate].
      apply bool_decide_eq_true_1 in Hk. eapply Hnext; [|exact E].
      intros e He. apply elem_of_app in He as [He|He]; [apply Hek, He|].
      apply list_elem_of_singleton in He. congruence.
Qed.

Lemma parseArrayToken_homogeneous s h n h' :
  parseArrayToken pv s h = Ok n h' ->
  exists a elems, n = NArray a /\ Elems h' a = Some elems /\ homogeneous elems.
Proof.
  unfold parseArrayToken. intros E.
  destruct (negb (strings.HasPrefix _ "[")); [discriminate|].
  destruct (slice _ _ _) as [content|]; [|discriminate].
  simpl in E. apply bind_Ok in E as ([] & h1 & Hloop & E). injection E as <- <-.
  eapply parseArray_loop_kinds in Hloop as (elems & Ha & _ & Hh).
  - eauto.
  - unfold Elems. simpl. apply list_lookup_middle. reflexivity.
  - intros e He. apply elem_of_nil in He as [].
Qed.


End Homogeneous.

Lemma parseInlineTableToken_is_table pv s h n h' :
  parseInlineTableToken pv s h = Ok n h' -> exists t, n = NTable t.
Proof.
  unfold parseInlineTableToken. intros E.
  destruct (_ || _); [discriminate|].
  destruct (slice _ _ _); [|discriminate].
  simpl in E. apply bind_Ok in E as ([] & h1 & _ & E). injection E as <- <-. eauto.
Qed.


(** ** The tree builder: paths through existing bindings *)

Lemma splitLast_snoc front last : splitLast (front ++ [last]) = Some (front, last).
Proof. unfold splitLast. rewrite rev_app_distr. simpl. rewrite rev_involutive. reflexivity. Qed.

Lemma splitLast_Some parts front last :
  splitLast parts = Some (front, last) -> parts = front ++ [last].
Proof.
  unfold splitLast. destruct (rev parts) as [|x l] eqn:E; [discriminate|].
  intros [= <- <-]. rewrite <- (rev_involutive parts), E. reflexivity.
Qed.


Lemma walk_blocked e pre part rest t h t1 h1 items n :
  walk e pre t h = Ok t1 h1 ->
  Items h1 t1 = Some items -> items !! part = Some n -> Kind n <> ValueTable ->
  walk e (pre ++ part :: rest) t h = Err (e part) h1.
Proof.
  intros Hpre Ht Hn Hk. rewrite walk_app, Hpre. simpl.
  eapply walk_not_table; eassumption.
Qed.

Lemma walk_passes e pre part rest t h t1 h1 items n t' h' :
  walk e pre t h = Ok t1 h1 ->
  Items h1 t1 = Some items -> items !! part = Some n ->
  walk e (pre ++ part :: rest) t h = Ok t' h' -> exists t2, n = NTable t2.
Proof.
  intros Hpre Ht Hn. rewrite walk_app, Hpre. simpl.
  eapply walk_through_table; eassumption.
Qed.

Lemma on_store_Ok {A} p (c : outcome heap A) a p' :
  on_store p c = Ok a p' -> exists h, c = Ok a h /\ p' = with_store p h.
Proof. destruct c; simpl; intros E; try discriminate. injection E as <- <-. eauto. Qed.

Section Paths.
Variables (p : parser) (pre : list string) (part : string) (rest : list string).
Variables (t1 : addr) (h1 : heap) (items : gmap string Node) (n : Node).
Hypothesis binding : Items h1 t1 = Some items /\ items !! part = Some n.

(** Headers walk from the root. *)
Section FromRoot.
Hypothesis reached : walk (notTable p) pre (root p) (store p) = Ok t1 h1.

Lemma tableHeader_plain_blocked :
  Kind n <> ValueTable ->
  tableHeader_plain (pre ++ part :: rest) p
  = Err (errf p (KeyNotTable part)) (with_store p h1).
Proof.
  intros Hk. destruct binding as [Ht Hn]. unfold tableHeader_plain.
  rewrite (walk_blocked _ _ _ _ _ _ _ _ _ _ reached Ht Hn Hk). reflexivity.
Qed.

Lemma tableHeader_plain_passes p' :
  tableHeader_plain (pre ++ part :: rest) p = Ok tt p' -> exists t2, n = NTable t2.
Proof.
  destruct binding as [Ht Hn]. unfold tableHeader_plain. intros E.
  apply bind_Ok in E as (t & p1 & E & _). apply on_store_Ok in E as (h & E & _).
  exact (walk_passes _ _ _ _ _ _ _ _ _ _ _ _ reached Ht Hn E).
Qed.

Lemma tableHeader_array_blocked last :
  Kind n <> ValueTable ->
  tableHeader_array ((pre ++ part :: rest) ++ [last]) p
  = Err (errf p (KeyNotTable part)) (with_store p h1).
Proof.
  intros Hk. destruct binding as [Ht Hn]. unfold tableHeader_array.
  rewrite splitLast_snoc.
  rewrite (walk_blocked _ _ _ _ _ _ _ _ _ _ reached Ht Hn Hk). reflexivity.
Qed.

Lemma tableHeader_array_passes last p' :
  tableHeader_array ((pre ++ part :: rest) ++ [last]) p = Ok tt p' ->
  exists t2, n = NTable t2.
Proof.
  destruct binding as [Ht Hn]. unfold tableHeader_array. rewrite splitLast_snoc.
  intros E. apply bind_Ok in E as (t & p1 & E & _). apply on_store_Ok in E as (h & E & _).
  exact (walk_passes _ _ _ _ _ _ _ _ _ _ _ _ reached Ht Hn E).
Qed.

(** The last segment of an array-of-tables header, reached after
    the walk over [pre]: here [part] is that segment. *)
Lemma tableHeader_array_not_array :
  Kind n <> ValueArray ->
  tableHeader_array (pre ++ [part]) p
  = Err (errf p (KeyNotArray part)) (with_store p h1).
Proof.
  intros Hk. destruct binding as [Ht Hn]. unfold tableHeader_array.
  rewrite splitLast_snoc, reached. simpl. rewrite Ht, Hn.
  rewrite bool_decide_eq_false_2 by exact Hk. reflexivity.
Qed.

Lemma tableHeader_array_extends p' :
  tableHeader_array (pre ++ [part]) p = Ok tt p' -> exists a, n = NArray a.
Proof.
  destruct binding as [Ht Hn]. unfold tableHeader_array.
  rewrite splitLast_snoc, reached. simpl. rewrite Ht, Hn.
  destruct (negb (bool_decide (Kind n = ValueArray))); [discriminate|].
  destruct n; try discriminate. eauto.
Qed.

(** The array is extended by one new empty table, which becomes
    the current table. *)
Lemma tableHeader_array_append a elems :
  n = NArray a -> Elems h1 a = Some elems ->
  exists p',
    tableHeader_array (pre ++ [part]) p = Ok tt p'
    /\ cur p' = length (tables h1)
    /\ root p' = root p
    /\ Items (store p') (cur p') = Some ∅
    /\ Elems (store p') a = Some (elems ++ [NTable (cur p')])
    /\ Items (store p') t1 = Some items.
Proof.
  intros -> Ha. destruct binding as [Ht Hn]. unfold tableHeader_array.
  rewrite splitLast_snoc, reached. simpl. rewrite Ht, Hn. simpl.
  eexists. split; [reflexivity|]. simpl. unfold Items, Elems in *.
  rewrite tables_appendElem. simpl.
  split; [reflexivity|]. split; [reflexivity|].
  split; [apply list_lookup_middle; reflexivity|].
  split; [apply lookup_appendElem_eq; exact Ha|].
  apply lookup_app_l_Some, Ht.
Qed.

End FromRoot.

(** Key/value lines walk from the current table. *)
Section FromCur.
Hypothesis reached : walk (notTable p) pre (cur p) (store p) = Ok t1 h1.

Lemma keyValue_bind_blocked last val :
  Kind n <> ValueTable ->
  keyValue_bind ((pre ++ part :: rest) ++ [last]) val p
  = Err (errf p (KeyNotTable part)) (with_store p h1).
Proof.
  intros Hk. destruct binding as [Ht Hn]. unfold keyValue_bind.
  rewrite splitLast_snoc.
  rewrite (walk_blocked _ _ _ _ _ _ _ _ _ _ reached Ht Hn Hk). reflexivity.
Qed.

Lemma keyValue_bind_passes last val p' :
  keyValue_bind ((pre ++ part :: rest) ++ [last]) val p = Ok tt p' ->
  exists t2, n = NTable t2.
Proof.
  destruct binding as [Ht Hn]. unfold keyValue_bind. rewrite splitLast_snoc.
  intros E. apply bind_Ok in E as (t & p1 & E & _). apply on_store_Ok in E as (h & E & _).
  exact (walk_passes _ _ _ _ _ _ _ _ _ _ _ _ reached Ht Hn E).
Qed.

(** The last segment of a key, reached after the walk over
    [pre]: here [part] is that segment, and it is bound. *)
Lemma keyValue_bind_duplicate val :
  keyValue_bind (pre ++ [part]) val p
  = Err (errf p (DuplicateKey part)) (with_store p h1).
Proof.
  destruct binding as [Ht Hn]. unfold keyValue_bind.
  rewrite splitLast_snoc, reached. simpl. unfold hasItem. rewrite Ht.
  rewrite bool_decide_eq_true_2 by (rewrite Hn; eauto). reflexivity.
Qed.

End FromCur.

End Paths.

(** An array-of-tables header whose last segment is not bound. *)
Lemma tableHeader_array_new p front last parent h1 items :
  walk (notTable p) front (root p) (store p) = Ok parent h1 ->
  Items h1 parent = Some items -> items !! last = None ->
  exists p',
    tableHeader_array (front ++ [last]) p = Ok tt p'
    /\ cur p' = length (tables h1)
    /\ root p' = root p
    /\ Items (store p') (cur p') = Some ∅
    /\ Items (store p') parent = Some (<[last := NArray (length (arrays h1))]> items)
    /\ Elems (store p') (length (arrays h1)) = Some [NTable (cur p')].
Proof.
  intros Hw Ht Hn. unfold tableHeader_array.
  rewrite splitLast_snoc, Hw. simpl. rewrite Ht, Hn. simpl.
  eexists. split; [reflexivity|]. simpl. unfold Items, Elems in *.
  rewrite tables_appendElem. simpl.
  assert (tables (setItem (NewArray h1).2 parent last (NArray (length (arrays h1)))) !! parent
          = Some (<[last := NArray (length (arrays h1))]> items)) as Hp
    by (apply lookup_setItem_eq; exact Ht).
  assert (length (tables (setItem (NewArray h1).2 parent last (NArray (length (arrays h1)))))
          = length (tables h1)) as Hlen by (rewrite length_tables_setItem; reflexivity).
  simpl in Hp, Hlen. rewrite Hlen.
  split; [reflexivity|]. split; [reflexivity|].
  split; [rewrite <- Hlen; apply list_lookup_middle; reflexivity|].
  split; [apply lookup_app_l_Some, Hp|].
  rewrite (lookup_appendElem_eq _ _ _ []); [reflexivity|].
  simpl. rewrite arrays_setItem. simpl. apply list_lookup_middle. reflexivity.
Qed.

(** The inline-table pair whose last segment is bound in the table
    the walk reached. *)
Lemma inlinePair_bind_duplicate pv front last val t h t1 h1 items n :
  walk (fun _ => errors_New "inline table path conflict") front t h = Ok t1 h1 ->
  Items h1 t1 = Some items -> items !! last = Some n ->
  inlinePair_bind pv (front ++ [last]) val t h
  = Err (errors_New "duplicate inline table key") h1.
Proof.
  intros Hw Ht Hn. unfold inlinePair_bind.
  rewrite splitLast_snoc, Hw. simpl. unfold hasItem. rewrite Ht.
  rewrite bool_decide_eq_true_2 by (rewrite Hn; eauto). reflexivity.
Qed.

(** ** Line numbers *)

Lemma pulled_lines_0 p : pulled_lines 0 p p.
Proof. exists []. simpl. repeat split; auto. Qed.

Lemma pulled_lines_same k p p1 p2 :
  pulled_lines k p p1 -> scanner p2 = scanner p1 -> lineNo p2 = lineNo p1 ->
  pulled_lines k p p2.
Proof.
  intros (pulled & Hl & Hp & Hf & Hn) Hs Hno. exists pulled.
  rewrite Hs, Hno. auto.
Qed.

Lemma pulled_lines_trans k1 k2 p1 p2 p3 :
  pulled_lines k1 p1 p2 -> pulled_lines k2 p2 p3 -> pulled_lines (k1 + k2) p1 p3.
Proof.
  intros (l1 & Hl1 & Hp1 & Hf1 & Hn1) (l2 & Hl2 & Hp2 & Hf2 & Hn2).
  exists (l1 ++ l2). rewrite length_app, <- app_assoc, <- Hp2, <- Hp1.
  repeat split; try congruence; lia.
Qed.

Lemma pullTriple_pulled delim msg initial lines : forall b p,
  lines = pending (scanner p) ->
  ends_in (pullTriple delim msg initial b lines p)
    (fun p' => (exists k, pulled_lines k p p') /\ store p' = store p /\ cur p' = cur p).
Proof.
  induction lines as [|line lines IH]; intros b p Hlines; simpl.
  - split; [exists 0; apply pulled_lines_0 | auto].
  - set (p1 := MkParser _ _ _ _ _).
    assert (pulled_lines 1 p p1) as H1.
    { exists [line]. simpl. repeat split; auto. lia. }
    destruct (strings.Contains _ _).
    + simpl. split; [eauto | auto].
    + specialize (IH (WriteString (WriteString b (str1 Ch.nl)) line) p1 eq_refl).
      destruct (pullTriple _ _ _ _ _ _); simpl in *; auto;
        destruct IH as ([k Hk] & Hs & Hc); (split; [|auto]);
        exists (1 + k); eapply pulled_lines_trans; eassumption.
Qed.

Lemma pullCompound_pulled lines : forall b depth q p,
  lines = pending (scanner p) ->
  ends_in (pullCompound b depth q lines p)
    (fun p' => (exists k, pulled_lines k p p') /\ store p' = store p /\ cur p' = cur p).
Proof.
  induction lines as [|line lines IH]; intros b depth q p Hlines; simpl.
  - destruct (depth <=? 0)%Z; simpl; (split; [exists 0; apply pulled_lines_0 | auto]).
  - destruct (depth <=? 0)%Z; simpl; [split; [exists 0; apply pulled_lines_0 | auto]|].
    set (p1 := MkParser _ _ _ _ _).
    assert (pulled_lines 1 p p1) as H1.
    { exists [line]. simpl. repeat split; auto. lia. }
    destruct (scanDepth line depth q) as [depth' q'].
    specialize (IH (WriteString (WriteString b (str1 Ch.nl)) line) depth' q' p1 eq_refl).
    destruct (pullCompound _ _ _ _ _); simpl in *; auto;
      destruct IH as ([k Hk] & Hs & Hc); (split; [|auto]);
      exists (1 + k); eapply pulled_lines_trans; eassumption.
Qed.

Lemma consumeValue_pulled initial p :
  ends_in (consumeValue initial p)
    (fun p' => (exists k, pulled_lines k p p') /\ store p' = store p /\ cur p' = cur p).
Proof.
  unfold consumeValue.
  destruct (isEmpty _); [simpl; split; [exists 0; apply pulled_lines_0 | auto]|].
  destruct (_ && _); [apply pullTriple_pulled; reflexivity|].
  destruct (_ && _); [apply pullTriple_pulled; reflexivity|].
  destruct (_ || _).
  - destruct (scanDepth _ _ _). apply pullCompound_pulled. reflexivity.
  - simpl. split; [exists 0; apply pulled_lines_0 | auto].
Qed.

Lemma on_store_cases {A} p (c : outcome heap A) :
  match on_store p c with
  | Ok _ p' | Err _ p' => scanner p' = scanner p /\ lineNo p' = lineNo p /\ cur p' = cur p
  | _ => True
  end.
Proof. destruct c; simpl; auto. Qed.

Lemma walk_error e parts : forall t h err h',
  walk e parts t h = Err err h' -> exists part, err = e part.
Proof.
  induction parts as [|part rest IH]; intros t h err h' E; [discriminate|].
  rewrite walk_cons in E.
  destruct (Items h t) as [items|]; [|discriminate].
  destruct (items !! part) as [n|]; [|eapply IH, E].
  destruct (negb (bool_decide (Kind n = ValueTable))); [injection E as <- <-; eauto|].
  destruct n; try discriminate. eapply IH, E.
Qed.

(** The walk of a header or of a key: it reads no line, and its
    error is annotated with the line counter. *)
Lemma walk_lines parts t p :
  ends_in (on_store p (walk (notTable p) parts t (store p)))
    (fun p' => pulled_lines 0 p p' /\ cur p' = cur p)
  /\ annotated_at_end (on_store p (walk (notTable p) parts t (store p))).
Proof.
  destruct (walk (notTable p) parts t (store p)) as [t' h'|e h'| |] eqn:W; simpl; auto.
  - split; [|exact I]. split; [|reflexivity]. exists []. simpl. auto.
  - split; [split; [exists []; simpl; auto | reflexivity]|].
    apply walk_error in W as [part ->]. unfold notTable, errf. eauto.
Qed.

Lemma keyValue_bind_lines parts val p :
  ends_in (keyValue_bind parts val p) (fun p' => exists k, pulled_lines k p p')
  /\ annotated_at_end (keyValue_bind parts val p).
Proof.
  unfold keyValue_bind.
  destruct (splitLast parts) as [[front last]|]; [|simpl; auto].
  destruct (walk_lines front (cur p) p) as [Hw Ha].
  destruct (on_store p _) as [t p1|e p1| |]; simpl in *; eauto.
  - destruct Hw as [H0 _].
    destruct (hasItem (store p1) t last) as [[]|]; simpl; eauto.
    pose proof (consumeValue_pulled val p1) as Hc.
    destruct (consumeValue val p1) as [fullVal p2|e p2| |]; simpl in *; auto.
    + destruct Hc as ([k Hk] & _).
      assert (pulled_lines k p p2) as Hk2 by apply (pulled_lines_trans 0 k _ _ _ H0 Hk).
      destruct (parseValue fullVal (store p2)); simpl.
      * split; [|exact I]. exists k. eapply pulled_lines_same; [exact Hk2| |]; reflexivity.
      * split; [eauto | unfold errf; eauto].
      * auto.
      * auto.
    + destruct Hc as ([k Hk] & _). split; [|unfold errf; eauto].
      exists k. apply (pulled_lines_trans 0 k _ _ _ H0 Hk).
  - destruct Hw as [H0 _]. eauto.
Qed.

Lemma tableHeader_plain_lines parts p :
  ends_in (tableHeader_plain parts p) (fun p' => exists k, pulled_lines k p p')
  /\ annotated_at_end (tableHeader_plain parts p).
Proof.
  unfold tableHeader_plain.
  destruct (walk_lines parts (root p) p) as [Hw Ha].
  destruct (on_store p _) as [t p1|e p1| |]; simpl in *; eauto.
  - destruct Hw as [H0 _]. split; [|exact I].
    exists 0. eapply pulled_lines_same; [exact H0| |]; reflexivity.
  - destruct Hw as [H0 _]. eauto.
Qed.

Lemma tableHeader_array_lines parts p :
  ends_in (tableHeader_array parts p) (fun p' => exists k, pulled_lines k p p')
  /\ annotated_at_end (tableHeader_array parts p).
Proof.
  unfold tableHeader_array.
  destruct (splitLast parts) as [[front last]|]; [|simpl; auto].
  destruct (walk_lines front (root p) p) as [Hw Ha].
  destruct (on_store p _) as [parent p1|e p1| |]; simpl in *; eauto.
  - destruct Hw as [H0 _].
    destruct (Items (store p1) parent) as [items|]; simpl; auto.
    destruct (items !! last) as [existing|]; simpl.
    + destruct (negb (bool_decide (Kind existing = ValueArray))); simpl; [eauto|].
      destruct existing; simpl; auto. split; [|exact I].
      exists 0. eapply pulled_lines_same; [exact H0| |]; reflexivity.
    + split; [|exact I].
      exists 0. eapply pulled_lines_same; [exact H0| |]; reflexivity.
  - destruct Hw as [H0 _]. eauto.
Qed.

Lemma parseTableHeader_lines line p :
  ends_in (parseTableHeader line p) (fun p' => exists k, pulled_lines k p p')
  /\ annotated_at_end (parseTableHeader line p).
Proof.
  unfold parseTableHeader.
  destruct (_ && _); [simpl; split; [exists 0; apply pulled_lines_0 | unfold errf; eauto]|].
  destruct (_ && _); [simpl; split; [exists 0; apply pulled_lines_0 | unfold errf; eauto]|].
  destruct (slice _ _ _); [|simpl; auto].
  destruct (parseKeyParts _);
    [simpl; split; [exists 0; apply pulled_lines_0 | unfold errf; eauto]|].
  destruct (negb _); [apply tableHeader_plain_lines | apply tableHeader_array_lines].
Qed.

Lemma parseKeyValue_lines line idx p :
  ends_in (parseKeyValue line idx p) (fun p' => exists k, pulled_lines k p p')
  /\ annotated_at_end (parseKeyValue line idx p).
Proof.
  unfold parseKeyValue.
  destruct (parseKeyParts _);
    [simpl; split; [exists 0; apply pulled_lines_0 | unfold errf; eauto]|].
  apply keyValue_bind_lines.
Qed.

(** Every error of one turn of the loop of [Parse] carries the line
    counter as it is when the error is found: the number of the line
    the turn began with, plus the number of lines [consumeValue]
    read after it. *)
Lemma parseLine_lines text p :
  ends_in (parseLine text p) (fun p' => exists k, pulled_lines k p p')
  /\ annotated_at_end (parseLine text p).
Proof.
  unfold parseLine.
  destruct (_ || _); [simpl; split; [exists 0; apply pulled_lines_0 | exact I]|].
  destruct (strings.HasPrefix _ "["); [apply parseTableHeader_lines|].
  destruct (_ <? _)%Z; [simpl; split; [exists 0; apply pulled_lines_0 | unfold errf; eauto]|].
  apply parseKeyValue_lines.
Qed.

(** ** Bindings are never replaced *)

Lemma hasItem_false h t k :
  hasItem h t k = Some false -> exists items, Items h t = Some items /\ items !! k = None.
Proof.
  unfold hasItem. destruct (Items h t) as [items|]; [|discriminate].
  intros [= Hb]. exists items. split; [reflexivity|].
  apply bool_decide_eq_false_1 in Hb. destruct (items !! k); [|reflexivity].
  exfalso. apply Hb. eauto.
Qed.

Lemma allocates_keeps_table h n h' t items :
  allocates_only h n h' -> Items h t = Some items -> Items h' t = Some items.
Proof.
  intros ((_ & _ & FT & _) & _) Ht. unfold Items in *.
  rewrite FT; [exact Ht | eapply lookup_lt_Some, Ht].
Qed.

Lemma inlinePair_bind_preserved pv parts val t h h' :
  (forall s h n h', pv s h = Ok n h' -> allocates_only h n h') ->
  inlinePair_bind pv parts val t h = Ok tt h' -> preserved h h'.
Proof.
  intros Hpv E. unfold inlinePair_bind in E.
  destruct (splitLast parts) as [[front last]|]; [|discriminate].
  apply bind_Ok in E as (cur & h1 & Hw & E). apply walk_preserved in Hw.
  destruct (hasItem h1 cur last) as [[]|] eqn:Hhas; try discriminate.
  apply hasItem_false in Hhas as (items & Hit & Hk).
  apply bind_Ok in E as (v & h2 & Hv & E). injection E as <-.
  apply Hpv in Hv.
  eapply preserved_trans; [exact Hw|].
  eapply preserved_trans; [apply frame_preserved, Hv|].
  eapply preserved_setItem; [|exact Hk].
  eapply allocates_keeps_table; eassumption.
Qed.

Lemma consumeValue_store initial p s p' :
  consumeValue initial p = Ok s p' -> store p' = store p.
Proof.
  intros E. pose proof (consumeValue_pulled initial p) as H. rewrite E in H.
  simpl in H. tauto.
Qed.

Lemma keyValue_bind_preserved parts val p p' :
  keyValue_bind parts val p = Ok tt p' -> preserved (store p) (store p').
Proof.
  intros E. unfold keyValue_bind in E.
  destruct (splitLast parts) as [[front last]|]; [|discriminate].
  apply bind_Ok in E as (t & p1 & Hw & E).
  apply on_store_Ok in Hw as (h1 & Hw & ->). apply walk_preserved in Hw.
  simpl in E.
  destruct (hasItem h1 t last) as [[]|] eqn:Hhas; try discriminate.
  apply hasItem_false in Hhas as (items & Hit & Hk).
  destruct (consumeValue val _) as [fullVal p2|e p2| |] eqn:Hc; try discriminate.
  apply consumeValue_store in Hc. simpl in Hc.
  destruct (parseValue fullVal (store p2)) as [v h2|e h2| |] eqn:Hv; try discriminate.
  injection E as <-. simpl. rewrite Hc in Hv. apply parseValue_allocates in Hv.
  eapply preserved_trans; [exact Hw|].
  eapply preserved_trans; [apply frame_preserved, Hv|].
  eapply preserved_setItem; [|exact Hk].
  eapply allocates_keeps_table; eassumption.
Qed.

(** ** The loop of [Parse] *)

Lemma scanLine_pulled p text p1 :
  scanLine p = Some (text, p1) ->
  pulled_lines 1 p p1 /\ pending (scanner p) = text :: pending (scanner p1).
Proof.
  unfold scanLine. destruct (pending (scanner p)) as [|line rest] eqn:E; [discriminate|].
  intros [= <- <-]. simpl. split; [|reflexivity].
  exists [line]. simpl. repeat split; auto. lia.
Qed.

(** An error of [Parse] other than the error of the scanner comes
    from one turn of the loop: the turn that began with the line
    [text], read as line number [lineNo p1] of the input. *)
Lemma Parse_loop_error fuel : forall p e p',
  Parse_loop fuel p = Err e p' ->
  e = ErrTooLong
  \/ exists k0 p0 text p1,
       pulled_lines k0 p p0 /\ scanLine p0 = Some (text, p1)
       /\ parseLine text p1 = Err e p'.
Proof.
  induction fuel as [|fuel IH]; intros p e p' E; [discriminate|].
  simpl in E. destruct (scanLine p) as [[text p1]|] eqn:Hs.
  - destruct (parseLine text p1) as [[] p2|e2 p2| |] eqn:Hl; try discriminate.
    + simpl in E. apply IH in E as [->|(k0 & p0 & text0 & p3 & Hk & Hs0 & Hl0)]; [auto|].
      right. destruct (parseLine_lines text p1) as [Hend _]. rewrite Hl in Hend.
      destruct Hend as [k Hk2]. apply scanLine_pulled in Hs as [H1 _].
      exists (1 + k + k0), p0, text0, p3. split; [|auto].
      eapply pulled_lines_trans; [|exact Hk]. eapply pulled_lines_trans; eassumption.
    + simpl in E. injection E as <- <-. right.
      exists 0, p, text, p1. split; [apply pulled_lines_0 | auto].
  - destruct (failed (scanner p)); [|discriminate]. injection E as <- <-. auto.
Qed.

(** ** Lengths: the strings [parseValue] calls itself on are shorter *)

Lemma length_app_string a b : String.length (a +:+ b) = String.length a + String.length b.
Proof. induction a as [|c a IH]; simpl; [reflexivity | rewrite IH; reflexivity]. Qed.

Lemma length_WriteByte b c : String.length (WriteByte b c) = S (String.length b).
Proof. unfold WriteByte. rewrite length_app_string. simpl. lia. Qed.

Lemma length_WriteString b t :
  String.length (WriteString b t) = String.length b + String.length t.
Proof. apply length_app_string. Qed.

Lemma length_list_ascii_of_string s : length (list_ascii_of_string s) = String.length s.
Proof. induction s as [|c s IH]; simpl; [reflexivity | rewrite IH; reflexivity]. Qed.

Lemma length_string_of_list_ascii l : String.length (string_of_list_ascii l) = length l.
Proof. induction l as [|c l IH]; simpl; [reflexivity | rewrite IH; reflexivity]. Qed.

Lemma TrimLeftSpace_length n : forall l,
  length l <= n -> length (strings.TrimLeftSpace l) <= length l.
Proof.
  induction n as [|n IH]; intros l Hn; destruct l as [|c1 l1]; simpl in *; try lia.
  repeat case_match; subst; simpl in *; try lia;
    (etrans; [apply IH; simpl; lia | simpl; lia]).
Qed.

Lemma TrimRightSpace_rev_length n : forall l,
  length l <= n -> length (strings.TrimRightSpace_rev l) <= length l.
Proof.
  induction n as [|n IH]; intros l Hn; destruct l as [|c1 l1]; simpl in *; try lia.
  repeat case_match; subst; simpl in *; try lia;
    (etrans; [apply IH; simpl; lia | simpl; lia]).
Qed.

Lemma TrimSpace_length s : String.length (strings.TrimSpace s) <= String.length s.
Proof.
  unfold strings.TrimSpace.
  rewrite length_string_of_list_ascii, length_rev.
  etrans; [eapply TrimRightSpace_rev_length; reflexivity|].
  rewrite length_rev.
  etrans; [eapply TrimLeftSpace_length; reflexivity|].
  rewrite length_list_ascii_of_string. reflexivity.
Qed.

Lemma take_length n : forall s, String.length (strings.take n s) <= String.length s.
Proof. induction n as [|n IH]; intros [|c s]; simpl; try lia. specialize (IH s). lia. Qed.

Lemma take_length_le n : forall s, String.length (strings.take n s) <= n.
Proof. induction n as [|n IH]; intros [|c s]; simpl; try lia. specialize (IH s). lia. Qed.

Lemma drop_length n : forall s, String.length (strings.drop n s) <= String.length s.
Proof. induction n as [|n IH]; intros [|c s]; simpl; try lia. specialize (IH s). lia. Qed.

Lemma slice_inner_length s r :
  slice s 1 (Z.of_nat (len s) - 1) = Some r -> String.length r + 2 <= String.length s.
Proof.
  unfold slice, len. destruct (_ && _) eqn:E; [|discriminate]. intros [= <-].
  apply andb_true_iff in E as [E _]. apply andb_true_iff in E as [_ E].
  apply Z.leb_le in E.
  match goal with
  | |- context [strings.take ?k ?t] => pose proof (take_length_le k t)
  end. lia.
Qed.

Lemma stripComment_loop_length n : forall s q b,
  String.length s <= n ->
  String.length (stripComment_loop s q b) <= String.length b + String.length s.
Proof.
  induction n as [|n IH]; intros s q b Hn; destruct s as [|ch s1]; simpl in Hn; try lia;
    [simpl; lia | simpl; lia |].
  cbn -[triple_at WriteByte WriteString String.length].
  repeat case_match; subst; simpl in *; try lia;
    first
      [ rewrite ?length_WriteByte, ?length_WriteString, ?length_WriteByte; simpl; lia
      | etrans; [apply IH; simpl in *; lia
                | rewrite ?length_WriteByte, ?length_WriteString, ?length_WriteByte;
                  simpl; lia] ].
Qed.

Lemma stripComment_length s :
  String.length (stripCommentPreserveStrings s) <= String.length s.
Proof.
  unfold stripCommentPreserveStrings.
  etrans; [eapply stripComment_loop_length; reflexivity | simpl; lia].
Qed.

Lemma splitTopLevel_loop_length N n : forall s sep parts cur dB dC q,
  String.length s <= n ->
  Forall (fun part => String.length part <= N) parts ->
  String.length cur + String.length s <= N ->
  Forall (fun part => String.length part <= N)
    (splitTopLevel_loop s sep parts cur dB dC q).
Proof.
  assert (forall parts cur, Forall (fun part => String.length part <= N) parts ->
            String.length cur <= N ->
            Forall (fun part => String.length part <= N) (parts ++ [strings.TrimSpace cur]))
    as Hadd.
  { intros parts cur Hp Hc. apply Forall_app. split; [exact Hp|].
    constructor; [|constructor]. etrans; [apply TrimSpace_length | exact Hc]. }
  induction n as [|n IH]; intros s sep parts cur dB dC q Hn Hp Hc;
    destruct s as [|ch s1]; simpl in Hn; try lia.
  - simpl. unfold len. destruct (0 <? _)%nat; [apply Hadd; [exact Hp | simpl in Hc; lia] | exact Hp].
  - simpl. unfold len. destruct (0 <? _)%nat; [apply Hadd; [exact Hp | simpl in Hc; lia] | exact Hp].
  - cbn -[triple_at WriteByte WriteString String.length len]. unfold len.
    simpl in Hc.
    repeat case_match; subst; simpl in *;
      try exact Hp;
      try (apply Hadd; [exact Hp|];
           rewrite ?length_WriteByte, ?length_WriteString, ?length_WriteByte; simpl; lia);
      (apply IH; [simpl in *; lia
                 | first [exact Hp | apply Hadd; [exact Hp | lia]]
                 | rewrite ?length_WriteByte, ?length_WriteString, ?length_WriteByte;
                   simpl in *; lia]).
Qed.

Lemma splitTopLevel_length s sep :
  Forall (fun part => String.length part <= String.length s) (splitTopLevel s sep).
Proof.
  unfold splitTopLevel. eapply splitTopLevel_loop_length; [reflexivity|constructor|simpl; lia].
Qed.

(** ** The recursion bound of [parseValue] is never reached *)

Lemma walk_total e parts : forall t h, walk e parts t h <> OutOfFuel.
Proof.
  induction parts as [|part rest IH]; intros t h; [discriminate|].
  rewrite walk_cons. repeat case_match; try discriminate; apply IH.
Qed.

Lemma inline_val_length kv idx :
  String.length (strings.TrimSpace (strings.drop idx (strings.TrimSpace kv)))
  <= String.length kv.
Proof.
  etrans; [apply TrimSpace_length|]. etrans; [apply drop_length|]. apply TrimSpace_length.
Qed.

Lemma array_parts_length s content :
  slice (strings.TrimSpace (stripCommentPreserveStrings s)) 1
    (Z.of_nat (len (strings.TrimSpace (stripCommentPreserveStrings s))) - 1) = Some content ->
  Forall (fun part => String.length part < String.length s)
    (splitTopLevel (strings.TrimSpace content) Ch.comma).
Proof.
  intros Hs. apply slice_inner_length in Hs.
  pose proof (TrimSpace_length (stripCommentPreserveStrings s)).
  pose proof (stripComment_length s). pose proof (TrimSpace_length content).
  eapply Forall_impl; [apply splitTopLevel_length|]. simpl. intros part Hp. lia.
Qed.

Section FuelExt.
Variables pv1 pv2 : string -> heap -> outcome heap Node.
Variable M : nat.
Hypothesis agree : forall s h, String.length s < M -> pv1 s h = pv2 s h.

Lemma parseArray_loop_ext parts :
  Forall (fun part => String.length part < M) parts ->
  forall arr ek h, parseArray_loop pv1 parts arr ek h = parseArray_loop pv2 parts arr ek h.
Proof.
  induction 1 as [|part parts Hpart _ IH]; intros arr ek h; [reflexivity|].
  rewrite !parseArray_loop_cons. destruct (isEmpty _); [apply IH|].
  rewrite (agree _ _ Hpart). destruct (pv2 part h); simpl; try reflexivity.
  repeat case_match; try reflexivity; apply IH.
Qed.

Lemma parseArrayToken_ext s h :
  String.length s <= M -> parseArrayToken pv1 s h = parseArrayToken pv2 s h.
Proof.
  intros Hs. unfold parseArrayToken.
  destruct (negb _); [reflexivity|].
  destruct (slice _ _ _) as [content|] eqn:Hc; [|reflexivity].
  simpl. rewrite parseArray_loop_ext; [reflexivity|].
  eapply Forall_impl; [apply (array_parts_length _ _ Hc)|]. simpl. intros. lia.
Qed.

Lemma parseInlinePair_ext kv t h :
  String.length kv < M -> parseInlinePair pv1 kv t h = parseInlinePair pv2 kv t h.
Proof.
  intros Hkv. unfold parseInlinePair.
  destruct (isEmpty _); [reflexivity|].
  destruct (_ <? _)%Z; [reflexivity|].
  destruct (parseKeyParts _) as [err|parts]; [reflexivity|].
  unfold inlinePair_bind.
  destruct (splitLast parts) as [[front last]|]; [|reflexivity].
  destruct (walk _ front t h) as [cur h1|e h1| |]; simpl; try reflexivity.
  destruct (hasItem h1 cur last) as [[]|]; try reflexivity.
  rewrite agree; [reflexivity|].
  eapply Nat.le_lt_trans; [apply inline_val_length | exact Hkv].
Qed.

Lemma parseInline_loop_ext pairs :
  Forall (fun kv => String.length kv < M) pairs ->
  forall t h, parseInline_loop pv1 pairs t h = parseInline_loop pv2 pairs t h.
Proof.
  induction 1 as [|kv pairs Hkv _ IH]; intros t h; [reflexivity|].
  change (parseInline_loop ?pv (kv :: pairs) t h)
    with (let! (_, h1) := parseInlinePair pv kv t h in parseInline_loop pv pairs t h1).
  rewrite (parseInlinePair_ext _ _ _ Hkv).
  destruct (parseInlinePair pv2 kv t h); simpl; try reflexivity. apply IH.
Qed.

Lemma parseInlineTableToken_ext s h :
  String.length s <= M -> parseInlineTableToken pv1 s h = parseInlineTableToken pv2 s h.
Proof.
  intros Hs. unfold parseInlineTableToken.
  destruct (_ || _); [reflexivity|].
  destruct (slice _ _ _) as [content|] eqn:Hc; [|reflexivity].
  simpl. rewrite parseInline_loop_ext; [reflexivity|].
  eapply Forall_impl; [apply (array_parts_length _ _ Hc)|]. simpl. intros. lia.
Qed.

Lemma parseValue_body_ext s h :
  String.length s <= M -> parseValue_body pv1 s h = parseValue_body pv2 s h.
Proof.
  intros Hs. unfold parseValue_body.
  assert (String.length (strings.TrimSpace (stripCommentPreserveStrings s)) <= M) as Hs'.
  { etrans; [apply TrimSpace_length|]. etrans; [apply stripComment_length | exact Hs]. }
  cbv zeta.
  rewrite (parseArrayToken_ext _ h Hs'), (parseInlineTableToken_ext _ h Hs').
  reflexivity.
Qed.

End FuelExt.

Section FuelTotal.
Variable pv : string -> heap -> outcome heap Node.
Variable M : nat.
Hypothesis total : forall s h, String.length s < M -> pv s h <> OutOfFuel.

Lemma parseArray_loop_total parts :
  Forall (fun part => String.length part < M) parts ->
  forall arr ek h, parseArray_loop pv parts arr ek h <> OutOfFuel.
Proof.
  induction 1 as [|part parts Hpart _ IH]; intros arr ek h; [discriminate|].
  rewrite parseArray_loop_cons. destruct (isEmpty _); [apply IH|].
  pose proof (total part h Hpart). destruct (pv part h); simpl; try congruence.
  repeat case_match; try discriminate; apply IH.
Qed.

Lemma parseInlinePair_total kv t h :
  String.length kv < M -> parseInlinePair pv kv t h <> OutOfFuel.
Proof.
  intros Hkv. unfold parseInlinePair.
  destruct (isEmpty _); [discriminate|].
  destruct (_ <? _)%Z; [discriminate|].
  destruct (parseKeyParts _) as [err|parts]; [discriminate|].
  unfold inlinePair_bind.
  destruct (splitLast parts) as [[front last]|]; [|discriminate].
  pose proof (walk_total (fun _ => errors_New "inline table path conflict") front t h) as Hw.
  destruct (walk _ front t h) as [cur h1|e h1| |]; simpl; try congruence.
  destruct (hasItem h1 cur last) as [[]|]; try discriminate.
  match goal with
  | |- context [pv ?v ?h'] =>
      assert (pv v h' <> OutOfFuel) as Hv
        by (apply total; eapply Nat.le_lt_trans; [apply inline_val_length | exact Hkv]);
      destruct (pv v h')
  end; simpl; congruence.
Qed.

Lemma parseInline_loop_total pairs :
  Forall (fun kv => String.length kv < M) pairs ->
  forall t h, parseInline_loop pv pairs t h <> OutOfFuel.
Proof.
  induction 1 as [|kv pairs Hkv _ IH]; intros t h; [discriminate|].
  change (parseInline_loop pv (kv :: pairs) t h)
    with (let! (_, h1) := parseInlinePair pv kv t h in parseInline_loop pv pairs t h1).
  pose proof (parseInlinePair_total kv t h Hkv).
  destruct (parseInlinePair pv kv t h); simpl; [apply IH | discriminate | congruence | congruence].
Qed.

Lemma parseValue_body_total s h :
  String.length s <= M -> parseValue_body pv s h <> OutOfFuel.
Proof.
  intros Hs. unfold parseValue_body, parseArrayToken, parseInlineTableToken.
  pose proof (TrimSpace_length (stripCommentPreserveStrings s)) as Hs1.
  pose proof (stripComment_length s) as Hs2.
  repeat match goal with
         | |- context [if ?b then _ else _] => destruct b eqn:?
         | |- context [match slice ?a ?b ?c with _ => _ end] => destruct (slice a b c) eqn:?
         | |- context [match extractTripleQuoted ?a ?b with _ => _ end] =>
             destruct (extractTripleQuoted a b)
         | |- context [match extractSingleQuoted ?a ?b with _ => _ end] =>
             destruct (extractSingleQuoted a b)
         | |- context [match decodeBasicString ?a ?b with _ => _ end] =>
             destruct (decodeBasicString a b)
         | |- context [match time_Parse ?a ?b with _ => _ end] => destruct (time_Parse a b)
         | |- context [match parseLocalDateTimeVariants ?a with _ => _ end] =>
             destruct (parseLocalDateTimeVariants a)
         | |- context [match parseIntToken ?a with _ => _ end] => destruct (parseIntToken a)
         | |- context [match parseFloatToken ?a with _ => _ end] => destruct (parseFloatToken a)
         end; try discriminate; simpl.
  - match goal with
    | H : slice _ _ _ = Some _ |- _ => apply array_parts_length in H
    end.
    match goal with
    | |- context [parseArray_loop pv ?ps ?a ?e ?h'] =>
        assert (parseArray_loop pv ps a e h' <> OutOfFuel) as Hl
          by (apply parseArray_loop_total; eapply Forall_impl; [eassumption|];
              simpl; intros; lia);
        destruct (parseArray_loop pv ps a e h')
    end; simpl; congruence.
  - match goal with
    | H : slice _ _ _ = Some _ |- _ => apply array_parts_length in H
    end.
    match goal with
    | |- context [parseInline_loop pv ?ps ?t ?h'] =>
        assert (parseInline_loop pv ps t h' <> OutOfFuel) as Hl
          by (apply parseInline_loop_total; eapply Forall_impl; [eassumption|];
              simpl; intros; lia);
        destruct (parseInline_loop pv ps t h')
    end; simpl; congruence.
Qed.

End FuelTotal.

Lemma parseValue_fuel_irrelevant f1 : forall f2 s h,
  String.length s < f1 -> String.length s < f2 ->
  parseValue_fuel f1 s h = parseValue_fuel f2 s h.
Proof.
  induction f1 as [|f1 IH]; intros f2 s h H1 H2; [lia|].
  destruct f2 as [|f2]; [lia|]. simpl.
  apply (parseValue_body_ext _ _ (String.length s)); [|reflexivity].
  intros s' h' Hs'. apply IH; lia.
Qed.

Lemma parseValue_fuel_enough fuel s h :
  String.length s < fuel -> parseValue_fuel fuel s h = parseValue s h.
Proof. intros Hf. apply parseValue_fuel_irrelevant; [exact Hf | unfold len; lia]. Qed.

(** [parseValue] satisfies the equation of the source function. *)
Lemma parseValue_unfold s h : parseValue s h = parseValue_body parseValue s h.
Proof.
  unfold parseValue at 1. simpl.
  apply (parseValue_body_ext _ _ (String.length s)); [|reflexivity].
  intros s' h' Hs'. apply parseValue_fuel_enough. exact Hs'.
Qed.

Lemma parseValue_fuel_total fuel : forall s h,
  String.length s < fuel -> parseValue_fuel fuel s h <> OutOfFuel.
Proof.
  induction fuel as [|fuel IH]; intros s h Hf; [lia|]. simpl.
  apply (parseValue_body_total _ (String.length s)); [|reflexivity].
  intros s' h' Hs'. apply IH. lia.
Qed.

Lemma parseValue_total s h : parseValue s h <> OutOfFuel.
Proof. apply parseValue_fuel_total. unfold len. lia. Qed.

Lemma pullTriple_total delim msg initial lines : forall b p,
  pullTriple delim msg initial b lines p <> OutOfFuel.
Proof.
  induction lines as [|line lines IH]; intros b p; simpl; [discriminate|].
  destruct (strings.Contains _ _); [discriminate | apply IH].
Qed.

Lemma pullCompound_total lines : forall b depth q p,
  pullCompound b depth q lines p <> OutOfFuel.
Proof.
  induction lines as [|line lines IH]; intros b depth q p; simpl;
    destruct (depth <=? 0)%Z; try discriminate.
  destruct (scanDepth line depth q). apply IH.
Qed.

Lemma consumeValue_total initial p : consumeValue initial p <> OutOfFuel.
Proof.
  unfold consumeValue.
  destruct (isEmpty _); [discriminate|].
  destruct (_ && _); [apply pullTriple_total|].
  destruct (_ && _); [apply pullTriple_total|].
  destruct (_ || _); [|discriminate].
  destruct (scanDepth _ _ _). apply pullCompound_total.
Qed.

Lemma on_store_walk_total p e parts t : on_store p (walk e parts t (store p)) <> OutOfFuel.
Proof.
  pose proof (walk_total e parts t (store p)).
  destruct (walk e parts t (store p)); simpl; congruence.
Qed.

Lemma tableHeader_plain_total parts p : tableHeader_plain parts p <> OutOfFuel.
Proof.
  unfold tableHeader_plain.
  pose proof (on_store_walk_total p (notTable p) parts (root p)).
  destruct (on_store p _); [discriminate | discriminate | discriminate | congruence].
Qed.

Lemma tableHeader_array_total parts p : tableHeader_array parts p <> OutOfFuel.
Proof.
  unfold tableHeader_array.
  destruct (splitLast parts) as [[front last]|]; [|discriminate].
  pose proof (on_store_walk_total p (notTable p) front (root p)).
  destruct (on_store p _) as [parent p1|e p1| |];
    [|discriminate | discriminate | congruence].
  cbn [bind]. destruct (Items (store p1) parent) as [items|]; [|discriminate].
  destruct (items !! last) as [existing|]; [|discriminate].
  destruct (negb _); [discriminate|]. destruct existing; discriminate.
Qed.

Lemma keyValue_bind_total parts val p : keyValue_bind parts val p <> OutOfFuel.
Proof.
  unfold keyValue_bind.
  destruct (splitLast parts) as [[front last]|]; [|discriminate].
  pose proof (on_store_walk_total p (notTable p) front (cur p)).
  destruct (on_store p _) as [t p1|e p1| |];
    [|discriminate | discriminate | congruence].
  cbn [bind]. destruct (hasItem _ _ _) as [[]|]; try discriminate.
  pose proof (consumeValue_total val p1).
  destruct (consumeValue val p1) as [fullVal p2|e p2| |]; try congruence.
  pose proof (parseValue_total fullVal (store p2)).
  destruct (parseValue fullVal (store p2)); congruence.
Qed.

Lemma parseLine_total text p : parseLine text p <> OutOfFuel.
Proof.
  unfold parseLine.
  destruct (_ || _); [discriminate|].
  destruct (strings.HasPrefix _ "[").
  - unfold parseTableHeader.
    destruct (_ && _); [discriminate|]. destruct (_ && _); [discriminate|].
    destruct (slice _ _ _); [|discriminate].
    destruct (parseKeyParts _) as [err|parts]; [discriminate|].
    destruct (negb _); [apply tableHeader_plain_total | apply tableHeader_array_total].
  - destruct (_ <? _)%Z; [discriminate|].
    unfold parseKeyValue.
    destruct (parseKeyParts _) as [err|parts]; [discriminate|].
    apply keyValue_bind_total.
Qed.

Lemma Parse_loop_total fuel : forall p,
  length (pending (scanner p)) < fuel -> Parse_loop fuel p <> OutOfFuel.
Proof.
  induction fuel as [|fuel IH]; intros p Hf; [lia|].
  simpl. destruct (scanLine p) as [[text p1]|] eqn:Hs.
  - apply scanLine_pulled in Hs as [_ Hs].
    pose proof (parseLine_total text p1) as Ht.
    destruct (parseLine_lines text p1) as [Hend _].
    destruct (parseLine text p1) as [[] p2|e p2| |]; simpl; try congruence.
    destruct Hend as (k & pulled & _ & Hp & _).
    apply IH. rewrite Hs, Hp in Hf. simpl in Hf. rewrite length_app in Hf. lia.
  - destruct (failed (scanner p)); discriminate.
Qed.

(** [Parse] returns the tree, returns an error or panics. *)
Lemma Parse_total input : Parse input <> OutOfFuel.
Proof.
  unfold Parse, Parse_run.
  pose proof (Parse_loop_total (S (length (pending (scanner (newParser input)))))
                (newParser input)) as H.
  destruct (Parse_loop _ _); try discriminate.
  intros _. refine (H _ eq_refl). lia.
Qed.

(** ** [Get] and the tree builder *)

Lemma len_nonEmpty k : nonEmptyKey k -> (len k =? 0)%nat = false.
Proof. destruct k; [congruence | reflexivity]. Qed.

Lemma Get_loop_cons (h : heap) n k path :
  Get_loop h n (k :: path) =
  if (len k =? 0)%nat then Get_loop h n path
  else match n with
       | NTable t =>
           match Items h t with
           | Some items =>
               match items !! k with
               | Some n' => Get_loop h n' path
               | None => None
               end
           | None => None
           end
       | _ => None
       end.
Proof. reflexivity. Qed.

Lemma Get_loop_app (h : heap) path1 : forall n path2,
  Get_loop h n (path1 ++ path2)
  = match Get_loop h n path1 with
    | Some m => Get_loop h m path2
    | None => None
    end.
Proof.
  induction path1 as [|k path1 IH]; intros n path2; [reflexivity|].
  rewrite <- app_comm_cons, !Get_loop_cons.
  destruct (len k =? 0)%nat; [apply IH|].
  destruct n as [t| |]; try reflexivity.
  destruct (Items h t) as [items|]; [|reflexivity].
  destruct (items !! k); [apply IH | reflexivity].
Qed.

Lemma Get_loop_skips_empty (h : heap) path : forall n,
  Get_loop h n (filter (fun k => k <> EmptyString) path) = Get_loop h n path.
Proof.
  induction path as [|k path IH]; intros n; [reflexivity|].
  rewrite Get_loop_cons. destruct k as [|c k].
  - rewrite filter_cons_False by (intros H; apply H; reflexivity). apply IH.
  - rewrite filter_cons_True by discriminate. rewrite Get_loop_cons. simpl.
    destruct n as [t| |]; try reflexivity.
    destruct (Items h t) as [items|]; [|reflexivity].
    destruct (items !! String c k); [apply IH | reflexivity].
Qed.

Lemma Get_loop_not_table (h : heap) n path :
  (forall t, n <> NTable t) -> Exists nonEmptyKey path -> Get_loop h n path = None.
Proof.
  intros Hn Hex. induction Hex as [k path Hk|k path Hex IH].
  - rewrite Get_loop_cons, (len_nonEmpty _ Hk).
    destruct n; [exfalso; eapply Hn; reflexivity | reflexivity | reflexivity].
  - rewrite Get_loop_cons. destruct (len k =? 0)%nat; [exact IH|].
    destruct n; [exfalso; eapply Hn; reflexivity | reflexivity | reflexivity].
Qed.

Lemma Get_loop_preserved (h h' : heap) path : forall n m,
  preserved h h' -> Get_loop h n path = Some m -> Get_loop h' n path = Some m.
Proof.
  intros n m [HT _]. revert n.
  induction path as [|k path IH]; intros n E; [exact E|].
  rewrite Get_loop_cons in *. destruct (len k =? 0)%nat; [apply IH, E|].
  destruct n as [t| |]; try discriminate.
  destruct (Items h t) as [items|] eqn:Ht; [|discriminate].
  destruct (HT _ _ Ht) as (items' & -> & Hsub).
  destruct (items !! k) as [n'|] eqn:Hk; [|discriminate].
  rewrite (lookup_weaken _ _ _ _ Hk Hsub). apply IH, E.
Qed.

(** The walk ends in the table that [Get] finds along its segments. *)
Lemma walk_Get e parts : forall t (h : heap) t' h',
  Forall nonEmptyKey parts ->
  walk e parts t h = Ok t' h' -> Get_loop h' (NTable t) parts = Some (NTable t').
Proof.
  induction parts as [|part rest IH]; intros t h t' h' Hne Hw.
  - injection Hw as <- <-. reflexivity.
  - apply Forall_cons in Hne as [Hpart Hrest].
    rewrite Get_loop_cons, (len_nonEmpty _ Hpart).
    pose proof (walk_preserved _ _ _ _ _ _ Hw) as [HT _].
    rewrite walk_cons in Hw.
    destruct (Items h t) as [items|] eqn:Ht; [|discriminate].
    destruct (items !! part) as [n|] eqn:Hn.
    + destruct (HT _ _ Ht) as (items' & -> & Hsub).
      rewrite (lookup_weaken _ _ _ _ Hn Hsub).
      destruct (negb (bool_decide (Kind n = ValueTable))); [discriminate|].
      destruct n as [t1| |]; try discriminate. eapply IH; eassumption.
    + pose proof (walk_preserved _ _ _ _ _ _ Hw) as [HT2 _].
      assert (Items (setItem (NewTable h).2 t part (NTable (length (tables h)))) t
              = Some (<[part := NTable (length (tables h))]> items)) as Ht2.
      { apply lookup_setItem_eq. unfold NewTable. simpl.
        apply lookup_app_l_Some, Ht. }
      destruct (HT2 _ _ Ht2) as (items' & -> & Hsub).
      erewrite lookup_weaken; [|apply lookup_insert_eq|exact Hsub].
      eapply IH; eassumption.
Qed.

(** Along segments that [Get] resolves to a table, the walk creates
    nothing. *)
Lemma walk_existing e parts : forall t (h : heap) t',
  Forall nonEmptyKey parts ->
  Get_loop h (NTable t) parts = Some (NTable t') -> walk e parts t h = Ok t' h.
Proof.
  induction parts as [|part rest IH]; intros t h t' Hne E.
  - injection E as <-. reflexivity.
  - apply Forall_cons in Hne as [Hpart Hrest].
    rewrite Get_loop_cons, (len_nonEmpty _ Hpart) in E. rewrite walk_cons.
    destruct (Items h t) as [items|]; [|discriminate].
    destruct (items !! part) as [n|]; [|discriminate].
    destruct n as [t1|a|ty v].
    + simpl. apply IH; assumption.
    + destruct rest as [|k rest]; [discriminate|].
      apply Forall_cons in Hrest as [Hk _].
      rewrite Get_loop_cons, (len_nonEmpty _ Hk) in E. discriminate.
    + destruct rest as [|k rest]; [discriminate|].
      apply Forall_cons in Hrest as [Hk _].
      rewrite Get_loop_cons, (len_nonEmpty _ Hk) in E. discriminate.
Qed.

(** No segment of a key is empty. *)
Lemma parseKeyParts_loop_nonEmpty s : forall parts cur inQuote escape r,
  Forall nonEmptyKey parts ->
  parseKeyParts_loop s parts cur inQuote escape = inr r -> Forall nonEmptyKey r.
Proof.
  assert (forall parts part, Forall nonEmptyKey parts ->
            Forall nonEmptyKey (if negb (isEmpty part) then parts ++ [part] else parts)) as Hadd.
  { intros parts part Hp. destruct (isEmpty_spec part) as [->|Hne]; simpl; [exact Hp|].
    apply Forall_app. split; [exact Hp|]. constructor; [exact Hne | constructor]. }
  induction s as [|ch s IH]; intros parts cur inQuote escape r Hp E; simpl in E.
  - destruct (negb (isb inQuote Ch.nul)); [discriminate|].
    injection E as <-. apply Hadd, Hp.
  - pose proof (Hadd parts (strings.TrimSpace cur) Hp) as Hp'.
    set (parts' := if negb (isEmpty (strings.TrimSpace cur)) then _ else parts) in *.
    clearbody parts'.
    repeat match type of E with
           | context [if ?b then _ else _] => destruct b
           end; try discriminate; (eapply IH; [|exact E]); assumption.
Qed.

Lemma parseKeyParts_nonEmpty s parts :
  parseKeyParts s = inr parts -> Forall nonEmptyKey parts.
Proof. apply parseKeyParts_loop_nonEmpty. constructor. Qed.

(** ** The text [consumeValue] returns *)

Lemma app_assoc_string a b c : (a +:+ b) +:+ c = a +:+ (b +:+ c).
Proof.
  induction a as [|ch a IH]; [reflexivity|].
  change (String ch ((a +:+ b) +:+ c) = String ch (a +:+ (b +:+ c))).
  rewrite IH. reflexivity.
Qed.

Lemma app_nil_r_string a : a +:+ EmptyString = a.
Proof.
  induction a as [|ch a IH]; [reflexivity|].
  change (String ch (a +:+ EmptyString) = String ch a). rewrite IH. reflexivity.
Qed.

Lemma after_lines_nil p : after_lines [] p p.
Proof. unfold after_lines. simpl. repeat split; auto. Qed.

Lemma pullTriple_text delim msg initial lines : forall b p,
  lines = pending (scanner p) ->
  match pullTriple delim msg initial b lines p with
  | Ok full p' => exists pulled, after_lines pulled p p' /\ full = b +:+ joinLines pulled
  | Err e p' => e = errors_New msg /\ after_lines lines p p' /\ pending (scanner p') = []
  | _ => False
  end.
Proof.
  induction lines as [|line lines IH]; intros b p Hlines; simpl.
  - split; [reflexivity|]. split; [|symmetry; exact Hlines].
    unfold after_lines. rewrite <- Hlines. simpl. repeat split; auto.
  - set (p1 := MkParser _ _ _ _ _).
    assert (after_lines [line] p p1) as H1.
    { unfold after_lines. simpl. rewrite <- Hlines. repeat split; auto. lia. }
    destruct (strings.Contains _ _).
    + exists [line]. split; [exact H1|]. unfold WriteString, joinLines. cbn [fold_right].
      rewrite app_nil_r_string. apply app_assoc_string.
    + specialize (IH (WriteString (WriteString b (str1 Ch.nl)) line) p1 eq_refl).
      destruct H1 as (_ & Hf & Hn & Hr & Hc & Hs).
      destruct (pullTriple _ _ _ _ _ _) as [full p'|e p'| |]; try exact IH.
      * destruct IH as (pulled & (Hp' & Hf' & Hn' & Hr' & Hc' & Hs') & ->).
        exists (line :: pulled). split.
        -- unfold after_lines. rewrite <- Hlines. simpl in *. rewrite Hp'.
           repeat split; try congruence. lia.
        -- unfold WriteString, joinLines. cbn [fold_right].
           rewrite !app_assoc_string. reflexivity.
      * destruct IH as (-> & (Hp' & Hf' & Hn' & Hr' & Hc' & Hs') & Hnil).
        split; [reflexivity|]. split; [|exact Hnil].
        unfold after_lines. rewrite <- Hlines, Hnil, app_nil_r. simpl in *.
        repeat split; try congruence. lia.
Qed.

Lemma pullCompound_text lines : forall b depth q p,
  lines = pending (scanner p) ->
  match pullCompound b depth q lines p with
  | Ok full p' => exists pulled, after_lines pulled p p' /\ full = b +:+ joinLines pulled
  | Err e p' =>
      e = errors_New "unterminated compound value"
      /\ after_lines lines p p' /\ pending (scanner p') = []
  | _ => False
  end.
Proof.
  assert (forall b p, exists pulled, after_lines pulled p p /\ b = b +:+ joinLines pulled) as H0.
  { intros b p. exists []. split; [apply after_lines_nil|]. simpl.
    rewrite app_nil_r_string. reflexivity. }
  induction lines as [|line lines IH]; intros b depth q p Hlines; simpl.
  - destruct (depth <=? 0)%Z; [apply H0|].
    split; [reflexivity|]. split; [|symmetry; exact Hlines].
    unfold after_lines. rewrite <- Hlines. simpl. repeat split; auto.
  - destruct (depth <=? 0)%Z; [apply H0|].
    set (p1 := MkParser _ _ _ _ _).
    assert (after_lines [line] p p1) as H1.
    { unfold after_lines. simpl. rewrite <- Hlines. repeat split; auto. lia. }
    destruct (scanDepth line depth q) as [depth' q'].
    specialize (IH (WriteString (WriteString b (str1 Ch.nl)) line) depth' q' p1 eq_refl).
    destruct H1 as (_ & Hf & Hn & Hr & Hc & Hs).
    destruct (pullCompound _ _ _ _ _) as [full p'|e p'| |]; try exact IH.
    + destruct IH as (pulled & (Hp' & Hf' & Hn' & Hr' & Hc' & Hs') & ->).
      exists (line :: pulled). split.
      * unfold after_lines. rewrite <- Hlines. simpl in *. rewrite Hp'.
        repeat split; try congruence. lia.
      * unfold WriteString, joinLines. cbn [fold_right].
           rewrite !app_assoc_string. reflexivity.
    + destruct IH as (-> & (Hp' & Hf' & Hn' & Hr' & Hc' & Hs') & Hnil).
      split; [reflexivity|]. split; [|exact Hnil].
      unfold after_lines. rewrite <- Hlines, Hnil, app_nil_r. simpl in *.
      repeat split; try congruence. lia.
Qed.

Lemma consumeValue_text initial p full p' :
  consumeValue initial p = Ok full p' ->
  exists pulled, after_lines pulled p p' /\ full = initial +:+ joinLines pulled.
Proof.
  unfold consumeValue. intros E.
  destruct (isEmpty _); [discriminate|].
  destruct (_ && _).
  { pose proof (pullTriple_text (triple Ch.dq) "unterminated multiline string" initial
                  _ initial p eq_refl) as H. rewrite E in H. exact H. }
  destruct (_ && _).
  { pose proof (pullTriple_text (triple Ch.sq) "unterminated multiline literal string" initial
                  _ initial p eq_refl) as H. rewrite E in H. exact H. }
  destruct (_ || _).
  - destruct (scanDepth _ _ _) as [depth q].
    pose proof (pullCompound_text _ initial depth q p eq_refl) as H. rewrite E in H. exact H.
  - injection E as <- <-. exists []. split; [apply after_lines_nil|].
    simpl. rewrite app_nil_r_string. reflexivity.
Qed.

(** The errors of [consumeValue]: the value is empty, or the input
    ended before the value was closed. *)
Lemma consumeValue_error initial p e p' :
  consumeValue initial p = Err e p' ->
  (e = errors_New "empty value" /\ p' = p)
  \/ ((e = errors_New "unterminated multiline string"
       \/ e = errors_New "unterminated multiline literal string"
       \/ e = errors_New "unterminated compound value")
      /\ after_lines (pending (scanner p)) p p' /\ pending (scanner p') = []).
Proof.
  unfold consumeValue. intros E.
  destruct (isEmpty _); [injection E as <- <-; auto|]. right.
  destruct (_ && _).
  { pose proof (pullTriple_text (triple Ch.dq) "unterminated multiline string" initial
                  _ initial p eq_refl) as H. rewrite E in H. destruct H as (-> & H). auto. }
  destruct (_ && _).
  { pose proof (pullTriple_text (triple Ch.sq) "unterminated multiline literal string" initial
                  _ initial p eq_refl) as H. rewrite E in H. destruct H as (-> & H). auto. }
  destruct (_ || _); [|discriminate].
  destruct (scanDepth _ _ _) as [depth q].
  pose proof (pullCompound_text _ initial depth q p eq_refl) as H. rewrite E in H.
  destruct H as (-> & H). auto.
Qed.


(** ** Well-formed stores *)

Lemma valid_mono (h h' : heap) n :
  length (tables h) <= length (tables h') -> length (arrays h) <= length (arrays h') ->
  valid h n -> valid h' n.
Proof. destruct n; simpl; intros; try lia; assumption. Qed.

Lemma wf_empty : wf empty_heap.
Proof. split; intros ? ? *; simpl; rewrite lookup_nil; discriminate. Qed.

Lemma wf_NewTable h : wf h -> wf (NewTable h).2.
Proof.
  intros [HT HA]. split.
  - intros t items k n Ht Hk. unfold NewTable in *. simpl in *.
    apply lookup_app_Some in Ht as [Ht|[_ Ht]].
    + eapply valid_mono; [| |eapply HT; eassumption]; simpl; rewrite ?length_app; lia.
    + destruct (t - length (tables h)) as [|i]; simpl in Ht; [|discriminate].
      injection Ht as <-. rewrite lookup_empty in Hk. discriminate.
  - intros a elems n Ha Hn. unfold NewTable in *. simpl in *.
    eapply valid_mono; [| |eapply HA; eassumption]; simpl; rewrite ?length_app; lia.
Qed.

Lemma wf_NewArray h : wf h -> wf (NewArray h).2.
Proof.
  intros [HT HA]. split.
  - intros t items k n Ht Hk. unfold NewArray in *. simpl in *.
    eapply valid_mono; [| |eapply HT; eassumption]; simpl; rewrite ?length_app; lia.
  - intros a elems n Ha Hn. unfold NewArray in *. simpl in *.
    apply lookup_app_Some in Ha as [Ha|[_ Ha]].
    + eapply valid_mono; [| |eapply HA; eassumption]; simpl; rewrite ?length_app; lia.
    + destruct (a - length (arrays h)) as [|i]; simpl in Ha; [|discriminate].
      injection Ha as <-. apply elem_of_nil in Hn as [].
Qed.

Lemma valid_setItem h t k n n' : valid h n' -> valid (setItem h t k n) n'.
Proof. apply valid_mono; rewrite ?length_tables_setItem, ?arrays_setItem; lia. Qed.

Lemma valid_appendElem h a n n' : valid h n' -> valid (appendElem h a n) n'.
Proof. apply valid_mono; rewrite ?length_arrays_appendElem, ?tables_appendElem; lia. Qed.

Lemma wf_setItem h t k n : wf h -> valid h n -> wf (setItem h t k n).
Proof.
  intros [HT HA] Hn. split.
  - intros t1 items1 k1 n1 Ht1 Hk1. apply valid_setItem.
    destruct (tables h !! t) as [items|] eqn:Ht;
      [|rewrite (setItem_None _ _ _ _ Ht) in Ht1; eapply HT; eassumption].
    destruct (decide (t = t1)) as [<-|Hne].
    + rewrite (lookup_setItem_eq _ _ _ _ _ Ht) in Ht1. injection Ht1 as <-.
      destruct (decide (k = k1)) as [<-|Hk].
      * rewrite lookup_insert_eq in Hk1. injection Hk1 as <-. exact Hn.
      * rewrite lookup_insert_ne in Hk1 by exact Hk. exact (HT _ _ _ _ Ht Hk1).
    + rewrite lookup_setItem_ne in Ht1 by exact Hne. exact (HT _ _ _ _ Ht1 Hk1).
  - intros a elems n1 Ha Hn1. apply valid_setItem. rewrite arrays_setItem in Ha.
    eapply HA; eassumption.
Qed.

Lemma wf_appendElem h a n : wf h -> valid h n -> wf (appendElem h a n).
Proof.
  intros [HT HA] Hn. split.
  - intros t items k n1 Ht Hk. apply valid_appendElem. rewrite tables_appendElem in Ht.
    eapply HT; eassumption.
  - intros a1 elems1 n1 Ha1 Hn1. apply valid_appendElem.
    destruct (arrays h !! a) as [elems|] eqn:Ha.
    + destruct (decide (a = a1)) as [<-|Hne].
      * rewrite (lookup_appendElem_eq _ _ _ _ Ha) in Ha1. injection Ha1 as <-.
        apply elem_of_app in Hn1 as [Hn1|Hn1]; [exact (HA _ _ _ Ha Hn1)|].
        apply list_elem_of_singleton in Hn1 as ->. exact Hn.
      * rewrite lookup_appendElem_ne in Ha1 by exact Hne. exact (HA _ _ _ Ha1 Hn1).
    + unfold appendElem in Ha1. rewrite Ha in Ha1. eapply HA; eassumption.
Qed.



Lemma walk_wf e parts : forall t (h : heap) t' h',
  wf h -> t < length (tables h) -> walk e parts t h = Ok t' h' ->
  wf h' /\ t' < length (tables h') /\ length (tables h) <= length (tables h')
  /\ length (arrays h) <= length (arrays h').
Proof.
  induction parts as [|part rest IH]; intros t h t' h' Hwf Ht Hw.
  - injection Hw as <- <-. auto.
  - rewrite walk_cons in Hw.
    destruct (Items h t) as [items|] eqn:Hit; [|discriminate].
    destruct (items !! part) as [n|] eqn:Hn.
    + destruct (negb (bool_decide (Kind n = ValueTable))); [discriminate|].
      destruct n as [t1| |]; try discriminate.
      eapply IH; [exact Hwf| |exact Hw]. destruct Hwf as [HT _].
      apply (HT _ _ _ _ Hit Hn).
    + apply IH in Hw as (W & T & LT & LA).
      * rewrite length_tables_setItem in LT. rewrite arrays_setItem in LA.
        unfold NewTable in LT, LA. simpl in LT, LA. rewrite length_app in LT. simpl in LT.
        split; [exact W|]. split; [exact T|]. split; lia.
      * apply wf_setItem; [apply wf_NewTable, Hwf|]. simpl. rewrite length_app. simpl. lia.
      * rewrite length_tables_setItem. simpl. rewrite length_app. simpl. lia.
Qed.


Lemma parseLocalDateTimeVariants_tagged s n :
  parseLocalDateTimeVariants s = Some n -> exists ty v, n = NValue ty v /\ tagged ty v.
Proof.
  unfold parseLocalDateTimeVariants. intros E.
  repeat case_match; simplify_eq; do 2 eexists; (split; [reflexivity | exact I]).
Qed.

Lemma parseArrayToken_is_array pv s (h : heap) n h' :
  parseArrayToken pv s h = Ok n h' -> exists a, n = NArray a.
Proof.
  unfold parseArrayToken. intros E.
  destruct (negb (strings.HasPrefix _ "[")); [discriminate|].
  destruct (slice _ _ _); [|discriminate].
  simpl in E. apply bind_Ok in E as ([] & h1 & _ & E). injection E as <- <-. eauto.
Qed.

Lemma parseValue_body_tagged pv s (h : heap) ty v h' :
  parseValue_body pv s h = Ok (NValue ty v) h' -> tagged ty v.
Proof.
  unfold parseValue_body. intros E.
  repeat match type of E with
         | context [if ?b then _ else _] => destruct b eqn:?
         | context [match ?x with _ => _ end] => destruct x eqn:?
         end;
    try discriminate; try (simplify_eq; exact I);
    try (apply parseArrayToken_is_array in E as [? ?]; discriminate);
    try (apply parseInlineTableToken_is_table in E as [? ?]; discriminate).
  simplify_eq.
  match goal with
  | H : parseLocalDateTimeVariants _ = Some _ |- _ =>
      apply parseLocalDateTimeVariants_tagged in H as (? & ? & ? & ?); simplify_eq; assumption
  end.
Qed.

Lemma grows_refl h : grows h h.
Proof. split; lia. Qed.

Lemma grows_trans h1 h2 h3 : grows h1 h2 -> grows h2 h3 -> grows h1 h3.
Proof. unfold grows. lia. Qed.

Lemma grows_setItem h t k n : grows h (setItem h t k n).
Proof. unfold grows. rewrite length_tables_setItem, arrays_setItem. lia. Qed.

Lemma grows_appendElem h a n : grows h (appendElem h a n).
Proof. unfold grows. rewrite length_arrays_appendElem, tables_appendElem. lia. Qed.

Lemma grows_NewTable h : grows h (NewTable h).2.
Proof. unfold grows, NewTable. simpl. rewrite length_app. lia. Qed.

Lemma grows_NewArray h : grows h (NewArray h).2.
Proof. unfold grows, NewArray. simpl. rewrite length_app. lia. Qed.

Section WellFormed.
Variable pv : string -> heap -> outcome heap Node.
Hypothesis pv_wf : forall s h n h',
  wf h -> pv s h = Ok n h' -> wf h' /\ valid h' n /\ grows h h'.

Lemma parseArray_loop_wf parts : forall arr ek h h',
  wf h -> arr < length (arrays h) ->
  parseArray_loop pv parts arr ek h = Ok tt h' -> wf h' /\ grows h h'.
Proof.
  induction parts as [|part parts IH]; intros arr ek h h' Hwf Harr E.
  - injection E as <-. split; [exact Hwf | apply grows_refl].
  - rewrite parseArray_loop_cons in E.
    destruct (isEmpty (strings.TrimSpace part)); [eapply IH; eassumption|].
    apply bind_Ok in E as (v & h1 & Hpv & E).
    destruct (pv_wf _ _ _ _ Hwf Hpv) as (W1 & V1 & G1).
    destruct (Elems h1 arr) as [elems|]; [|discriminate].
    assert (forall ek', parseArray_loop pv parts arr ek' (appendElem h1 arr v) = Ok tt h' ->
              wf h' /\ grows h h') as Hnext.
    { intros ek' E'. apply IH in E' as (W2 & G2).
      - split; [exact W2|]. eapply grows_trans; [exact G1|].
        eapply grows_trans; [apply grows_appendElem | exact G2].
      - apply wf_appendElem; assumption.
      - rewrite length_arrays_appendElem. destruct G1. lia. }
    destruct (length elems =? 0)%nat; [eapply Hnext, E|].
    destruct (negb (bool_decide (Some (Kind v) = ek))); [discriminate|].
    eapply Hnext, E.
Qed.

Lemma parseArrayToken_wf s h n h' :
  wf h -> parseArrayToken pv s h = Ok n h' -> wf h' /\ valid h' n /\ grows h h'.
Proof.
  unfold parseArrayToken. intros Hwf E.
  destruct (negb (strings.HasPrefix _ "[")); [discriminate|].
  destruct (slice _ _ _) as [content|]; [|discriminate].
  simpl in E. apply bind_Ok in E as ([] & h1 & Hloop & E). injection E as <- <-.
  apply parseArray_loop_wf in Hloop as (W & G).
  - split; [exact W|]. destruct G as [GT GA]. simpl in GT, GA. rewrite length_app in GA.
    simpl in GA. split; [simpl; lia | split; lia].
  - apply (wf_NewArray h), Hwf.
  - simpl. rewrite length_app. simpl. lia.
Qed.

Lemma inlinePair_bind_wf parts val t h h' :
  wf h -> t < length (tables h) ->
  inlinePair_bind pv parts val t h = Ok tt h' -> wf h' /\ grows h h'.
Proof.
  intros Hwf Ht E. unfold inlinePair_bind in E.
  destruct (splitLast parts) as [[front last]|]; [|discriminate].
  apply bind_Ok in E as (cur & h1 & Hw & E).
  apply (walk_wf _ _ _ _ _ _ Hwf Ht) in Hw as (W1 & Hcur & GT1 & GA1).
  destruct (hasItem h1 cur last) as [[]|]; try discriminate.
  apply bind_Ok in E as (v & h2 & Hpv & E). injection E as <-.
  destruct (pv_wf _ _ _ _ W1 Hpv) as (W2 & V2 & G2).
  split; [apply wf_setItem; assumption|].
  eapply grows_trans; [split; eassumption|].
  eapply grows_trans; [exact G2 | apply grows_setItem].
Qed.

Lemma parseInlinePair_wf kv t h h' :
  wf h -> t < length (tables h) ->
  parseInlinePair pv kv t h = Ok tt h' -> wf h' /\ grows h h'.
Proof.
  intros Hwf Ht E. unfold parseInlinePair in E.
  destruct (isEmpty _); [injection E as <-; split; [exact Hwf | apply grows_refl]|].
  destruct (_ <? _)%Z; [discriminate|].
  destruct (parseKeyParts _) as [err|parts]; [discriminate|].
  eapply inlinePair_bind_wf; eassumption.
Qed.

Lemma parseInline_loop_wf pairs : forall t h h',
  wf h -> t < length (tables h) ->
  parseInline_loop pv pairs t h = Ok tt h' -> wf h' /\ grows h h'.
Proof.
  induction pairs as [|kv pairs IH]; intros t h h' Hwf Ht E.
  - injection E as <-. split; [exact Hwf | apply grows_refl].
  - change (parseInline_loop pv (kv :: pairs) t h)
      with (let! (_, h1) := parseInlinePair pv kv t h in parseInline_loop pv pairs t h1) in E.
    apply bind_Ok in E as ([] & h1 & Hp & E).
    apply (parseInlinePair_wf _ _ _ _ Hwf Ht) in Hp as (W1 & G1).
    apply IH in E as (W2 & G2); [| exact W1 | destruct G1; lia].
    split; [exact W2 | eapply grows_trans; eassumption].
Qed.

Lemma parseInlineTableToken_wf s h n h' :
  wf h -> parseInlineTableToken pv s h = Ok n h' -> wf h' /\ valid h' n /\ grows h h'.
Proof.
  unfold parseInlineTableToken. intros Hwf E.
  destruct (_ || _); [discriminate|].
  destruct (slice _ _ _) as [inner|]; [|discriminate].
  simpl in E. apply bind_Ok in E as ([] & h1 & Hloop & E). injection E as <- <-.
  apply parseInline_loop_wf in Hloop as (W & G).
  - split; [exact W|]. destruct G as [GT GA]. simpl in GT, GA. rewrite length_app in GT.
    simpl in GT. split; [simpl; lia | split; lia].
  - apply (wf_NewTable h), Hwf.
  - simpl. rewrite length_app. simpl. lia.
Qed.

Lemma parseValue_body_wf s h n h' :
  wf h -> parseValue_body pv s h = Ok n h' -> wf h' /\ valid h' n /\ grows h h'.
Proof.
  intros Hwf E. pose proof E as E0.
  apply parseValue_body_cases in E as [(-> & ty & v & -> & _)|[[s' E]|[s' E]]].
  - split; [exact Hwf|]. split; [|apply grows_refl].
    eapply parseValue_body_tagged, E0.
  - eapply parseArrayToken_wf; eassumption.
  - eapply parseInlineTableToken_wf; eassumption.
Qed.

End WellFormed.

Lemma parseValue_fuel_wf fuel : forall s h n h',
  wf h -> parseValue_fuel fuel s h = Ok n h' -> wf h' /\ valid h' n /\ grows h h'.
Proof.
  induction fuel as [|fuel IH]; intros s h n h' Hwf E; [discriminate|].
  simpl in E. eapply parseValue_body_wf; [exact IH | exact Hwf | exact E].
Qed.

(** [parseValue] keeps the store well-formed and returns a node of it. *)
Lemma parseValue_wf s h n h' :
  wf h -> parseValue s h = Ok n h' -> wf h' /\ valid h' n /\ grows h h'.
Proof. apply parseValue_fuel_wf. Qed.

(** ** The loop of [Parse] keeps the store well-formed *)

Lemma extends_refl p : wf_parser p -> extends p p.
Proof. intros H. split; [exact H|]. split; [reflexivity | apply preserved_refl]. Qed.

Lemma extends_trans p1 p2 p3 : extends p1 p2 -> extends p2 p3 -> extends p1 p3.
Proof.
  intros (W1 & R1 & P1) (W2 & R2 & P2). split; [exact W2|].
  split; [congruence | eapply preserved_trans; eassumption].
Qed.

Lemma tableHeader_plain_inv parts (p p' : parser) :
  wf_parser p -> tableHeader_plain parts p = Ok tt p' -> extends p p'.
Proof.
  intros (Hwf & Hroot & Hcur) E. unfold tableHeader_plain in E.
  apply bind_Ok in E as (t & p1 & E & Ep). apply on_store_Ok in E as (h1 & Hw & ->).
  injection Ep as <-. pose proof (walk_preserved _ _ _ _ _ _ Hw) as Hp.
  apply (walk_wf _ _ _ _ _ _ Hwf Hroot) in Hw as (W & T & GT & GA).
  split; [|split; [reflexivity | exact Hp]].
  split; [exact W|]. simpl. split; lia.
Qed.

Lemma tableHeader_array_inv parts (p p' : parser) :
  wf_parser p -> tableHeader_array parts p = Ok tt p' -> extends p p'.
Proof.
  intros (Hwf & Hroot & Hcur) E. unfold tableHeader_array in E.
  destruct (splitLast parts) as [[front last]|]; [|discriminate].
  apply bind_Ok in E as (parent & p1 & E & Ep). apply on_store_Ok in E as (h1 & Hw & ->).
  pose proof (walk_preserved _ _ _ _ _ _ Hw) as Hp.
  apply (walk_wf _ _ _ _ _ _ Hwf Hroot) in Hw as (W & T & GT & GA).
  simpl in Ep. destruct (Items h1 parent) as [items|] eqn:Hit; [|discriminate].
  destruct (items !! last) as [existing|] eqn:Hl.
  - destruct (negb (bool_decide (Kind existing = ValueArray))); [discriminate|].
    destruct existing as [|arr|]; try discriminate.
    simpl in Ep. injection Ep as <-. split; [|split; [reflexivity|]].
    + split; [|simpl; rewrite tables_appendElem; simpl; rewrite length_app; simpl; lia].
      simpl. apply wf_appendElem; [apply (wf_NewTable h1), W|].
      simpl. rewrite length_app. simpl. lia.
    + simpl. eapply preserved_trans; [exact Hp|].
      eapply preserved_trans; [apply preserved_NewTable | apply preserved_appendElem].
  - simpl in Ep. injection Ep as <-. split; [|split; [reflexivity|]].
    + split; [|simpl; rewrite tables_appendElem; simpl; rewrite length_app,
                 length_tables_setItem; simpl; lia].
      simpl. apply wf_appendElem; [|simpl; rewrite length_app; simpl; lia].
      apply (wf_NewTable (setItem _ _ _ _)).
      apply wf_setItem; [apply (wf_NewArray h1), W|]. simpl. rewrite length_app. simpl. lia.
    + simpl. eapply preserved_trans; [exact Hp|].
      eapply preserved_trans; [apply preserved_NewArray|].
      eapply preserved_trans; [|eapply preserved_trans;
                                 [apply preserved_NewTable | apply preserved_appendElem]].
      eapply preserved_setItem; [|exact Hl]. exact Hit.
Qed.

Lemma parseTableHeader_inv line (p p' : parser) :
  wf_parser p -> parseTableHeader line p = Ok tt p' -> extends p p'.
Proof.
  intros Hwf E. unfold parseTableHeader in E.
  destruct (_ && _); [discriminate|]. destruct (_ && _); [discriminate|].
  destruct (slice _ _ _); [|discriminate].
  destruct (parseKeyParts _) as [err|parts]; [discriminate|].
  destruct (negb _);
    [eapply tableHeader_plain_inv | eapply tableHeader_array_inv]; eassumption.
Qed.

Lemma keyValue_bind_inv parts val (p p' : parser) :
  wf_parser p -> keyValue_bind parts val p = Ok tt p' -> extends p p'.
Proof.
  intros (Hwf & Hroot & Hcur) E. pose proof (keyValue_bind_preserved _ _ _ _ E) as Hp.
  unfold keyValue_bind in E.
  destruct (splitLast parts) as [[front last]|]; [|discriminate].
  apply bind_Ok in E as (t & p1 & Hw & E).
  apply on_store_Ok in Hw as (h1 & Hw & ->). simpl in E.
  apply (walk_wf _ _ _ _ _ _ Hwf Hcur) in Hw as (W & T & GT & GA).
  destruct (hasItem h1 t last) as [[]|]; try discriminate.
  destruct (consumeValue val _) as [fullVal p2|e p2| |] eqn:Hc; try discriminate.
  apply consumeValue_text in Hc as (pulled & (_ & _ & _ & Hr & Hc & Hs) & _).
  simpl in Hr, Hc, Hs.
  destruct (parseValue fullVal (store p2)) as [v h2|e h2| |] eqn:Hv; try discriminate.
  injection E as <-. rewrite Hs in Hv.
  apply (parseValue_wf _ _ _ _ W) in Hv as (W2 & V2 & G2T & G2A).
  split; [|split; [exact Hr | exact Hp]].
  split; [apply wf_setItem; assumption|]. simpl.
  rewrite length_tables_setItem, Hr, Hc. lia.
Qed.

Lemma parseKeyValue_inv line idx (p p' : parser) :
  wf_parser p -> parseKeyValue line idx p = Ok tt p' -> extends p p'.
Proof.
  intros Hwf E. unfold parseKeyValue in E.
  destruct (parseKeyParts _) as [err|parts]; [discriminate|].
  eapply keyValue_bind_inv; eassumption.
Qed.

Lemma parseLine_inv text (p p' : parser) :
  wf_parser p -> parseLine text p = Ok tt p' -> extends p p'.
Proof.
  intros Hwf E. unfold parseLine in E.
  destruct (_ || _); [injection E as <-; apply extends_refl, Hwf|].
  destruct (strings.HasPrefix _ "["); [eapply parseTableHeader_inv; eassumption|].
  destruct (_ <? _)%Z; [discriminate|].
  eapply parseKeyValue_inv; eassumption.
Qed.

Lemma scanLine_inv (p : parser) text p1 :
  wf_parser p -> scanLine p = Some (text, p1) -> extends p p1.
Proof.
  intros Hwf E. unfold scanLine in E.
  destruct (pending (scanner p)); [discriminate|]. injection E as <- <-.
  split; [exact Hwf|]. split; [reflexivity | apply preserved_refl].
Qed.

Lemma Parse_loop_inv fuel : forall (p p' : parser),
  wf_parser p -> Parse_loop fuel p = Ok tt p' -> extends p p'.
Proof.
  induction fuel as [|fuel IH]; intros p p' Hwf E; [discriminate|].
  simpl in E. destruct (scanLine p) as [[text p1]|] eqn:Hs.
  - apply (scanLine_inv _ _ _ Hwf) in Hs.
    apply bind_Ok in E as ([] & p2 & Hl & E).
    apply (parseLine_inv _ _ _ (proj1 Hs)) in Hl.
    apply (IH _ _ (proj1 Hl)) in E.
    eapply extends_trans; [exact Hs|]. eapply extends_trans; eassumption.
  - destruct (failed (scanner p)); [discriminate|]. injection E as <-.
    apply extends_refl, Hwf.
Qed.

Lemma wf_newParser input : wf_parser (newParser input).
Proof.
  unfold newParser, wf_parser. simpl. split; [|lia].
  apply (wf_NewTable empty_heap), wf_empty.
Qed.

(** [Get] stays inside a well-formed store. *)
Lemma Get_loop_valid (h : heap) path : forall n m,
  wf h -> valid h n -> Get_loop h n path = Some m -> valid h m.
Proof.
  intros n m [HT _]. revert n.
  induction path as [|k path IH]; intros n Hn E; [injection E as <-; exact Hn|].
  rewrite Get_loop_cons in E. destruct (len k =? 0)%nat; [eapply IH; eassumption|].
  destruct n as [t| |]; try discriminate.
  destruct (Items h t) as [items|] eqn:Ht; [|discriminate].
  destruct (items !! k) as [n'|] eqn:Hk; [|discriminate].
  eapply IH; [|exact E]. exact (HT _ _ _ _ Ht Hk).
Qed.

Lemma Parse_Ok input r h :
  Parse input = Ok r h ->
  exists p', Parse_run input = Ok tt p' /\ r = root p' /\ h = store p'.
Proof.
  unfold Parse. destruct (Parse_run input) as [[] p'|e p'| |]; try discriminate.
  intros [= <- <-]. eauto.
Qed.

(** ** Headers and [Get] *)

Lemma walk_arrays e parts : forall t (h : heap) t' h',
  walk e parts t h = Ok t' h' -> arrays h' = arrays h.
Proof.
  induction parts as [|part rest IH]; intros t h t' h' Hw.
  - injection Hw as <- <-. reflexivity.
  - rewrite walk_cons in Hw.
    destruct (Items h t) as [items|]; [|discriminate].
    destruct (items !! part) as [n|].
    + destruct (negb (bool_decide (Kind n = ValueTable))); [discriminate|].
      destruct n; try discriminate. eapply IH, Hw.
    + apply IH in Hw. rewrite Hw, arrays_setItem. reflexivity.
Qed.

Lemma tableHeader_plain_Get parts (p p' : parser) :
  Forall nonEmptyKey parts ->
  tableHeader_plain parts p = Ok tt p' ->
  Get (store p') (root p) parts = Some (NTable (cur p')).
Proof.
  intros Hne E. unfold tableHeader_plain in E.
  apply bind_Ok in E as (t & p1 & E & Ep). apply on_store_Ok in E as (h1 & Hw & ->).
  injection Ep as <-. simpl. eapply walk_Get; eassumption.
Qed.

(** A header that names tables that exist creates nothing. *)
Lemma tableHeader_plain_again parts (p : parser) t :
  Forall nonEmptyKey parts ->
  Get (store p) (root p) parts = Some (NTable t) ->
  tableHeader_plain parts p = Ok tt (with_cur p t).
Proof.
  intros Hne HG. unfold tableHeader_plain.
  rewrite (walk_existing _ _ _ _ _ Hne HG). simpl. destruct p. reflexivity.
Qed.

Lemma tableHeader_array_Get parts (p p' : parser) :
  Forall nonEmptyKey parts -> wf_parser p ->
  tableHeader_array parts p = Ok tt p' ->
  exists arr elems,
    Get (store p') (root p) parts = Some (NArray arr)
    /\ Elems (store p') arr = Some (elems ++ [NTable (cur p')])
    /\ (forall elems0, Elems (store p) arr = Some elems0 -> elems0 = elems)
    /\ Items (store p') (cur p') = Some ∅
    /\ Items (store p) (cur p') = None.
Proof.
  intros Hne (Hwf & Hroot & _) E. pose proof E as E0. unfold tableHeader_array in E.
  destruct (splitLast parts) as [[front last]|] eqn:Hsplit; [|discriminate].
  apply splitLast_Some in Hsplit as ->.
  apply Forall_app in Hne as [Hfront Hlast]. apply Forall_cons in Hlast as [Hlast _].
  apply bind_Ok in E as (parent & p1 & E & Ep). apply on_store_Ok in E as (h1 & Hw & ->).
  pose proof (walk_Get _ _ _ _ _ _ Hfront Hw) as HG.
  pose proof (walk_preserved _ _ _ _ _ _ Hw) as [_ HPA].
  pose proof (walk_wf _ _ _ _ _ _ Hwf Hroot Hw) as ([HT HA] & T & GT & GA).
  simpl in Ep. destruct (Items h1 parent) as [items|] eqn:Hit; [|discriminate].
  assert (forall h2 n,
            preserved h1 h2 -> Items h2 parent = Some (<[last := n]> items) ->
            Get h2 (root p) (front ++ [last]) = Some n) as Hget.
  { intros h2 n Hp2 Hit2. unfold Get. rewrite Get_loop_app.
    rewrite (Get_loop_preserved _ _ _ _ _ Hp2 HG).
    rewrite Get_loop_cons, (len_nonEmpty _ Hlast), Hit2, lookup_insert_eq. reflexivity. }
  assert (Items (store p) (length (tables h1)) = None) as Hfresh.
  { unfold Items. apply lookup_ge_None_2. lia. }
  destruct (items !! last) as [existing|] eqn:Hl.
  - destruct (negb (bool_decide (Kind existing = ValueArray))); [discriminate|].
    destruct existing as [|arr|]; try discriminate.
    pose proof (HT _ _ _ _ Hit Hl) as Harr. simpl in Harr.
    destruct (lookup_lt_is_Some_2 _ _ Harr) as [elems Hel].
    destruct (tableHeader_array_append p front last parent h1 items (NArray arr)
                (conj Hit Hl) Hw arr elems eq_refl Hel)
      as (p'' & E' & Hcur & _ & Hnew & Harr' & Hparent).
    rewrite E0 in E'. injection E' as <-. exists arr, elems. rewrite Hcur in *.
    split; [|split; [exact Harr'|split; [|split; [exact Hnew | exact Hfresh]]]].
    + apply Hget; [|rewrite insert_id by exact Hl; exact Hparent].
      simpl in Ep. injection Ep as <-. simpl.
      eapply preserved_trans; [apply preserved_NewTable | apply preserved_appendElem].
    + intros elems0 H0. unfold Elems in H0.
      rewrite <- (walk_arrays _ _ _ _ _ _ Hw), Hel in H0. injection H0 as <-. reflexivity.
  - destruct (tableHeader_array_new p front last parent h1 items Hw Hit Hl)
      as (p'' & E' & Hcur & _ & Hnew & Hparent & Harr').
    rewrite E0 in E'. injection E' as <-. exists (length (arrays h1)), []. rewrite Hcur in *.
    split; [|split; [exact Harr'|split; [|split; [exact Hnew | exact Hfresh]]]].
    + apply Hget; [|exact Hparent].
      simpl in Ep. injection Ep as <-. simpl.
      eapply preserved_trans; [apply preserved_NewArray|].
      eapply preserved_trans; [|eapply preserved_trans;
                                 [apply preserved_NewTable | apply preserved_appendElem]].
      eapply preserved_setItem; [|exact Hl]. exact Hit.
    + intros elems0 H0. unfold Elems in H0. apply lookup_lt_Some in H0. lia.
Qed.

(** ** The source functions and [Get] *)


Lemma parseTableHeader_Ok line (p p' : parser) :
  parseTableHeader line p = Ok tt p' ->
  exists name parts,
    headerName line = Some name
    /\ parseKeyParts (strings.TrimSpace name) = inr parts
    /\ Forall nonEmptyKey parts
    /\ (if isArrayHeader line then tableHeader_array parts p else tableHeader_plain parts p)
       = Ok tt p'.
Proof.
  unfold parseTableHeader, headerName, isArrayHeader. intros E.
  destruct (_ && _); [discriminate|]. destruct (_ && _); [discriminate|].
  destruct (slice _ _ _) as [name|]; [|discriminate].
  destruct (parseKeyParts _) as [err|parts] eqn:Hparts; [discriminate|].
  exists name, parts. split; [reflexivity|]. split; [exact Hparts|].
  split; [eapply parseKeyParts_nonEmpty, Hparts|].
  destruct (strings.HasPrefix _ "[["); exact E.
Qed.

Lemma parseTableHeader_plain_Get line (p p' : parser) :
  isArrayHeader line = false ->
  parseTableHeader line p = Ok tt p' ->
  exists name parts,
    headerName line = Some name
    /\ parseKeyParts (strings.TrimSpace name) = inr parts
    /\ Get (store p') (root p) parts = Some (NTable (cur p'))
    /\ root p' = root p.
Proof.
  intros Hk E. apply parseTableHeader_Ok in E as (name & parts & Hn & Hp & Hne & E).
  rewrite Hk in E. exists name, parts. split; [exact Hn|]. split; [exact Hp|].
  split; [eapply tableHeader_plain_Get; eassumption|].
  unfold tableHeader_plain in E. apply bind_Ok in E as (t & p1 & E & Ep).
  apply on_store_Ok in E as (h1 & _ & ->). injection Ep as <-. reflexivity.
Qed.

(** A table header that was accepted is accepted again in every
    later state, changes nothing in the store and makes the same
    table the current one. *)
Lemma parseTableHeader_again line (p p1 p2 : parser) :
  isArrayHeader line = false ->
  parseTableHeader line p = Ok tt p1 ->
  root p2 = root p -> preserved (store p1) (store p2) ->
  parseTableHeader line p2 = Ok tt (with_cur p2 (cur p1)).
Proof.
  intros Hk E Hroot Hpres. pose proof E as E0.
  apply parseTableHeader_Ok in E as (name & parts & Hn & Hp & Hne & E).
  rewrite Hk in E. apply (tableHeader_plain_Get _ _ _ Hne) in E.
  unfold Get in E. apply (Get_loop_preserved _ _ _ _ _ Hpres) in E. rewrite <- Hroot in E.
  unfold parseTableHeader, headerName, isArrayHeader in *.
  destruct (_ && _); [discriminate|]. destruct (_ && _); [discriminate|].
  rewrite Hk in *. rewrite Hn, Hp. simpl.
  apply tableHeader_plain_again; assumption.
Qed.

Lemma parseTableHeader_array_Get line (p p' : parser) :
  isArrayHeader line = true -> wf_parser p ->
  parseTableHeader line p = Ok tt p' ->
  exists name parts arr elems,
    headerName line = Some name
    /\ parseKeyParts (strings.TrimSpace name) = inr parts
    /\ Get (store p') (root p) parts = Some (NArray arr)
    /\ Elems (store p') arr = Some (elems ++ [NTable (cur p')])
    /\ (forall elems0, Elems (store p) arr = Some elems0 -> elems0 = elems)
    /\ Items (store p') (cur p') = Some ∅
    /\ Items (store p) (cur p') = None
    /\ root p' = root p.
Proof.
  intros Hk Hwf E. pose proof (parseTableHeader_inv _ _ _ Hwf E) as (_ & Hr & _).
  apply parseTableHeader_Ok in E as (name & parts & Hn & Hp & Hne & E).
  rewrite Hk in E.
  apply (tableHeader_array_Get _ _ _ Hne Hwf) in E as (arr & elems & H1 & H2 & H3 & H4 & H5).
  exists name, parts, arr, elems. auto 10.
Qed.

(** ** [findUnquotedEqual] *)

(** The result of the loop of [findUnquotedEqual] is -1 or the index
    of a byte [=] of the string. *)
Lemma findUnquotedEqual_loop_spec n : forall s i q,
  String.length s <= n ->
  findUnquotedEqual_loop s i q = (-1)%Z
  \/ exists k, findUnquotedEqual_loop s i q = (i + Z.of_nat k)%Z
               /\ String.get k s = Some Ch.eq.
Proof.
  induction n as [|n IH]; intros s i q Hn; destruct s as [|ch s1]; simpl in Hn; try lia;
    [left; reflexivity | left; reflexivity |].
  assert (forall j q', (j = i + 1)%Z ->
            findUnquotedEqual_loop s1 j q' = (-1)%Z
            \/ exists k, findUnquotedEqual_loop s1 j q' = (i + Z.of_nat k)%Z
                         /\ String.get k (String ch s1) = Some Ch.eq) as Hnext.
  { intros j q' ->. destruct (IH s1 (i + 1)%Z q' ltac:(lia)) as [E|(k & E & Hk)]; [auto|].
    right. exists (S k). split; [rewrite E; lia | exact Hk]. }
  assert (forall c1 s2 j q', s1 = String c1 s2 -> (j = i + 2)%Z ->
            findUnquotedEqual_loop s2 j q' = (-1)%Z
            \/ exists k, findUnquotedEqual_loop s2 j q' = (i + Z.of_nat k)%Z
                         /\ String.get k (String ch s1) = Some Ch.eq) as Hnext2.
  { intros c1 s2 j q' -> ->. simpl in Hn.
    destruct (IH s2 (i + 2)%Z q' ltac:(lia)) as [E|(k & E & Hk)]; [auto|].
    right. exists (S (S k)). split; [rewrite E; lia | exact Hk]. }
  assert (forall c1 c2 s3 j q', s1 = String c1 (String c2 s3) -> (j = i + 3)%Z ->
            findUnquotedEqual_loop s3 j q' = (-1)%Z
            \/ exists k, findUnquotedEqual_loop s3 j q' = (i + Z.of_nat k)%Z
                         /\ String.get k (String ch s1) = Some Ch.eq) as Hnext3.
  { intros c1 c2 s3 j q' -> ->. simpl in Hn.
    destruct (IH s3 (i + 3)%Z q' ltac:(lia)) as [E|(k & E & Hk)]; [auto|].
    right. exists (S (S (S k))). split; [rewrite E; lia | exact Hk]. }
  cbn -[triple_at].
  repeat case_match; subst;
    first [ left; reflexivity
          | apply Hnext; reflexivity
          | eapply Hnext2; reflexivity
          | eapply Hnext3; reflexivity
          | idtac ].
  right. exists 0. split; [f_equal; lia|]. simpl.
  match goal with H : isb ch Ch.eq = true |- _ => apply (reflect_iff _ _ (isb_spec _ _)) in H end.
  congruence.
Qed.

Lemma get_take_drop k : forall s c,
  String.get k s = Some c ->
  s = strings.take k s +:+ String c (strings.drop (S k) s) /\ k < String.length s.
Proof.
  induction k as [|k IH]; intros [|c0 s] c E; simpl in E; try discriminate.
  - injection E as <-. split; [reflexivity | simpl; lia].
  - destruct (IH _ _ E) as [Hs Hl]. split; [|simpl; lia].
    change (String c0 s = String c0 (strings.take k s +:+ String c (strings.drop (S k) s))).
    rewrite <- Hs. reflexivity.
Qed.

Lemma findUnquotedEqual_spec s :
  findUnquotedEqual s = (-1)%Z
  \/ exists k, findUnquotedEqual s = Z.of_nat k
               /\ k < String.length s
               /\ s = strings.take k s +:+ String Ch.eq (strings.drop (k + 1) s).
Proof.
  unfold findUnquotedEqual.
  destruct (findUnquotedEqual_loop_spec _ s 0%Z noQuotes (le_n _)) as [E|(k & E & Hk)];
    [auto|].
  right. exists k. split; [rewrite E; lia|].
  apply get_take_drop in Hk as [Hs Hl]. split; [exact Hl|].
  rewrite Nat.add_1_r. exact Hs.
Qed.

Lemma findUnquotedEqual_loop_plain key rest : forall i,
  Forall (fun c => c <> Ch.dq /\ c <> Ch.sq /\ c <> Ch.eq) (list_ascii_of_string key) ->
  findUnquotedEqual_loop (key +:+ String Ch.eq rest) i noQuotes
  = (i + Z.of_nat (String.length key))%Z.
Proof.
  induction key as [|c key IH]; intros i Hk.
  - change (findUnquotedEqual_loop (EmptyString +:+ String Ch.eq rest) i noQuotes) with i.
    simpl. lia.
  - simpl in Hk. apply Forall_cons in Hk as [(Hdq & Hsq & Heq) Hk].
    change (String c key +:+ String Ch.eq rest) with (String c (key +:+ String Ch.eq rest)).
    cbn -[triple_at].
    destruct (isb_spec c Ch.dq) as [->|_]; [congruence|].
    destruct (isb_spec c Ch.sq) as [->|_]; [congruence|].
    destruct (isb_spec c Ch.eq) as [->|_]; [congruence|].
    rewrite IH by exact Hk. simpl String.length. lia.
Qed.

(** ** The elements of a literal array and the pairs of an inline table *)

Section Elements.
Variable pv : string -> heap -> outcome heap Node.
Hypothesis pv_allocates : forall s h n h', pv s h = Ok n h' -> allocates_only h n h'.








End Elements.




(** ** The brackets of a literal array *)

Lemma take_app_string a b : strings.take (String.length a) (a +:+ b) = a.
Proof.
  induction a as [|c a IH]; [destruct b; reflexivity|].
  change (String c (strings.take (String.length a) (a +:+ b)) = String c a).
  rewrite IH. reflexivity.
Qed.

Lemma slice_inner c0 body c1 :
  slice (String c0 (body +:+ str1 c1)) 1 (Z.of_nat (len (String c0 (body +:+ str1 c1))) - 1)
  = Some body.
Proof.
  unfold slice, len. simpl String.length. rewrite length_app_string. simpl String.length.
  replace (Z.of_nat (S (String.length body + 1)) - 1 - 1)%Z
    with (Z.of_nat (String.length body)) by lia.
  rewrite Nat2Z.id. change (Z.to_nat 1) with 1. cbn [strings.drop].
  rewrite take_app_string.
  destruct (_ && _) eqn:E; [reflexivity|].
  apply andb_false_iff in E as [E|E]; [apply andb_false_iff in E as [E|E]|];
    [apply Z.leb_gt in E | apply Z.leb_gt in E | apply Z.leb_gt in E]; lia.
Qed.

(** [parseArrayToken] takes off the last byte of the text without
    looking at it. *)
Lemma parseArrayToken_last_byte pv s1 s2 body c1 c2 (h : heap) :
  strings.TrimSpace (stripCommentPreserveStrings s1) = String Ch.lbrack (body +:+ str1 c1) ->
  strings.TrimSpace (stripCommentPreserveStrings s2) = String Ch.lbrack (body +:+ str1 c2) ->
  parseArrayToken pv s1 h = parseArrayToken pv s2 h.
Proof.
  intros H1 H2. unfold parseArrayToken. rewrite H1, H2.
  rewrite !slice_inner. reflexivity.
Qed.

(** A text that is the opening bracket alone. *)
Lemma parseArrayToken_one_bracket pv s (h : heap) :
  strings.TrimSpace (stripCommentPreserveStrings s) = "[" ->
  parseArrayToken pv s h = Panic.
Proof. intros H. unfold parseArrayToken. rewrite H. reflexivity. Qed.

Lemma tableHeader_array_mixed (p : parser) front last parent h1 items arr elems e :
  walk (notTable p) front (root p) (store p) = Ok parent h1 ->
  Items h1 parent = Some items -> items !! last = Some (NArray arr) ->
  Elems h1 arr = Some elems -> e ∈ elems -> Kind e <> ValueTable ->
  exists p' elems',
    tableHeader_array (front ++ [last]) p = Ok tt p'
    /\ Elems (store p') arr = Some elems'
    /\ ~ homogeneous elems'.
Proof.
  intros Hw Hit Hl Hel He Hk.
  destruct (tableHeader_array_append p front last parent h1 items (NArray arr)
              (conj Hit Hl) Hw arr elems eq_refl Hel)
    as (p' & E & _ & _ & _ & Harr & _).
  exists p', (elems ++ [NTable (cur p')]). split; [exact E|]. split; [exact Harr|].
  intros Hh. apply Hk. apply (Hh e (NTable (cur p'))).
  - apply elem_of_app. left. exact He.
  - apply elem_of_app. right. apply list_elem_of_singleton. reflexivity.
Qed.

(** ** [stripCommentPreserveStrings] *)

Lemma WriteByte_app b c : WriteByte b c = b +:+ str1 c.
Proof. reflexivity. Qed.

Lemma app_cons_string c a b : String c a +:+ b = String c (a +:+ b).
Proof. reflexivity. Qed.

Lemma app_nil_l_string b : EmptyString +:+ b = b.
Proof. reflexivity. Qed.

(** The builder of the loop is only appended to. *)
Lemma stripComment_loop_acc n : forall s q b,
  String.length s <= n ->
  stripComment_loop s q b = b +:+ stripComment_loop s q EmptyString.
Proof.
  induction n as [|n IH]; intros s q b Hn; destruct s as [|ch s1]; simpl in Hn; try lia;
    try (simpl; rewrite app_nil_r_string; reflexivity).
  cbn -[triple_at WriteByte WriteString].
  repeat case_match; subst; simpl in Hn;
    unfold WriteString, WriteByte, triple, str1;
    rewrite ?app_nil_l_string, ?app_nil_r_string;
    try reflexivity;
    repeat match goal with
           | |- context [stripComment_loop ?s ?q ?b] =>
               lazymatch b with
               | EmptyString => fail
               | _ => rewrite (IH s q b) by (simpl; lia)
               end
           end;
    rewrite ?app_assoc_string; reflexivity.
Qed.

Lemma isb_true a b : isb a b = true -> a = b.
Proof. intros H. destruct (isb_spec a b); [assumption | discriminate]. Qed.

Lemma isb_false a b : isb a b = false -> a <> b.
Proof. intros H. destruct (isb_spec a b); [discriminate | assumption]. Qed.

Lemma triple_at_true c s :
  triple_at c s = true -> exists s3, s = String c (String c (String c s3)).
Proof.
  destruct s as [|c0 [|c1 [|c2 s3]]]; try discriminate. simpl. intros H.
  apply andb_true_iff in H as [H H2]. apply andb_true_iff in H as [H0 H1].
  apply isb_true in H0, H1, H2. subst. eauto.
Qed.

(** What [stripCommentPreserveStrings] returns is the text up to a
    byte [#], or the whole text. *)
Lemma stripComment_loop_cut n : forall s q,
  String.length s <= n ->
  exists rest,
    s = stripComment_loop s q EmptyString +:+ rest
    /\ (rest = EmptyString \/ exists r, rest = String Ch.hash r).
Proof.
  induction n as [|n IH]; intros s q Hn; destruct s as [|ch s1]; simpl in Hn; try lia;
    try (exists EmptyString; split; [reflexivity | left; reflexivity]).
  assert (forall s' q' b,
            String.length s' <= n -> String ch s1 = b +:+ s' ->
            exists rest,
              String ch s1 = stripComment_loop s' q' b +:+ rest
              /\ (rest = EmptyString \/ exists r, rest = String Ch.hash r)) as Hnext.
  { intros s' q' b Hs' Hb. destruct (IH s' q' Hs') as (rest & Hs & Hr).
    exists rest. split; [|exact Hr].
    rewrite (stripComment_loop_acc _ s' q' b (le_n _)), app_assoc_string, <- Hs. exact Hb. }
  cbn -[triple_at WriteByte WriteString].
  repeat case_match; subst; simpl in Hn;
    repeat match goal with
           | H : triple_at _ _ = true |- _ =>
               apply triple_at_true in H as [? H]; simplify_eq
           end;
    try (apply Hnext; [simpl in *; lia | reflexivity]).
  all: try (match goal with H : isb _ Ch.hash = true |- _ => apply isb_true in H; subst end;
            eexists; split; [reflexivity | right; eauto]).
Qed.

Lemma triple_at_app c a r : triple_at c a = true -> triple_at c (a +:+ r) = true.
Proof.
  intros H. apply triple_at_true in H as [s3 ->]. simpl. unfold isb.
  rewrite !Ascii.eqb_refl. reflexivity.
Qed.

Lemma triple_at_same c s : triple_at c (String c (String c (String c s))) = true.
Proof. simpl. unfold isb. rewrite !Ascii.eqb_refl. reflexivity. Qed.

Lemma triple_at_prefix c a r : triple_at c (a +:+ r) = false -> triple_at c a = false.
Proof.
  intros H. destruct (triple_at c a) eqn:E; [|reflexivity].
  apply (triple_at_app _ _ r) in E. congruence.
Qed.

Lemma stripComment_loop_prefix s q :
  exists rest, s = stripComment_loop s q EmptyString +:+ rest.
Proof. destruct (stripComment_loop_cut _ s q (le_n _)) as (rest & H & _). eauto. Qed.

(** One turn of the loop on a text that begins with the bytes the
    turn writes. *)
Ltac strip_rewrite_flags :=
  repeat match goal with
         | H : ?x = true |- context [if ?x then _ else _] => rewrite H
         | H : ?x = false |- context [if ?x then _ else _] => rewrite H
         end.

(** Stripping the comment a second time changes nothing. *)
Lemma stripComment_loop_idem n : forall s q,
  String.length s <= n ->
  stripComment_loop (stripComment_loop s q EmptyString) q EmptyString
  = stripComment_loop s q EmptyString.
Proof.
  induction n as [|n IH]; intros s q Hn; destruct s as [|ch s1]; simpl in Hn; try lia;
    try reflexivity.
  cbn -[triple_at WriteByte WriteString].
  repeat case_match; subst; simpl in Hn;
    repeat match goal with
           | H : triple_at _ _ = true |- _ =>
               apply triple_at_true in H as [? H]; simplify_eq
           end;
    try reflexivity;
    unfold WriteString, WriteByte, triple, str1; rewrite ?app_nil_l_string;
    repeat match goal with
           | |- context [stripComment_loop ?s ?q ?b] =>
               lazymatch b with
               | EmptyString => fail
               | _ => rewrite (stripComment_loop_acc _ s q b (le_n _))
               end
           end;
    rewrite ?app_cons_string, ?app_nil_l_string.
  all: match goal with
       | |- context [stripComment_loop ?s' ?q' EmptyString] =>
           lazymatch s' with
           | context [stripComment_loop] => fail
           | _ =>
               let out := fresh "out" in
               let Hout := fresh "Hout" in
               let Hpre := fresh "Hpre" in
               let rest := fresh "rest" in
               assert (String.length s' <= n) as Hlen by (simpl in *; lia);
               pose proof (IH s' q' Hlen) as Hout;
               destruct (stripComment_loop_prefix s' q') as [rest Hpre];
               remember (stripComment_loop s' q' EmptyString) as out
           end
       end.
  all: repeat rewrite app_cons_string; repeat rewrite app_nil_l_string;
       cbn -[triple_at WriteByte WriteString]; strip_rewrite_flags;
       rewrite ?triple_at_same;
       repeat match goal with
              | H : triple_at ?c (String ?ch ?s1) = false, Hpre : ?s1 = ?out +:+ ?rest
                |- context [triple_at ?c (String ?ch ?out)] =>
                  rewrite (triple_at_prefix c (String ch out) rest)
                    by (rewrite app_cons_string, <- Hpre; exact H)
              end;
       unfold WriteString, WriteByte, triple, str1; rewrite ?app_nil_l_string;
       repeat match goal with
              | |- context [stripComment_loop ?s ?q ?b] =>
                  lazymatch b with
                  | EmptyString => fail
                  | _ => rewrite (stripComment_loop_acc _ s q b (le_n _))
                  end
              end;
       rewrite ?Hout; try reflexivity.
  all: subst out; reflexivity.
Qed.

Lemma stripComment_idempotent s :
  stripCommentPreserveStrings (stripCommentPreserveStrings s) = stripCommentPreserveStrings s.
Proof. apply (stripComment_loop_idem _ s noQuotes (le_n _)). Qed.

Lemma stripComment_cut s :
  exists rest,
    s = stripCommentPreserveStrings s +:+ rest
    /\ (rest = EmptyString \/ exists r, rest = String Ch.hash r).
Proof. apply (stripComment_loop_cut _ s noQuotes (le_n _)). Qed.

(** A text without the byte [#] is returned as it is. *)
Lemma stripComment_no_hash s :
  Forall (fun c => c <> Ch.hash) (list_ascii_of_string s) ->
  stripCommentPreserveStrings s = s.
Proof.
  intros Hs. destruct (stripComment_cut s) as (rest & E & [->|[r ->]]).
  - rewrite app_nil_r_string in E. symmetry. exact E.
  - exfalso. rewrite E in Hs. clear E. revert Hs.
    generalize (stripCommentPreserveStrings s). intros a.
    induction a as [|c a IH]; simpl; intros H; apply Forall_cons in H as [H1 H2];
      [congruence | auto].
Qed.

(** ** [strings.TrimSpace] on texts with ASCII blanks around them *)

Lemma list_ascii_of_string_app a b :
  list_ascii_of_string (a +:+ b) = list_ascii_of_string a ++ list_ascii_of_string b.
Proof.
  induction a as [|c a IH]; [reflexivity|].
  change (c :: list_ascii_of_string (a +:+ b) = c :: (list_ascii_of_string a ++ list_ascii_of_string b)).
  rewrite IH. reflexivity.
Qed.

Lemma string_of_list_ascii_app l1 l2 :
  string_of_list_ascii (l1 ++ l2) = string_of_list_ascii l1 +:+ string_of_list_ascii l2.
Proof.
  induction l1 as [|c l1 IH]; [reflexivity|].
  change (String c (string_of_list_ascii (l1 ++ l2))
          = String c (string_of_list_ascii l1 +:+ string_of_list_ascii l2)).
  rewrite IH. reflexivity.
Qed.

Lemma space2_solid_l c1 c2 : solid c1 -> strings.space2 c1 c2 = false.
Proof.
  intros [_ H]. unfold strings.space2.
  destruct (Z.eqb_spec (byteZ c1) 194); [lia | reflexivity].
Qed.

Lemma space3_solid_l c1 c2 c3 : solid c1 -> strings.space3 c1 c2 c3 = false.
Proof.
  intros [_ H]. unfold strings.space3. cbv zeta.
  destruct (Z.eqb_spec (byteZ c1) 225); [lia|].
  destruct (Z.eqb_spec (byteZ c1) 226); [lia|].
  destruct (Z.eqb_spec (byteZ c1) 227); [lia|]. reflexivity.
Qed.

Lemma space2_solid_r c1 c2 : solid c2 -> strings.space2 c1 c2 = false.
Proof.
  intros [_ H]. unfold strings.space2.
  destruct (Z.eqb_spec (byteZ c2) 133); [lia|].
  destruct (Z.eqb_spec (byteZ c2) 160); [lia|]. apply andb_false_r.
Qed.

Lemma space3_solid_r c1 c2 c3 : solid c3 -> strings.space3 c1 c2 c3 = false.
Proof.
  intros [_ H]. unfold strings.space3. cbv zeta.
  destruct (Z.eqb_spec (byteZ c3) 128); [lia|].
  destruct (Z.eqb_spec (byteZ c3) 168); [lia|].
  destruct (Z.eqb_spec (byteZ c3) 169); [lia|].
  destruct (Z.eqb_spec (byteZ c3) 175); [lia|].
  destruct (Z.eqb_spec (byteZ c3) 159); [lia|].
  destruct (Z.leb_spec 128 (byteZ c3)); [lia|].
  rewrite !andb_false_r. reflexivity.
Qed.

Lemma TrimLeftSpace_solid c l : solid c -> strings.TrimLeftSpace (c :: l) = c :: l.
Proof.
  intros Hc. simpl. rewrite (proj1 Hc).
  destruct l as [|c2 l2]; [reflexivity|]. rewrite space2_solid_l by exact Hc.
  destruct l2 as [|c3 l3]; [reflexivity|]. rewrite space3_solid_l by exact Hc. reflexivity.
Qed.

Lemma TrimRightSpace_rev_solid c l :
  solid c -> strings.TrimRightSpace_rev (c :: l) = c :: l.
Proof.
  intros Hc. simpl. rewrite (proj1 Hc).
  destruct l as [|c2 l2]; [reflexivity|]. rewrite space2_solid_r by exact Hc.
  destruct l2 as [|c3 l3]; [reflexivity|]. rewrite space3_solid_r by exact Hc. reflexivity.
Qed.

Lemma TrimLeftSpace_pad pad l :
  Forall (fun c => strings.asciiSpace c = true) pad ->
  strings.TrimLeftSpace (pad ++ l) = strings.TrimLeftSpace l.
Proof.
  induction 1 as [|c pad Hc _ IH]; [reflexivity|].
  simpl. rewrite Hc. exact IH.
Qed.

Lemma TrimRightSpace_rev_pad pad l :
  Forall (fun c => strings.asciiSpace c = true) pad ->
  strings.TrimRightSpace_rev (pad ++ l) = strings.TrimRightSpace_rev l.
Proof.
  induction 1 as [|c pad Hc _ IH]; [reflexivity|].
  simpl. rewrite Hc. exact IH.
Qed.

(** ASCII white space around a text that begins and ends with a byte
    that is not white space is what [TrimSpace] takes off. *)
Lemma TrimSpace_between pad1 c1 mid c2 pad2 :
  Forall (fun c => strings.asciiSpace c = true) (list_ascii_of_string pad1) ->
  Forall (fun c => strings.asciiSpace c = true) (list_ascii_of_string pad2) ->
  solid c1 -> solid c2 ->
  strings.TrimSpace (pad1 +:+ String c1 (mid +:+ String c2 pad2))
  = String c1 (mid +:+ str1 c2).
Proof.
  intros H1 H2 Hc1 Hc2. unfold strings.TrimSpace.
  rewrite list_ascii_of_string_app. rewrite (TrimLeftSpace_pad _ _ H1).
  cbn [list_ascii_of_string]. rewrite (TrimLeftSpace_solid _ _ Hc1).
  rewrite list_ascii_of_string_app. cbn [list_ascii_of_string].
  replace (rev (c1 :: list_ascii_of_string mid ++ c2 :: list_ascii_of_string pad2))
    with (rev (list_ascii_of_string pad2) ++ c2 :: rev (c1 :: list_ascii_of_string mid)).
  2: { simpl. rewrite rev_app_distr. simpl. rewrite <- !app_assoc. reflexivity. }
  rewrite TrimRightSpace_rev_pad by (apply Forall_rev; exact H2).
  rewrite (TrimRightSpace_rev_solid _ _ Hc2).
  simpl. rewrite rev_app_distr, rev_involutive. simpl.
  change (String c1 (string_of_list_ascii (list_ascii_of_string mid ++ [c2]))
          = String c1 (mid +:+ str1 c2)).
  rewrite string_of_list_ascii_app, string_of_list_ascii_of_string. reflexivity.
Qed.

(** The same for a text of one byte. *)
Lemma TrimSpace_single pad1 c pad2 :
  Forall (fun c => strings.asciiSpace c = true) (list_ascii_of_string pad1) ->
  Forall (fun c => strings.asciiSpace c = true) (list_ascii_of_string pad2) ->
  solid c ->
  strings.TrimSpace (pad1 +:+ String c pad2) = str1 c.
Proof.
  intros H1 H2 Hc. unfold strings.TrimSpace.
  rewrite list_ascii_of_string_app. rewrite (TrimLeftSpace_pad _ _ H1).
  cbn [list_ascii_of_string]. rewrite (TrimLeftSpace_solid _ _ Hc).
  replace (rev (c :: list_ascii_of_string pad2))
    with (rev (list_ascii_of_string pad2) ++ [c]) by reflexivity.
  rewrite TrimRightSpace_rev_pad by (apply Forall_rev; exact H2).
  rewrite (TrimRightSpace_rev_solid _ _ Hc). reflexivity.
Qed.

(** ** Quoted strings *)

Lemma bytes_cons P c s : bytes P (String c s) <-> P c /\ bytes P s.
Proof. unfold bytes. simpl. apply Forall_cons. Qed.

(** Outside quotes, bytes other than quotes and [#] are copied. *)
Lemma stripComment_loop_plain a t :
  bytes (fun c => c <> Ch.dq /\ c <> Ch.sq /\ c <> Ch.hash) a ->
  stripComment_loop (a +:+ t) noQuotes EmptyString
  = a +:+ stripComment_loop t noQuotes EmptyString.
Proof.
  induction a as [|c a IH]; intros Ha; [reflexivity|].
  apply bytes_cons in Ha as [(Hdq & Hsq & Hh) Ha].
  rewrite !app_cons_string. cbn -[triple_at WriteByte].
  destruct (isb_spec c Ch.dq) as [->|_]; [congruence|].
  destruct (isb_spec c Ch.sq) as [->|_]; [congruence|].
  destruct (isb_spec c Ch.hash) as [->|_]; [congruence|].
  rewrite (stripComment_loop_acc _ _ _ _ (le_n _)), IH by exact Ha. reflexivity.
Qed.

(** Inside a basic string, up to the closing quote. *)
Lemma stripComment_loop_basic body t :
  bytes (fun c => c <> Ch.dq /\ c <> Ch.backslash) body ->
  stripComment_loop (body +:+ String Ch.dq t) qBasic EmptyString
  = body +:+ String Ch.dq (stripComment_loop t noQuotes EmptyString).
Proof.
  induction body as [|c body IH]; intros Hb.
  - rewrite !app_nil_l_string.
    change (stripComment_loop (String Ch.dq t) qBasic EmptyString)
      with (stripComment_loop t noQuotes (WriteByte EmptyString Ch.dq)).
    rewrite (stripComment_loop_acc _ _ _ _ (le_n _)). reflexivity.
  - apply bytes_cons in Hb as [(Hdq & Hbs) Hb].
    rewrite !app_cons_string. cbn -[triple_at WriteByte].
    destruct (isb_spec c Ch.backslash) as [->|_]; [congruence|].
    destruct (isb_spec c Ch.dq) as [->|_]; [congruence|].
    rewrite (stripComment_loop_acc _ _ _ _ (le_n _)). fold qBasic.
    rewrite IH by exact Hb. reflexivity.
Qed.

(** Inside a literal string, up to the closing quote. *)
Lemma stripComment_loop_literal body t :
  bytes (fun c => c <> Ch.sq) body ->
  stripComment_loop (body +:+ String Ch.sq t) qLiteral EmptyString
  = body +:+ String Ch.sq (stripComment_loop t noQuotes EmptyString).
Proof.
  induction body as [|c body IH]; intros Hb.
  - rewrite !app_nil_l_string.
    change (stripComment_loop (String Ch.sq t) qLiteral EmptyString)
      with (stripComment_loop t noQuotes (WriteByte EmptyString Ch.sq)).
    rewrite (stripComment_loop_acc _ _ _ _ (le_n _)). reflexivity.
  - apply bytes_cons in Hb as [Hsq Hb].
    rewrite !app_cons_string. cbn -[triple_at WriteByte].
    destruct (isb_spec c Ch.sq) as [->|_]; [congruence|].
    rewrite (stripComment_loop_acc _ _ _ _ (le_n _)). fold qLiteral.
    rewrite IH by exact Hb. reflexivity.
Qed.

Lemma asciiSpace_plain c :
  strings.asciiSpace c = true -> c <> Ch.dq /\ c <> Ch.sq /\ c <> Ch.hash.
Proof. intros H. repeat split; intros ->; discriminate H. Qed.

Lemma stripComment_loop_lineEnd pad tail :
  lineEnd pad tail ->
  stripComment_loop (pad +:+ tail) noQuotes EmptyString = pad.
Proof.
  intros [Hpad Htail]. rewrite stripComment_loop_plain.
  - destruct Htail as [->|[comment ->]]; cbn; apply app_nil_r_string.
  - eapply Forall_impl; [exact Hpad|]. apply asciiSpace_plain.
Qed.

Lemma lineEnd_not_quote q pad tail s3 :
  lineEnd pad tail -> (q = Ch.dq \/ q = Ch.sq) -> pad +:+ tail <> String q s3.
Proof.
  intros [Hpad Htail] Hq E. destruct pad as [|c pad].
  - rewrite app_nil_l_string in E. destruct Htail as [->|[comment ->]]; [discriminate|].
    injection E as E _. destruct Hq as [-> | ->]; discriminate E.
  - rewrite app_cons_string in E. injection E as -> _.
    apply bytes_cons in Hpad as [Hc _]. destruct Hq as [-> | ->]; discriminate Hc.
Qed.

(** A quoted text followed by the end of a line is not the opening of
    a triple-quoted string. *)
Lemma triple_at_quoted q body pad tail :
  (q = Ch.dq \/ q = Ch.sq) -> bytes (fun c => c <> q) body -> lineEnd pad tail ->
  triple_at q (String q (body +:+ String q (pad +:+ tail))) = false.
Proof.
  intros Hq Hb He. destruct (triple_at q _) eqn:E; [|reflexivity]. exfalso.
  apply triple_at_true in E as [s3 E]. injection E as E.
  destruct body as [|c body].
  - rewrite app_nil_l_string in E. injection E as E.
    eapply lineEnd_not_quote; eassumption.
  - rewrite app_cons_string in E. injection E as -> _.
    apply bytes_cons in Hb as [Hc _]. congruence.
Qed.

Lemma stripComment_basic_string pad1 body pad2 tail :
  bytes (fun c => strings.asciiSpace c = true) pad1 ->
  bytes (fun c => c <> Ch.dq /\ c <> Ch.backslash) body ->
  lineEnd pad2 tail ->
  stripCommentPreserveStrings (pad1 +:+ String Ch.dq (body +:+ String Ch.dq (pad2 +:+ tail)))
  = pad1 +:+ String Ch.dq (body +:+ String Ch.dq pad2).
Proof.
  intros H1 Hb He. unfold stripCommentPreserveStrings.
  rewrite stripComment_loop_plain
    by (eapply Forall_impl; [exact H1 | apply asciiSpace_plain]).
  f_equal. cbn -[triple_at WriteByte WriteString].
  rewrite triple_at_quoted;
    [|auto|eapply Forall_impl; [exact Hb|]; simpl; tauto|exact He].
  rewrite (stripComment_loop_acc _ _ _ _ (le_n _)). fold qBasic.
  rewrite stripComment_loop_basic by exact Hb.
  rewrite stripComment_loop_lineEnd by exact He. reflexivity.
Qed.

Lemma stripComment_literal_string pad1 body pad2 tail :
  bytes (fun c => strings.asciiSpace c = true) pad1 ->
  bytes (fun c => c <> Ch.sq) body ->
  lineEnd pad2 tail ->
  stripCommentPreserveStrings (pad1 +:+ String Ch.sq (body +:+ String Ch.sq (pad2 +:+ tail)))
  = pad1 +:+ String Ch.sq (body +:+ String Ch.sq pad2).
Proof.
  intros H1 Hb He. unfold stripCommentPreserveStrings.
  rewrite stripComment_loop_plain
    by (eapply Forall_impl; [exact H1 | apply asciiSpace_plain]).
  f_equal. cbn -[triple_at WriteByte WriteString isb].
  change (isb Ch.sq Ch.dq) with false. change (isb Ch.sq Ch.sq) with true.
  cbn -[triple_at WriteByte WriteString isb].
  rewrite triple_at_quoted; [|auto|exact Hb|exact He].
  rewrite (stripComment_loop_acc _ _ _ _ (le_n _)). fold qLiteral.
  rewrite stripComment_loop_literal by exact Hb.
  rewrite stripComment_loop_lineEnd by exact He. reflexivity.
Qed.

(** ** Decoding string literals *)

Lemma basicBody_escapeBasic s : basicBody (escapeBasic s) s.
Proof.
  induction s as [|c s IH]; [constructor|]. simpl.
  destruct (isb_spec c Ch.dq) as [->|Hdq]; [apply basicBody_escape; [reflexivity | exact IH]|].
  destruct (isb_spec c Ch.backslash) as [->|Hbs];
    [apply basicBody_escape; [reflexivity | exact IH]|].
  apply basicBody_byte; assumption.
Qed.

Lemma decodeEscapes_cons_plain c s out :
  c <> Ch.backslash ->
  decodeEscapes (String c s) 0 out = decodeEscapes s 0 (WriteByte out c).
Proof. intros Hc. simpl. destruct (isb_spec c Ch.backslash); [congruence | reflexivity]. Qed.

Lemma decodeEscapes_cons_escape e c s out :
  simpleEscape e = Some c ->
  decodeEscapes (String Ch.backslash (String e s)) 0 out
  = decodeEscapes s 0 (WriteByte out c).
Proof.
  unfold simpleEscape. intros He.
  change (decodeEscapes (String Ch.backslash (String e s)) 0 out)
    with (if isb e "b"%char then decodeEscapes s 0 (WriteByte out Ch.bs)
          else if isb e "t"%char then decodeEscapes s 0 (WriteByte out Ch.tab)
          else if isb e "n"%char then decodeEscapes s 0 (WriteByte out Ch.nl)
          else if isb e "f"%char then decodeEscapes s 0 (WriteByte out Ch.ff)
          else if isb e "r"%char then decodeEscapes s 0 (WriteByte out Ch.cr)
          else if isb e Ch.dq then decodeEscapes s 0 (WriteByte out Ch.dq)
          else if isb e Ch.backslash then decodeEscapes s 0 (WriteByte out Ch.backslash)
          else if isb e "u"%char then
            if (len s <? 4)%nat then inl (errors_New "invalid unicode escape")
            else match parseHexRune (strings.take 4 s) with
                 | inl err => inl err
                 | inr r => decodeEscapes s 4 (WriteString out (utf8.AppendRune r))
                 end
          else if isb e "U"%char then
            if (len s <? 8)%nat then inl (errors_New "invalid unicode escape")
            else match parseHexRune (strings.take 8 s) with
                 | inl err => inl err
                 | inr r => decodeEscapes s 8 (WriteString out (utf8.AppendRune r))
                 end
          else inl (errors_New "unsupported escape")).
  repeat match type of He with
         | (if ?b then _ else _) = _ => destruct b
         end; simplify_eq; reflexivity.
Qed.

Lemma decodeEscapes_basicBody body s :
  basicBody body s -> forall out, decodeEscapes body 0 out = inr (out +:+ s).
Proof.
  induction 1 as [|c body s Hdq Hbs _ IH|e c body s He _ IH]; intros out.
  - simpl. rewrite app_nil_r_string. reflexivity.
  - rewrite decodeEscapes_cons_plain by exact Hbs. rewrite IH.
    unfold WriteByte. rewrite app_assoc_string. reflexivity.
  - rewrite (decodeEscapes_cons_escape _ _ _ _ He), IH.
    unfold WriteByte. rewrite app_assoc_string. reflexivity.
Qed.

Lemma stripComment_loop_basicBody body s t :
  basicBody body s ->
  stripComment_loop (body +:+ String Ch.dq t) qBasic EmptyString
  = body +:+ String Ch.dq (stripComment_loop t noQuotes EmptyString).
Proof.
  induction 1 as [|c body s Hdq Hbs _ IH|e c body s He _ IH].
  - apply (stripComment_loop_basic EmptyString). constructor.
  - rewrite !app_cons_string. cbn -[triple_at WriteByte].
    destruct (isb_spec c Ch.backslash) as [->|_]; [congruence|].
    destruct (isb_spec c Ch.dq) as [->|_]; [congruence|].
    rewrite (stripComment_loop_acc _ _ _ _ (le_n _)). fold qBasic.
    rewrite IH. reflexivity.
  - rewrite !app_cons_string.
    change (stripComment_loop (String Ch.backslash (String e (body +:+ String Ch.dq t)))
              qBasic EmptyString)
      with (stripComment_loop (body +:+ String Ch.dq t) qBasic
              (WriteByte (WriteByte EmptyString Ch.backslash) e)).
    rewrite (stripComment_loop_acc _ _ _ _ (le_n _)), IH. reflexivity.
Qed.

Lemma basicBody_head body s c rest : basicBody body s -> body = String c rest -> c <> Ch.dq.
Proof.
  intros H E. destruct H; simplify_eq; [assumption|].
  intros E. vm_compute in E. discriminate E.
Qed.

Lemma lastByte_snoc a c : lastByte (a +:+ str1 c) = Some c.
Proof.
  unfold lastByte. rewrite list_ascii_of_string_app, map_app. simpl.
  apply last_last.
Qed.

Lemma extractSingleQuoted_quoted q body :
  extractSingleQuoted (String q (body +:+ str1 q)) q = Some body.
Proof.
  unfold extractSingleQuoted.
  assert (exists c r, body +:+ str1 q = String c r) as (c & r & E)
    by (destruct body; [exists q, EmptyString | eexists _, _]; reflexivity).
  rewrite E. unfold isb. rewrite Ascii.eqb_refl. cbn [negb].
  rewrite <- E. pose proof (lastByte_snoc (String q body) q) as HL.
  rewrite app_cons_string in HL. rewrite HL.
  rewrite Ascii.eqb_refl. cbn [negb]. f_equal.
  unfold len. simpl String.length. rewrite length_app_string. simpl String.length.
  replace (S (String.length body + 1) - 2) with (String.length body) by lia.
  cbn [strings.drop]. apply take_app_string.
Qed.

(** A quoted text is not the opening of a triple-quoted string when
    the text between the quotes does not begin with the quote. *)
Lemma HasPrefix_triple_quoted q q' body :
  (forall c rest, body = String c rest -> c <> q') ->
  strings.HasPrefix (String q (body +:+ str1 q)) (triple q') = false.
Proof.
  intros Hb. unfold triple. cbn [strings.HasPrefix].
  destruct (isb q' q); [|reflexivity]. cbn [andb].
  destruct body as [|c rest].
  - rewrite app_nil_l_string. cbn. apply andb_false_r.
  - rewrite app_cons_string. cbn [strings.HasPrefix].
    destruct (isb_spec q' c) as [->|_]; [|reflexivity].
    exfalso. eapply Hb; reflexivity.
Qed.

Lemma triple_at_quoted' q body pad tail :
  (q = Ch.dq \/ q = Ch.sq) -> (forall c rest, body = String c rest -> c <> q) ->
  lineEnd pad tail ->
  triple_at q (String q (body +:+ String q (pad +:+ tail))) = false.
Proof.
  intros Hq Hb He. destruct (triple_at q _) eqn:E; [|reflexivity]. exfalso.
  apply triple_at_true in E as [s3 E]. injection E as E.
  destruct body as [|c body].
  - rewrite app_nil_l_string in E. injection E as E.
    eapply lineEnd_not_quote; eassumption.
  - rewrite app_cons_string in E. injection E as -> _. eapply Hb; reflexivity.
Qed.

Lemma stripComment_basicBody pad1 body s pad2 tail :
  bytes (fun c => strings.asciiSpace c = true) pad1 ->
  basicBody body s -> lineEnd pad2 tail ->
  stripCommentPreserveStrings (pad1 +:+ String Ch.dq (body +:+ String Ch.dq (pad2 +:+ tail)))
  = pad1 +:+ String Ch.dq (body +:+ String Ch.dq pad2).
Proof.
  intros H1 Hb He. unfold stripCommentPreserveStrings.
  rewrite stripComment_loop_plain
    by (eapply Forall_impl; [exact H1 | apply asciiSpace_plain]).
  f_equal. cbn -[triple_at WriteByte WriteString].
  rewrite triple_at_quoted';
    [|auto|intros c rest; apply basicBody_head with (1 := Hb)|exact He].
  rewrite (stripComment_loop_acc _ _ _ _ (le_n _)). fold qBasic.
  rewrite (stripComment_loop_basicBody _ _ _ Hb).
  rewrite stripComment_loop_lineEnd by exact He. reflexivity.
Qed.

Lemma solid_dq : solid Ch.dq.
Proof. split; reflexivity. Qed.

Lemma solid_sq : solid Ch.sq.
Proof. split; reflexivity. Qed.

(** A basic string on one line, with blanks around it and maybe a
    comment after it. *)
Lemma parseValue_body_basic_string pv pad1 body s pad2 tail (h : heap) :
  bytes (fun c => strings.asciiSpace c = true) pad1 ->
  basicBody body s -> lineEnd pad2 tail ->
  parseValue_body pv (pad1 +:+ String Ch.dq (body +:+ String Ch.dq (pad2 +:+ tail))) h
  = Ok (NValue ValueString (AString s)) h.
Proof.
  intros H1 Hb He. unfold parseValue_body. cbv zeta.
  rewrite (stripComment_basicBody _ _ _ _ _ H1 Hb He).
  rewrite (TrimSpace_between _ _ _ _ _ H1 (proj1 He) solid_dq solid_dq).
  change (isEmpty (String Ch.dq (body +:+ str1 Ch.dq))) with false. cbv iota.
  rewrite (HasPrefix_triple_quoted Ch.dq Ch.dq)
    by (intros c rest; apply basicBody_head with (1 := Hb)).
  change (strings.HasPrefix (String Ch.dq (body +:+ str1 Ch.dq)) (triple Ch.sq)) with false.
  change (strings.HasPrefix (String Ch.dq (body +:+ str1 Ch.dq)) (str1 Ch.dq)) with true.
  cbv iota. rewrite extractSingleQuoted_quoted.
  unfold decodeBasicString. rewrite (decodeEscapes_basicBody _ _ Hb). reflexivity.
Qed.

(** A literal string: the text between the quotes is the string. *)
Lemma parseValue_body_literal_string pv pad1 body pad2 tail (h : heap) :
  bytes (fun c => strings.asciiSpace c = true) pad1 ->
  bytes (fun c => c <> Ch.sq) body -> lineEnd pad2 tail ->
  parseValue_body pv (pad1 +:+ String Ch.sq (body +:+ String Ch.sq (pad2 +:+ tail))) h
  = Ok (NValue ValueString (AString body)) h.
Proof.
  intros H1 Hb He. unfold parseValue_body. cbv zeta.
  rewrite (stripComment_literal_string _ _ _ _ H1 Hb He).
  rewrite (TrimSpace_between _ _ _ _ _ H1 (proj1 He) solid_sq solid_sq).
  change (isEmpty (String Ch.sq (body +:+ str1 Ch.sq))) with false. cbv iota.
  change (strings.HasPrefix (String Ch.sq (body +:+ str1 Ch.sq)) (triple Ch.dq)) with false.
  cbv iota.
  rewrite (HasPrefix_triple_quoted Ch.sq Ch.sq).
  2: { intros c rest ->. apply bytes_cons in Hb as [Hc _]. exact Hc. }
  change (strings.HasPrefix (String Ch.sq (body +:+ str1 Ch.sq)) (str1 Ch.dq)) with false.
  change (strings.HasPrefix (String Ch.sq (body +:+ str1 Ch.sq)) (str1 Ch.sq)) with true.
  cbv iota. rewrite extractSingleQuoted_quoted. reflexivity.
Qed.

(** ** Bare keys *)

Lemma bareByte_neq c k :
  bareByte c -> (byteZ k < 45 \/ byteZ k = 46 \/ byteZ k = 47 \/ 58 <= byteZ k <= 64
                 \/ 91 <= byteZ k <= 94 \/ byteZ k = 96 \/ 123 <= byteZ k)%Z ->
  c <> k.
Proof. unfold bareByte. intros Hc Hk ->. cbv zeta in Hc. lia. Qed.

Lemma bareByte_isb c k :
  bareByte c -> (byteZ k < 45 \/ byteZ k = 46 \/ byteZ k = 47 \/ 58 <= byteZ k <= 64
                 \/ 91 <= byteZ k <= 94 \/ byteZ k = 96 \/ 123 <= byteZ k)%Z ->
  isb c k = false.
Proof.
  intros Hc Hk. destruct (isb_spec c k) as [E|_]; [|reflexivity].
  exfalso. eapply bareByte_neq; eassumption.
Qed.

Ltac bare_const := vm_compute; lia.

Lemma bareByte_solid c : bareByte c -> solid c.
Proof.
  intros Hc. split; [|unfold bareByte in Hc; cbv zeta in Hc; lia].
  unfold strings.asciiSpace.
  rewrite !(bareByte_isb c) by (first [exact Hc | left; vm_compute; reflexivity]).
  reflexivity.
Qed.

Lemma string_snoc s : s <> EmptyString -> exists a c, s = a +:+ str1 c.
Proof.
  induction s as [|c0 s IH]; [congruence|]. intros _.
  destruct s as [|c1 s].
  - exists EmptyString, c0. reflexivity.
  - destruct IH as (a & c & E); [discriminate|].
    exists (String c0 a), c. rewrite app_cons_string, <- E. reflexivity.
Qed.

Lemma bytes_app P a b : bytes P (a +:+ b) <-> bytes P a /\ bytes P b.
Proof. unfold bytes. rewrite list_ascii_of_string_app. apply Forall_app. Qed.

(** A text that begins and ends with a byte that is not white space
    is left as it is. *)
Lemma TrimSpace_solid_ends s :
  s <> EmptyString -> bytes solid s -> strings.TrimSpace s = s.
Proof.
  intros Hne Hs. destruct s as [|c1 s]; [congruence|].
  apply bytes_cons in Hs as [Hc1 Hs].
  destruct s as [|c2 s].
  - apply (TrimSpace_single EmptyString c1 EmptyString); [constructor|constructor|exact Hc1].
  - destruct (string_snoc (String c2 s)) as (mid & c & E); [discriminate|].
    rewrite E in *. apply bytes_app in Hs as [_ Hc]. apply bytes_cons in Hc as [Hc _].
    apply (TrimSpace_between EmptyString c1 mid c EmptyString);
      [constructor|constructor|exact Hc1|exact Hc].
Qed.

Lemma TrimSpace_bareKey k : bareKey k -> strings.TrimSpace k = k.
Proof.
  intros [Hne Hk]. apply TrimSpace_solid_ends; [exact Hne|].
  eapply Forall_impl; [exact Hk | apply bareByte_solid].
Qed.

(** Outside quotes, the bytes of a bare key are added to the segment
    under construction. *)
Lemma parseKeyParts_loop_bare k rest : forall parts cur,
  bytes bareByte k ->
  parseKeyParts_loop (k +:+ rest) parts cur Ch.nul false
  = parseKeyParts_loop rest parts (cur +:+ k) Ch.nul false.
Proof.
  induction k as [|c k IH]; intros parts cur Hk.
  - rewrite app_nil_r_string. reflexivity.
  - apply bytes_cons in Hk as [Hc Hk]. rewrite app_cons_string.
    cbn -[isb WriteByte strings.TrimSpace].
    change (isb Ch.nul Ch.nul) with true. cbn [negb].
    rewrite !(bareByte_isb c) by (first [exact Hc | left; vm_compute; reflexivity
                                        | right; left; vm_compute; reflexivity]).
    cbn [orb]. rewrite IH by exact Hk. unfold WriteByte, str1.
    rewrite app_assoc_string. reflexivity.
Qed.

Lemma parseKeyParts_loop_dotted ks : forall parts,
  ks <> [] -> Forall bareKey ks ->
  parseKeyParts_loop (dotted ks) parts EmptyString Ch.nul false = inr (parts ++ ks).
Proof.
  induction ks as [|k ks IH]; intros parts Hne Hks; [congruence|].
  apply Forall_cons in Hks as [Hk Hks]. destruct ks as [|k' ks].
  - simpl dotted. rewrite <- (app_nil_r_string k) at 1.
    rewrite parseKeyParts_loop_bare by apply Hk. rewrite app_nil_l_string.
    simpl. rewrite (TrimSpace_bareKey _ Hk).
    destruct (isEmpty_spec k) as [->|_]; [destruct Hk; congruence | reflexivity].
  - change (dotted (k :: k' :: ks)) with (k +:+ String Ch.dot (dotted (k' :: ks))).
    rewrite parseKeyParts_loop_bare by apply Hk. rewrite app_nil_l_string.
    cbn -[isb WriteByte strings.TrimSpace dotted].
    change (isb Ch.nul Ch.nul) with true. change (isb Ch.dot Ch.dq) with false.
    change (isb Ch.dot Ch.sq) with false. change (isb Ch.dot Ch.dot) with true.
    cbn [negb orb]. rewrite (TrimSpace_bareKey _ Hk).
    destruct (isEmpty_spec k) as [->|_]; [destruct Hk; congruence|]. cbn [negb].
    rewrite IH by (first [discriminate | exact Hks]).
    rewrite <- app_assoc. reflexivity.
Qed.

(** The segments of a dotted key of bare keys are the bare keys. *)
Lemma parseKeyParts_dotted ks :
  ks <> [] -> Forall bareKey ks -> parseKeyParts (dotted ks) = inr ks.
Proof. intros Hne Hks. apply (parseKeyParts_loop_dotted ks []); assumption. Qed.

(** ** [strings.TrimSpace] never goes past a byte that is not white space *)

Lemma space3_solid_m c1 c2 c3 : solid c2 -> strings.space3 c1 c2 c3 = false.
Proof.
  intros [_ H]. unfold strings.space3. cbv zeta.
  destruct (Z.eqb_spec (byteZ c2) 154); [lia|].
  destruct (Z.eqb_spec (byteZ c2) 128); [lia|].
  destruct (Z.eqb_spec (byteZ c2) 129); [lia|].
  rewrite !andb_false_r. reflexivity.
Qed.

Lemma TrimRightSpace_rev_anchor n : forall l c X,
  length l <= n -> solid c ->
  exists l', strings.TrimRightSpace_rev (l ++ c :: X) = l' ++ c :: X.
Proof.
  induction n as [|n IH]; intros l c X Hn Hc.
  - destruct l; [|simpl in Hn; lia]. exists []. apply TrimRightSpace_rev_solid, Hc.
  - destruct l as [|c1 l1]; [exists []; apply TrimRightSpace_rev_solid, Hc|].
    simpl in Hn. cbn [app strings.TrimRightSpace_rev].
    destruct (strings.asciiSpace c1); [apply IH; [lia | exact Hc]|].
    destruct l1 as [|c2 l2].
    + cbn [app]. rewrite (space2_solid_l c c1 Hc).
      destruct X as [|c3 X]; [exists [c1]; reflexivity|].
      rewrite (space3_solid_m c3 c c1 Hc). exists [c1]. reflexivity.
    + cbn [app]. simpl in Hn.
      destruct (strings.space2 c2 c1); [apply IH; [lia | exact Hc]|].
      destruct l2 as [|c3 l3].
      * cbn [app]. rewrite (space3_solid_l c c2 c1 Hc). exists [c1; c2]. reflexivity.
      * cbn [app]. simpl in Hn.
        destruct (strings.space3 c3 c2 c1); [apply IH; [lia | exact Hc]|].
        exists (c1 :: c2 :: c3 :: l3). reflexivity.
Qed.

(** White space is taken off up to the first byte, solid, and the
    text is kept up to a solid byte [c] at least. *)
Lemma TrimSpace_anchor pad1 c1 mid c t :
  bytes (fun c => strings.asciiSpace c = true) pad1 -> solid c1 -> solid c ->
  exists t', strings.TrimSpace (pad1 +:+ String c1 (mid +:+ String c t))
             = String c1 (mid +:+ String c t').
Proof.
  intros H1 Hc1 Hc. unfold strings.TrimSpace.
  rewrite list_ascii_of_string_app. rewrite (TrimLeftSpace_pad _ _ H1).
  cbn [list_ascii_of_string]. rewrite (TrimLeftSpace_solid _ _ Hc1).
  rewrite list_ascii_of_string_app. cbn [list_ascii_of_string].
  replace (rev (c1 :: list_ascii_of_string mid ++ c :: list_ascii_of_string t))
    with (rev (list_ascii_of_string t) ++ c :: rev (c1 :: list_ascii_of_string mid)).
  2: { simpl. rewrite rev_app_distr. simpl. rewrite <- !app_assoc. reflexivity. }
  destruct (TrimRightSpace_rev_anchor _ (rev (list_ascii_of_string t)) c
              (rev (c1 :: list_ascii_of_string mid)) (le_n _) Hc) as [l' ->].
  exists (string_of_list_ascii (rev l')).
  rewrite rev_app_distr. cbn [rev]. rewrite rev_app_distr, rev_involutive.
  cbn [rev app]. rewrite <- !app_assoc. cbn [app string_of_list_ascii].
  rewrite string_of_list_ascii_app. cbn [string_of_list_ascii].
  rewrite string_of_list_ascii_of_string. reflexivity.
Qed.

(** The end of a line stays the end of a line. *)
Lemma TrimSpace_lineEnd pad1 c1 mid c2 pad2 tail :
  bytes (fun c => strings.asciiSpace c = true) pad1 -> solid c1 -> solid c2 ->
  lineEnd pad2 tail ->
  exists pad2' tail',
    lineEnd pad2' tail'
    /\ strings.TrimSpace (pad1 +:+ String c1 (mid +:+ String c2 (pad2 +:+ tail)))
       = String c1 (mid +:+ String c2 (pad2' +:+ tail')).
Proof.
  intros H1 Hc1 Hc2 [Hp2 [->|[comment ->]]].
  - exists EmptyString, EmptyString. split; [split; [constructor | auto]|].
    rewrite app_nil_r_string. apply TrimSpace_between; assumption.
  - assert (solid Ch.hash) as Hh by (split; reflexivity).
    destruct (TrimSpace_anchor pad1 c1 (mid +:+ String c2 pad2) Ch.hash comment H1 Hc1 Hh)
      as [t' E].
    exists pad2, (String Ch.hash t'). split; [split; [exact Hp2 | eauto]|].
    rewrite !app_assoc_string, !app_cons_string in E. exact E.
Qed.

(** ** A key/value line with a string on one line *)

Lemma blanks_nil : blanks EmptyString.
Proof. constructor. Qed.

Lemma quotedBody_solid q body s : quotedBody q body s -> solid q.
Proof. intros [[-> _]|[-> _]]; [apply solid_dq | apply solid_sq]. Qed.

Lemma parseValue_quoted q pad1 body s pad2 tail (h : heap) :
  quotedBody q body s -> blanks pad1 -> lineEnd pad2 tail ->
  parseValue (pad1 +:+ String q (body +:+ String q (pad2 +:+ tail))) h
  = Ok (NValue ValueString (AString s)) h.
Proof.
  intros [[-> Hb]|(-> & Hb & ->)] H1 He; rewrite parseValue_unfold.
  - apply parseValue_body_basic_string; assumption.
  - apply parseValue_body_literal_string; assumption.
Qed.

Lemma stripComment_quoted q pad1 body s pad2 tail :
  quotedBody q body s -> blanks pad1 -> lineEnd pad2 tail ->
  stripCommentPreserveStrings (pad1 +:+ String q (body +:+ String q (pad2 +:+ tail)))
  = pad1 +:+ String q (body +:+ String q pad2).
Proof.
  intros [[-> Hb]|(-> & Hb & ->)] H1 He.
  - eapply stripComment_basicBody; eassumption.
  - apply stripComment_literal_string; assumption.
Qed.

Lemma quotedBody_head q body s c rest :
  quotedBody q body s -> body = String c rest -> c <> q.
Proof.
  intros [[-> Hb]|(-> & Hb & ->)] E.
  - eapply basicBody_head; eassumption.
  - subst body. apply bytes_cons in Hb as [Hc _]. exact Hc.
Qed.

(** [consumeValue] reads no further line for a string on one line. *)
Lemma consumeValue_quoted q body s pad2 tail (p : parser) :
  quotedBody q body s -> lineEnd pad2 tail ->
  consumeValue (String q (body +:+ String q (pad2 +:+ tail))) p
  = Ok (String q (body +:+ String q (pad2 +:+ tail))) p.
Proof.
  intros Hq He. unfold consumeValue. cbv zeta.
  pose proof (stripComment_quoted q EmptyString _ _ _ _ Hq blanks_nil He) as Hs.
  rewrite !app_nil_l_string in Hs. rewrite Hs.
  pose proof (TrimSpace_between EmptyString q body q pad2 blanks_nil (proj1 He)
                (quotedBody_solid _ _ _ Hq) (quotedBody_solid _ _ _ Hq)) as Ht.
  rewrite app_nil_l_string in Ht. rewrite Ht.
  change (isEmpty (String q (body +:+ str1 q))) with false. cbv iota.
  assert (strings.HasPrefix (String q (body +:+ str1 q)) (triple Ch.dq) = false) as ->.
  { destruct Hq as [[-> Hb]|(-> & Hb & ->)]; [|reflexivity].
    apply HasPrefix_triple_quoted. intros c rest. eapply basicBody_head; eassumption. }
  assert (strings.HasPrefix (String q (body +:+ str1 q)) (triple Ch.sq) = false) as ->.
  { destruct Hq as [[-> Hb]|(-> & Hb & ->)]; [reflexivity|].
    apply HasPrefix_triple_quoted. intros c rest ->.
    apply bytes_cons in Hb as [Hc _]. exact Hc. }
  cbn [andb].
  assert (strings.HasPrefix (String q (body +:+ str1 q)) "[" = false) as ->
    by (destruct Hq as [[-> _]|[-> _]]; reflexivity).
  assert (strings.HasPrefix (String q (body +:+ str1 q)) "{" = false) as ->
    by (destruct Hq as [[-> _]|[-> _]]; reflexivity).
  reflexivity.
Qed.

Lemma drop_app_string a c b : strings.drop (String.length a + 1) (a +:+ String c b) = b.
Proof.
  induction a as [|c0 a IH]; [reflexivity|].
  rewrite app_cons_string. exact IH.
Qed.

Lemma TrimSpace_padded pad1 x pad2 :
  blanks pad1 -> blanks pad2 -> x <> EmptyString -> bytes solid x ->
  strings.TrimSpace (pad1 +:+ x +:+ pad2) = x.
Proof.
  intros H1 H2 Hne Hx. destruct x as [|c1 x]; [congruence|].
  apply bytes_cons in Hx as [Hc1 Hx]. destruct x as [|c2 x].
  - apply TrimSpace_single; assumption.
  - destruct (string_snoc (String c2 x)) as (mid & c & E); [discriminate|].
    rewrite E in *. apply bytes_app in Hx as [_ Hc]. apply bytes_cons in Hc as [Hc _].
    rewrite app_cons_string, app_assoc_string.
    change (str1 c +:+ pad2) with (String c pad2).
    apply TrimSpace_between; assumption.
Qed.

(** A dotted key of bare keys begins with a byte of a bare key, and
    its bytes are bytes of bare keys and dots. *)
Lemma dotted_head ks :
  ks <> [] -> Forall bareKey ks -> exists c rest, dotted ks = String c rest /\ bareByte c.
Proof.
  destruct ks as [|k ks]; [congruence|]. intros _ Hks.
  apply Forall_cons in Hks as [[Hne Hk] _].
  destruct k as [|c k]; [congruence|]. apply bytes_cons in Hk as [Hc _].
  destruct ks; simpl; eauto.
Qed.

Lemma dotted_bytes ks :
  Forall bareKey ks -> bytes (fun c => bareByte c \/ c = Ch.dot) (dotted ks).
Proof.
  induction 1 as [|k ks [_ Hk] _ IH]; [constructor|].
  assert (bytes (fun c => bareByte c \/ c = Ch.dot) k) as Hk'
    by (eapply Forall_impl; [exact Hk | auto]).
  destruct ks as [|k' ks]; [exact Hk'|].
  change (dotted (k :: k' :: ks)) with (k +:+ String Ch.dot (dotted (k' :: ks))).
  apply bytes_app. split; [exact Hk'|]. apply bytes_cons. auto.
Qed.

Lemma keyByte_solid c : bareByte c \/ c = Ch.dot -> solid c.
Proof. intros [H| ->]; [apply bareByte_solid, H | split; reflexivity]. Qed.

Ltac byte_const :=
  repeat match goal with
         | |- context [byteZ ?k] =>
             let v := eval vm_compute in (byteZ k) in change (byteZ k) with v
         end;
  lia.

Lemma keyByte_plain c :
  bareByte c \/ c = Ch.dot -> c <> Ch.dq /\ c <> Ch.sq /\ c <> Ch.eq.
Proof.
  intros [H| ->]; [|repeat split; intros E; vm_compute in E; discriminate E].
  repeat split; apply bareByte_neq; first [exact H | byte_const].
Qed.

Lemma asciiSpace_not_eq c : strings.asciiSpace c = true -> c <> Ch.dq /\ c <> Ch.sq /\ c <> Ch.eq.
Proof. intros H. repeat split; intros ->; discriminate H. Qed.

Lemma keyValue_bind_quoted front last q body s pad2 tail (p : parser) :
  quotedBody q body s -> lineEnd pad2 tail ->
  keyValue_bind (front ++ [last]) (String q (body +:+ String q (pad2 +:+ tail))) p
  = bindValue front last (NValue ValueString (AString s)) p.
Proof.
  intros Hq He. unfold keyValue_bind, bindValue. rewrite splitLast_snoc.
  destruct (on_store p _) as [t p1|e p1| |]; try reflexivity. simpl.
  destruct (hasItem (store p1) t last) as [[]|]; try reflexivity.
  rewrite (consumeValue_quoted _ _ _ _ _ _ Hq He).
  rewrite (parseValue_quoted q EmptyString _ _ _ _ _ Hq blanks_nil He). reflexivity.
Qed.

Lemma parseLine_quoted padL front last padA padB q body s pad2 tail (p : parser) :
  Forall bareKey (front ++ [last]) ->
  blanks padL -> blanks padA -> blanks padB ->
  quotedBody q body s -> lineEnd pad2 tail ->
  parseLine (keyValueLine padL (front ++ [last]) padA padB
               (String q (body +:+ String q (pad2 +:+ tail)))) p
  = bindValue front last (NValue ValueString (AString s)) p.
Proof.
  intros Hks HL HA HB Hq He. set (ks := front ++ [last]) in *.
  assert (ks <> []) as Hne by (subst ks; destruct front; discriminate).
  destruct (dotted_head ks Hne Hks) as (c1 & krest & Hd & Hc1).
  pose proof (dotted_bytes ks Hks) as Hkb.
  pose proof (quotedBody_solid _ _ _ Hq) as Hsq.
  unfold parseLine, keyValueLine. cbv zeta.
  (* the line without the white space around it *)
  destruct (TrimSpace_lineEnd padL c1
              (krest +:+ padA +:+ String Ch.eq (padB +:+ String q body)) q pad2 tail
              HL (bareByte_solid _ Hc1) Hsq He) as (pad2' & tail' & He' & Htrim).
  assert (padL +:+ dotted ks +:+ padA
            +:+ String Ch.eq (padB +:+ String q (body +:+ String q (pad2 +:+ tail)))
          = padL +:+ String c1 ((krest +:+ padA +:+ String Ch.eq (padB +:+ String q body))
                                  +:+ String q (pad2 +:+ tail))) as E1.
  { rewrite Hd. rewrite !app_cons_string, !app_assoc_string, !app_cons_string,
      !app_assoc_string, !app_cons_string. reflexivity. }
  rewrite E1, Htrim. clear E1 Htrim.
  assert (String c1 ((krest +:+ padA +:+ String Ch.eq (padB +:+ String q body))
                       +:+ String q (pad2' +:+ tail'))
          = (dotted ks +:+ padA)
              +:+ String Ch.eq (padB +:+ String q (body +:+ String q (pad2' +:+ tail')))) as E2.
  { rewrite Hd. rewrite !app_cons_string, !app_assoc_string, !app_cons_string,
      !app_assoc_string, !app_cons_string. reflexivity. }
  rewrite E2.
  set (line := (dotted ks +:+ padA)
                 +:+ String Ch.eq (padB +:+ String q (body +:+ String q (pad2' +:+ tail')))).
  assert (isEmpty line = false) as ->.
  { subst line. rewrite <- E2. reflexivity. }
  assert (strings.HasPrefix line "#" = false) as ->.
  { subst line. rewrite <- E2. cbn [strings.HasPrefix].
    rewrite Ascii.eqb_sym. fold (isb c1 "#"). rewrite (bareByte_isb c1) by
      (first [exact Hc1 | byte_const]). reflexivity. }
  assert (strings.HasPrefix line "[" = false) as ->.
  { subst line. rewrite <- E2. cbn [strings.HasPrefix].
    rewrite Ascii.eqb_sym. fold (isb c1 "["). rewrite (bareByte_isb c1) by
      (first [exact Hc1 | byte_const]). reflexivity. }
  cbn [orb].
  assert (findUnquotedEqual line = Z.of_nat (String.length (dotted ks +:+ padA))) as Hidx.
  { unfold findUnquotedEqual. subst line. rewrite findUnquotedEqual_loop_plain; [lia|].
    apply bytes_app. split.
    - eapply Forall_impl; [exact Hkb | apply keyByte_plain].
    - eapply Forall_impl; [exact HA | apply asciiSpace_not_eq]. }
  rewrite Hidx.
  destruct (Z.ltb_spec (Z.of_nat (String.length (dotted ks +:+ padA))) 0); [lia|].
  unfold parseKeyValue. rewrite Nat2Z.id.
  subst line. rewrite take_app_string, drop_app_string.
  assert (strings.TrimSpace (dotted ks +:+ padA) = dotted ks) as ->.
  { pose proof (TrimSpace_padded EmptyString (dotted ks) padA blanks_nil HA) as H0.
    rewrite app_nil_l_string in H0. apply H0.
    - rewrite Hd. discriminate.
    - eapply Forall_impl; [exact Hkb | apply keyByte_solid]. }
  rewrite (parseKeyParts_dotted ks Hne Hks).
  destruct (TrimSpace_lineEnd padB q body q pad2' tail' HB Hsq Hsq He')
    as (pad2'' & tail'' & He'' & Htrim2).
  rewrite Htrim2. subst ks.
  apply keyValue_bind_quoted; assumption.
Qed.

Lemma bindValue_free front last v (p : parser) t h1 items :
  walk (notTable p) front (cur p) (store p) = Ok t h1 ->
  Items h1 t = Some items -> items !! last = None ->
  bindValue front last v p = Ok tt (with_store p (setItem h1 t last v)).
Proof.
  intros Hw Ht Hl. unfold bindValue. rewrite Hw. simpl. unfold hasItem. rewrite Ht.
  rewrite bool_decide_eq_false_2 by (rewrite Hl; intros [? ?]; discriminate).
  reflexivity.
Qed.

Lemma bindValue_bound front last v (p : parser) t h1 items n :
  walk (notTable p) front (cur p) (store p) = Ok t h1 ->
  Items h1 t = Some items -> items !! last = Some n ->
  bindValue front last v p = Err (Annotated (lineNo p) (DuplicateKey last)) (with_store p h1).
Proof.
  intros Hw Ht Hl. unfold bindValue. rewrite Hw. simpl. unfold hasItem. rewrite Ht.
  rewrite bool_decide_eq_true_2 by (rewrite Hl; eauto). reflexivity.
Qed.

Lemma bindValue_blocked front last v (p : parser) e h1 :
  walk (notTable p) front (cur p) (store p) = Err e h1 ->
  bindValue front last v p = Err e (with_store p h1).
Proof. intros Hw. unfold bindValue. rewrite Hw. reflexivity. Qed.

(** ** Quoted keys *)

Lemma parseKeyParts_loop_quoted q k rest : forall parts cur,
  (q = Ch.dq \/ q = Ch.sq) ->
  bytes (fun c => c <> q /\ c <> Ch.backslash) k ->
  parseKeyParts_loop (k +:+ String q rest) parts cur q false
  = parseKeyParts_loop rest parts (cur +:+ k) Ch.nul false.
Proof.
  intros parts cur Hq. revert cur.
  assert (isb q Ch.nul = false) as Hnul by (destruct Hq as [-> | ->]; reflexivity).
  induction k as [|c k IH]; intros cur Hk.
  - rewrite app_nil_l_string, app_nil_r_string. cbn -[isb WriteByte strings.TrimSpace].
    rewrite Hnul. cbn [negb].
    assert (isb Ch.dq Ch.backslash = false) as Hd by reflexivity.
    assert (isb Ch.sq Ch.backslash = false) as Hs by reflexivity.
    destruct Hq as [-> | ->]; rewrite ?Hd, ?Hs, ?andb_false_r; cbn [andb];
      unfold isb; rewrite Ascii.eqb_refl; reflexivity.
  - apply bytes_cons in Hk as [[Hc Hbs] Hk]. rewrite app_cons_string.
    cbn -[isb WriteByte strings.TrimSpace]. rewrite Hnul. cbn [negb].
    destruct (isb_spec c Ch.backslash) as [->|_]; [congruence|].
    rewrite andb_false_r. cbn [andb].
    destruct (isb_spec c q) as [->|_]; [congruence|].
    rewrite IH by exact Hk. unfold WriteByte, str1. rewrite app_assoc_string. reflexivity.
Qed.

(** A key between quotes is one segment, the text between the quotes
    without the white space around it; it is no segment when nothing
    is left. *)
Lemma parseKeyParts_quoted q k :
  (q = Ch.dq \/ q = Ch.sq) ->
  bytes (fun c => c <> q /\ c <> Ch.backslash) k ->
  parseKeyParts (String q (k +:+ str1 q))
  = inr (if isEmpty (strings.TrimSpace k) then [] else [strings.TrimSpace k]).
Proof.
  intros Hq Hk. unfold parseKeyParts.
  assert (parseKeyParts_loop (String q (k +:+ str1 q)) [] EmptyString Ch.nul false
          = parseKeyParts_loop (k +:+ str1 q) [] EmptyString q false) as ->.
  { destruct Hq as [-> | ->]; reflexivity. }
  unfold str1. rewrite (parseKeyParts_loop_quoted q k EmptyString [] EmptyString Hq Hk).
  rewrite app_nil_l_string. simpl.
  destruct (isEmpty (strings.TrimSpace k)); reflexivity.
Qed.

(** ** Where the parser can panic *)



Lemma HasSuffix_length s c : strings.HasSuffix s (str1 c) = true -> 1 <= String.length s.
Proof. destruct s; [discriminate | simpl; lia]. Qed.

Lemma HasSuffix_last s c : strings.HasSuffix s (str1 c) = true -> lastByte s = Some c.
Proof.
  unfold strings.HasSuffix, strings.rev, lastByte. simpl.
  destruct (rev (list_ascii_of_string s)) as [|c0 l] eqn:E; [discriminate|].
  simpl. rewrite andb_true_r. intros H. apply isb_true in H as ->.
  rewrite <- (rev_involutive (list_ascii_of_string s)), E. simpl.
  rewrite map_app. simpl. apply last_last.
Qed.



Section Panics.
Variable pv : string -> heap -> outcome heap Node.
Hypothesis pv_wf : forall s h n h',
  wf h -> pv s h = Ok n h' -> wf h' /\ valid h' n /\ grows h h'.







Lemma parseValue_body_panic s h :
  parseValue_body pv s h = Panic ->
  parseArrayToken pv (strings.TrimSpace (stripCommentPreserveStrings s)) h = Panic
  \/ parseInlineTableToken pv (strings.TrimSpace (stripCommentPreserveStrings s)) h = Panic.
Proof.
  unfold parseValue_body. intros E.
  repeat match type of E with
         | context [if ?b then _ else _] => destruct b eqn:?
         | context [match ?x with _ => _ end] => destruct x eqn:?
         end;
    try discriminate; auto.
Qed.

End Panics.

Lemma parseValue_wf_all : forall s h n h',
  wf h -> parseValue s h = Ok n h' -> wf h' /\ valid h' n /\ grows h h'.
Proof. intros s h n h'. apply parseValue_wf. Qed.






















(** [parseValue] strips the comment first and the two compound
    decoders strip again: only the text before the first [#] outside
    quotes counts. *)
Lemma parseValue_strip s h :
  parseValue s h = parseValue (stripCommentPreserveStrings s) h.
Proof.
  rewrite (parseValue_unfold s), (parseValue_unfold (stripCommentPreserveStrings s)).
  unfold parseValue_body. rewrite stripComment_idempotent. reflexivity.
Qed.

Lemma stripComment_plain_hash a rest :
  bytes (fun c => c <> Ch.dq /\ c <> Ch.sq /\ c <> Ch.hash) a ->
  stripCommentPreserveStrings (a +:+ String Ch.hash rest) = a.
Proof.
  intros Ha. unfold stripCommentPreserveStrings.
  rewrite (stripComment_loop_plain _ _ Ha).
  change (stripComment_loop (String Ch.hash rest) noQuotes EmptyString) with EmptyString.
  apply app_nil_r_string.
Qed.

Lemma parseValue_plain_hash a rest h :
  bytes (fun c => c <> Ch.dq /\ c <> Ch.sq /\ c <> Ch.hash) a ->
  parseValue (a +:+ String Ch.hash rest) h = parseValue a h.
Proof.
  intros Ha. rewrite parseValue_strip, (stripComment_plain_hash _ _ Ha). reflexivity.
Qed.

(** ** The untyped view of a tree *)

Lemma older_refl R h : older R h R.
Proof. split; reflexivity. Qed.

Lemma advance_refl R h : good R h -> advance R h R h.
Proof. intros H. split; [exact H|]. split; [apply grows_refl | apply older_refl]. Qed.

Lemma advance_trans R1 h1 R2 h2 R3 h3 :
  advance R1 h1 R2 h2 -> advance R2 h2 R3 h3 -> advance R1 h1 R3 h3.
Proof.
  intros (_ & [GT GA] & [OT OA]) (G3 & [GT' GA'] & [OT' OA']).
  split; [exact G3|]. split; [split; lia|].
  split; [intros t Ht; rewrite OT', OT by lia; reflexivity
         |intros a Ha; rewrite OA', OA by lia; reflexivity].
Qed.

Lemma above_valid_older R h R' r n :
  valid h n -> older R h R' -> above R r n -> above R' r n.
Proof.
  intros Hv [OT OA]. destruct n as [t|a|ty v]; simpl in *; [rewrite OT|rewrite OA|]; auto.
Qed.

Lemma newer_above R b r n : newer R b n -> r < b -> above R r n.
Proof. destruct n; simpl; intros; try lia; exact I. Qed.

Lemma newer_mono R b b' n : newer R b n -> b' <= b -> newer R b' n.
Proof. destruct n; simpl; intros; try lia; exact I. Qed.

Lemma newer_valid_older R h R' b n :
  valid h n -> older R h R' -> newer R b n -> newer R' b n.
Proof.
  intros Hv [OT OA]. destruct n as [t|a|ty v]; simpl in *; [rewrite OT|rewrite OA|]; auto.
Qed.

Lemma size_NewTable h : size (NewTable h).2 = S (size h).
Proof. unfold size, NewTable. simpl. rewrite length_app. simpl. lia. Qed.

Lemma size_NewArray h : size (NewArray h).2 = S (size h).
Proof. unfold size, NewArray. simpl. rewrite length_app. simpl. lia. Qed.

Lemma size_setItem h t k n : size (setItem h t k n) = size h.
Proof. unfold size. rewrite length_tables_setItem, arrays_setItem. reflexivity. Qed.

Lemma size_appendElem h a n : size (appendElem h a n) = size h.
Proof. unfold size. rewrite length_arrays_appendElem, tables_appendElem. reflexivity. Qed.

Lemma grows_size h h' : grows h h' -> size h <= size h'.
Proof. unfold grows, size. lia. Qed.

Lemma older_rankTable R h : older R h (rankTable R h).
Proof.
  split; [|reflexivity]. intros t Ht. simpl.
  destruct (decide (t = length (tables h))); [lia | reflexivity].
Qed.

Lemma older_rankArray R h : older R h (rankArray R h).
Proof.
  split; [reflexivity|]. intros a Ha. simpl.
  destruct (decide (a = length (arrays h))); [lia | reflexivity].
Qed.

Lemma good_NewTable R h : good R h -> advance R h (rankTable R h) (NewTable h).2.
Proof.
  intros [Hwf (HT & HA & BT & BA)].
  split; [|split; [apply grows_NewTable | apply older_rankTable]].
  split; [apply wf_NewTable, Hwf|]. destruct Hwf as [VT VA].
  split; [|split; [|split]].
  - intros t items k n Ht Hk. unfold NewTable in Ht. simpl in Ht.
    apply lookup_app_Some in Ht as [Ht|[_ Ht]].
    + apply (above_valid_older R h); [exact (VT _ _ _ _ Ht Hk) | apply older_rankTable|].
      simpl. destruct (decide (t = length (tables h))) as [->|_].
      * apply lookup_lt_Some in Ht. lia.
      * exact (HT _ _ _ _ Ht Hk).
    + destruct (t - length (tables h)) as [|i]; simpl in Ht; [|discriminate].
      injection Ht as <-. rewrite lookup_empty in Hk. discriminate.
  - intros a elems n Ha Hn. unfold NewTable in Ha. simpl in Ha.
    apply (above_valid_older R h); [exact (VA _ _ _ Ha Hn) | apply older_rankTable|].
    exact (HA _ _ _ Ha Hn).
  - intros t Ht. rewrite size_NewTable. simpl.
    destruct (decide (t = length (tables h))) as [->|Hne]; [lia|].
    unfold NewTable in Ht. simpl in Ht. rewrite length_app in Ht. simpl in Ht.
    assert (t < length (tables h)) as Hlt by lia. specialize (BT _ Hlt). lia.
  - intros a Ha. rewrite size_NewTable. simpl. unfold NewTable in Ha. simpl in Ha.
    specialize (BA _ Ha). lia.
Qed.

Lemma good_NewArray R h : good R h -> advance R h (rankArray R h) (NewArray h).2.
Proof.
  intros [Hwf (HT & HA & BT & BA)].
  split; [|split; [apply grows_NewArray | apply older_rankArray]].
  split; [apply wf_NewArray, Hwf|]. destruct Hwf as [VT VA].
  split; [|split; [|split]].
  - intros t items k n Ht Hk. unfold NewArray in Ht. simpl in Ht.
    apply (above_valid_older R h); [exact (VT _ _ _ _ Ht Hk) | apply older_rankArray|].
    exact (HT _ _ _ _ Ht Hk).
  - intros a elems n Ha Hn. unfold NewArray in Ha. simpl in Ha.
    apply lookup_app_Some in Ha as [Ha|[_ Ha]].
    + apply (above_valid_older R h); [exact (VA _ _ _ Ha Hn) | apply older_rankArray|].
      simpl. destruct (decide (a = length (arrays h))) as [->|_].
      * apply lookup_lt_Some in Ha. lia.
      * exact (HA _ _ _ Ha Hn).
    + destruct (a - length (arrays h)) as [|i]; simpl in Ha; [|discriminate].
      injection Ha as <-. apply elem_of_nil in Hn as [].
  - intros t Ht. rewrite size_NewArray. simpl. unfold NewArray in Ht. simpl in Ht.
    specialize (BT _ Ht). lia.
  - intros a Ha. rewrite size_NewArray. simpl.
    destruct (decide (a = length (arrays h))) as [->|Hne]; [lia|].
    unfold NewArray in Ha. simpl in Ha. rewrite length_app in Ha. simpl in Ha.
    assert (a < length (arrays h)) as Hlt by lia. specialize (BA _ Hlt). lia.
Qed.

Lemma good_setItem R h t k n :
  good R h -> valid h n -> above R (rt R t) n -> good R (setItem h t k n).
Proof.
  intros [Hwf (HT & HA & BT & BA)] Hv Hab. split; [apply wf_setItem; assumption|].
  split; [|split; [|split]].
  - intros t1 items1 k1 n1 Ht1 Hk1.
    destruct (tables h !! t) as [items|] eqn:Ht;
      [|rewrite (setItem_None _ _ _ _ Ht) in Ht1; eapply HT; eassumption].
    destruct (decide (t = t1)) as [<-|Hne].
    + rewrite (lookup_setItem_eq _ _ _ _ _ Ht) in Ht1. injection Ht1 as <-.
      destruct (decide (k = k1)) as [<-|Hk].
      * rewrite lookup_insert_eq in Hk1. injection Hk1 as <-. exact Hab.
      * rewrite lookup_insert_ne in Hk1 by exact Hk. exact (HT _ _ _ _ Ht Hk1).
    + rewrite lookup_setItem_ne in Ht1 by exact Hne. exact (HT _ _ _ _ Ht1 Hk1).
  - intros a elems n1 Ha Hn1. rewrite arrays_setItem in Ha. eapply HA; eassumption.
  - intros t1. rewrite length_tables_setItem, size_setItem. apply BT.
  - intros a. rewrite arrays_setItem, size_setItem. apply BA.
Qed.

Lemma good_appendElem R h a n :
  good R h -> valid h n -> above R (ra R a) n -> good R (appendElem h a n).
Proof.
  intros [Hwf (HT & HA & BT & BA)] Hv Hab. split; [apply wf_appendElem; assumption|].
  split; [|split; [|split]].
  - intros t items k n1 Ht Hk. rewrite tables_appendElem in Ht. eapply HT; eassumption.
  - intros a1 elems1 n1 Ha1 Hn1.
    destruct (arrays h !! a) as [elems|] eqn:Ha.
    + destruct (decide (a = a1)) as [<-|Hne].
      * rewrite (lookup_appendElem_eq _ _ _ _ Ha) in Ha1. injection Ha1 as <-.
        apply elem_of_app in Hn1 as [Hn1|Hn1]; [exact (HA _ _ _ Ha Hn1)|].
        apply list_elem_of_singleton in Hn1 as ->. exact Hab.
      * rewrite lookup_appendElem_ne in Ha1 by exact Hne. exact (HA _ _ _ Ha1 Hn1).
    + unfold appendElem in Ha1. rewrite Ha in Ha1. eapply HA; eassumption.
  - intros t. rewrite tables_appendElem, size_appendElem. apply BT.
  - intros a1. rewrite length_arrays_appendElem, size_appendElem. apply BA.
Qed.

(** ** The parser builds no cycle *)

Lemma advance_good R h R' h' : advance R h R' h' -> good R' h'.
Proof. intros (G & _). exact G. Qed.

Lemma advance_setItem R h R' h' t k n :
  advance R h R' h' -> valid h' n -> above R' (rt R' t) n ->
  advance R h R' (setItem h' t k n).
Proof.
  intros (G & Gr & O) Hv Hab. split; [apply good_setItem; assumption|].
  split; [eapply grows_trans; [exact Gr | apply grows_setItem] | exact O].
Qed.

Lemma advance_appendElem R h R' h' a n :
  advance R h R' h' -> valid h' n -> above R' (ra R' a) n ->
  advance R h R' (appendElem h' a n).
Proof.
  intros (G & Gr & O) Hv Hab. split; [apply good_appendElem; assumption|].
  split; [eapply grows_trans; [exact Gr | apply grows_appendElem] | exact O].
Qed.

Lemma rank_table_bound R h t : good R h -> t < length (tables h) -> rt R t < size h.
Proof. intros (_ & _ & _ & BT & _). apply BT. Qed.

Lemma rank_array_bound R h a : good R h -> a < length (arrays h) -> ra R a < size h.
Proof. intros (_ & _ & _ & _ & BA). apply BA. Qed.

Lemma walk_ranked e parts : forall t (h : heap) t' h' R,
  good R h -> t < length (tables h) -> walk e parts t h = Ok t' h' ->
  exists R', advance R h R' h' /\ t' < length (tables h').
Proof.
  induction parts as [|part rest IH]; intros t h t' h' R G Ht Hw.
  - injection Hw as <- <-. exists R. split; [apply advance_refl, G | exact Ht].
  - rewrite walk_cons in Hw.
    destruct (Items h t) as [items|] eqn:Hit; [|discriminate].
    destruct (items !! part) as [n|] eqn:Hn.
    + destruct (negb (bool_decide (Kind n = ValueTable))); [discriminate|].
      destruct n as [t1| |]; try discriminate.
      eapply IH; [exact G| |exact Hw]. destruct G as [[VT _] _].
      apply (VT _ _ _ _ Hit Hn).
    + pose proof (good_NewTable _ _ G) as A1.
      assert (advance R h (rankTable R h)
                (setItem (NewTable h).2 t part (NTable (length (tables h))))) as A2.
      { apply advance_setItem; [exact A1| |].
        - simpl. rewrite length_app. simpl. lia.
        - simpl. destruct (decide (t = length (tables h))) as [->|_]; [lia|].
          destruct (decide (length (tables h) = length (tables h))) as [_|Hne];
            [|contradiction]. eapply rank_table_bound; eassumption. }
      apply (IH _ _ _ _ _ (advance_good _ _ _ _ A2)) in Hw as (R' & A3 & Ht').
      * exists R'. split; [eapply advance_trans; eassumption | exact Ht'].
      * rewrite length_tables_setItem. simpl. rewrite length_app. simpl. lia.
Qed.

Section Ranked.
Variable pv : string -> heap -> outcome heap Node.
Hypothesis pv_ranked : forall s h n h' R,
  good R h -> pv s h = Ok n h' ->
  exists R', advance R h R' h' /\ valid h' n /\ newer R' (size h) n.

Lemma parseArray_loop_ranked parts : forall arr ek h h' R,
  good R h -> arr < length (arrays h) ->
  parseArray_loop pv parts arr ek h = Ok tt h' -> exists R', advance R h R' h'.
Proof.
  induction parts as [|part parts IH]; intros arr ek h h' R G Harr E.
  - injection E as <-. exists R. apply advance_refl, G.
  - rewrite parseArray_loop_cons in E.
    destruct (isEmpty (strings.TrimSpace part)); [eapply IH; eassumption|].
    apply bind_Ok in E as (v & h1 & Hpv & E).
    destruct (pv_ranked _ _ _ _ _ G Hpv) as (R1 & A1 & V1 & N1).
    destruct (Elems h1 arr) as [elems|]; [|discriminate].
    assert (forall ek', parseArray_loop pv parts arr ek' (appendElem h1 arr v) = Ok tt h' ->
              exists R', advance R h R' h') as Hnext.
    { intros ek' E'.
      assert (advance R h R1 (appendElem h1 arr v)) as A2.
      { apply advance_appendElem; [exact A1 | exact V1|].
        eapply newer_above; [exact N1|]. destruct A1 as (_ & _ & [_ OA]).
        rewrite OA by exact Harr. eapply rank_array_bound; eassumption. }
      apply (IH _ _ _ _ _ (advance_good _ _ _ _ A2)) in E' as (R' & A3).
      - exists R'. eapply advance_trans; eassumption.
      - rewrite length_arrays_appendElem. destruct A1 as (_ & [_ GA] & _). lia. }
    destruct (length elems =? 0)%nat; [eapply Hnext, E|].
    destruct (negb (bool_decide (Some (Kind v) = ek))); [discriminate|].
    eapply Hnext, E.
Qed.

Lemma parseArrayToken_ranked s h n h' R :
  good R h -> parseArrayToken pv s h = Ok n h' ->
  exists R', advance R h R' h' /\ valid h' n /\ newer R' (size h) n.
Proof.
  unfold parseArrayToken. intros G E.
  destruct (negb (strings.HasPrefix _ "[")); [discriminate|].
  destruct (slice _ _ _) as [content|]; [|discriminate].
  simpl in E. apply bind_Ok in E as ([] & h1 & Hloop & E). injection E as <- <-.
  pose proof (good_NewArray _ _ G) as A0.
  apply (parseArray_loop_ranked _ _ _ _ _ _ (advance_good _ _ _ _ A0)) in Hloop
    as (R' & A1); [|simpl; rewrite length_app; simpl; lia].
  exists R'. split; [eapply advance_trans; eassumption|].
  destruct A1 as (_ & [_ GA] & [_ OA]). simpl in GA, OA. rewrite length_app in GA, OA.
  simpl in GA, OA. split; [simpl; lia|]. simpl. rewrite OA by lia.
  destruct (decide (length (arrays h) = length (arrays h))); [lia | contradiction].
Qed.

Lemma inlinePair_bind_ranked parts val t h h' R :
  good R h -> t < length (tables h) ->
  inlinePair_bind pv parts val t h = Ok tt h' -> exists R', advance R h R' h'.
Proof.
  intros G Ht E. unfold inlinePair_bind in E.
  destruct (splitLast parts) as [[front last]|]; [|discriminate].
  apply bind_Ok in E as (cur & h1 & Hw & E).
  apply (walk_ranked _ _ _ _ _ _ _ G Ht) in Hw as (R1 & A1 & Hcur).
  destruct (hasItem h1 cur last) as [[]|]; try discriminate.
  apply bind_Ok in E as (v & h2 & Hpv & E). injection E as <-.
  destruct (pv_ranked _ _ _ _ _ (advance_good _ _ _ _ A1) Hpv) as (R2 & A2 & V2 & N2).
  exists R2. eapply advance_trans; [exact A1|].
  apply advance_setItem; [exact A2 | exact V2|].
  eapply newer_above; [exact N2|]. destruct A2 as (_ & _ & [OT _]).
  rewrite OT by exact Hcur. eapply rank_table_bound; [eapply advance_good, A1 | exact Hcur].
Qed.

Lemma parseInlinePair_ranked kv t h h' R :
  good R h -> t < length (tables h) ->
  parseInlinePair pv kv t h = Ok tt h' -> exists R', advance R h R' h'.
Proof.
  intros G Ht E. unfold parseInlinePair in E.
  destruct (isEmpty _); [injection E as <-; exists R; apply advance_refl, G|].
  destruct (_ <? _)%Z; [discriminate|].
  destruct (parseKeyParts _) as [err|parts]; [discriminate|].
  eapply inlinePair_bind_ranked; eassumption.
Qed.

Lemma parseInline_loop_ranked pairs : forall t h h' R,
  good R h -> t < length (tables h) ->
  parseInline_loop pv pairs t h = Ok tt h' -> exists R', advance R h R' h'.
Proof.
  induction pairs as [|kv pairs IH]; intros t h h' R G Ht E.
  - injection E as <-. exists R. apply advance_refl, G.
  - change (parseInline_loop pv (kv :: pairs) t h)
      with (let! (_, h1) := parseInlinePair pv kv t h in parseInline_loop pv pairs t h1) in E.
    apply bind_Ok in E as ([] & h1 & Hp & E).
    apply (parseInlinePair_ranked _ _ _ _ _ G Ht) in Hp as (R1 & A1).
    apply (IH _ _ _ _ (advance_good _ _ _ _ A1)) in E as (R2 & A2);
      [|destruct A1 as (_ & [GT _] & _); lia].
    exists R2. eapply advance_trans; eassumption.
Qed.

Lemma parseInlineTableToken_ranked s h n h' R :
  good R h -> parseInlineTableToken pv s h = Ok n h' ->
  exists R', advance R h R' h' /\ valid h' n /\ newer R' (size h) n.
Proof.
  unfold parseInlineTableToken. intros G E.
  destruct (_ || _); [discriminate|].
  destruct (slice _ _ _) as [inner|]; [|discriminate].
  simpl in E. apply bind_Ok in E as ([] & h1 & Hloop & E). injection E as <- <-.
  pose proof (good_NewTable _ _ G) as A0.
  apply (parseInline_loop_ranked _ _ _ _ _ (advance_good _ _ _ _ A0)) in Hloop
    as (R' & A1); [|simpl; rewrite length_app; simpl; lia].
  exists R'. split; [eapply advance_trans; eassumption|].
  destruct A1 as (_ & [GT _] & [OT _]). simpl in GT, OT. rewrite length_app in GT, OT.
  simpl in GT, OT. split; [simpl; lia|]. simpl. rewrite OT by lia.
  destruct (decide (length (tables h) = length (tables h))); [lia | contradiction].
Qed.

Lemma parseValue_body_ranked s h n h' R :
  good R h -> parseValue_body pv s h = Ok n h' ->
  exists R', advance R h R' h' /\ valid h' n /\ newer R' (size h) n.
Proof.
  intros G E. pose proof E as E0.
  apply parseValue_body_cases in E as [(-> & ty & v & -> & _)|[[s' E]|[s' E]]].
  - exists R. split; [apply advance_refl, G|]. split; [|exact I].
    eapply parseValue_body_tagged, E0.
  - eapply parseArrayToken_ranked; eassumption.
  - eapply parseInlineTableToken_ranked; eassumption.
Qed.

End Ranked.

Lemma parseValue_fuel_ranked fuel : forall s h n h' R,
  good R h -> parseValue_fuel fuel s h = Ok n h' ->
  exists R', advance R h R' h' /\ valid h' n /\ newer R' (size h) n.
Proof.
  induction fuel as [|fuel IH]; intros s h n h' R G E; [discriminate|].
  simpl in E. eapply parseValue_body_ranked; [exact IH | exact G | exact E].
Qed.

Lemma parseValue_ranked s h n h' R :
  good R h -> parseValue s h = Ok n h' ->
  exists R', advance R h R' h' /\ valid h' n /\ newer R' (size h) n.
Proof. apply parseValue_fuel_ranked. Qed.

Lemma tableHeader_plain_ranked parts (p p' : parser) R :
  good R (store p) -> root p < length (tables (store p)) ->
  tableHeader_plain parts p = Ok tt p' -> exists R', advance R (store p) R' (store p').
Proof.
  intros G Hroot E. unfold tableHeader_plain in E.
  apply bind_Ok in E as (t & p1 & E & Ep). apply on_store_Ok in E as (h1 & Hw & ->).
  injection Ep as <-. apply (walk_ranked _ _ _ _ _ _ _ G Hroot) in Hw as (R' & A & _).
  exists R'. exact A.
Qed.

Lemma tableHeader_array_ranked parts (p p' : parser) R :
  good R (store p) -> root p < length (tables (store p)) ->
  tableHeader_array parts p = Ok tt p' -> exists R', advance R (store p) R' (store p').
Proof.
  intros G Hroot E. unfold tableHeader_array in E.
  destruct (splitLast parts) as [[front last]|]; [|discriminate].
  apply bind_Ok in E as (parent & p1 & E & Ep). apply on_store_Ok in E as (h1 & Hw & ->).
  apply (walk_ranked _ _ _ _ _ _ _ G Hroot) in Hw as (R1 & A1 & Hparent).
  pose proof (advance_good _ _ _ _ A1) as G1.
  simpl in Ep. destruct (Items h1 parent) as [items|] eqn:Hit; [|discriminate].
  destruct (items !! last) as [existing|] eqn:Hl.
  - destruct (negb (bool_decide (Kind existing = ValueArray))); [discriminate|].
    destruct existing as [|arr|]; try discriminate.
    simpl in Ep. injection Ep as <-. simpl.
    assert (arr < length (arrays h1)) as Harr.
    { destruct G1 as [[VT _] _]. exact (VT _ _ _ _ Hit Hl). }
    exists (rankTable R1 h1). eapply advance_trans; [exact A1|].
    apply advance_appendElem; [apply good_NewTable, G1| |].
    + simpl. rewrite length_app. simpl. lia.
    + simpl. destruct (decide (length (tables h1) = length (tables h1))); [|contradiction].
      eapply rank_array_bound; eassumption.
  - simpl in Ep. injection Ep as <-. simpl.
    pose proof (good_NewArray _ _ G1) as A2.
    set (h2 := (NewArray h1).2) in *. set (R2 := rankArray R1 h1) in *.
    assert (advance R1 h1 R2 (setItem h2 parent last (NArray (length (arrays h1))))) as A3.
    { apply advance_setItem; [exact A2| |].
      - subst h2. simpl. rewrite length_app. simpl. lia.
      - subst R2. simpl.
        destruct (decide (length (arrays h1) = length (arrays h1))); [|contradiction].
        eapply rank_table_bound; eassumption. }
    set (h3 := setItem h2 parent last (NArray (length (arrays h1)))) in *.
    pose proof (good_NewTable _ _ (advance_good _ _ _ _ A3)) as A4.
    exists (rankTable R2 h3). eapply advance_trans; [exact A1|].
    eapply advance_trans; [exact A3|].
    assert (length (tables h3) = length (tables h1)) as HT3.
    { subst h3 h2. rewrite length_tables_setItem. reflexivity. }
    assert (size h3 = S (size h1)) as HS3.
    { subst h3 h2. rewrite size_setItem. apply size_NewArray. }
    replace (length (tables h1)) with (length (tables h3)) by exact HT3.
    apply advance_appendElem; [exact A4| |].
    + simpl. rewrite length_app. simpl. lia.
    + simpl. rewrite decide_True by reflexivity.
      subst R2. simpl. rewrite decide_True by reflexivity.
      change (size h1 < size h3). lia.
Qed.

Lemma parseTableHeader_ranked line (p p' : parser) R :
  good R (store p) -> root p < length (tables (store p)) ->
  parseTableHeader line p = Ok tt p' -> exists R', advance R (store p) R' (store p').
Proof.
  intros G Hroot E. unfold parseTableHeader in E.
  destruct (_ && _); [discriminate|]. destruct (_ && _); [discriminate|].
  destruct (slice _ _ _); [|discriminate].
  destruct (parseKeyParts _) as [err|parts]; [discriminate|].
  destruct (negb _);
    [eapply tableHeader_plain_ranked | eapply tableHeader_array_ranked]; eassumption.
Qed.

Lemma keyValue_bind_ranked parts val (p p' : parser) R :
  good R (store p) -> cur p < length (tables (store p)) ->
  keyValue_bind parts val p = Ok tt p' -> exists R', advance R (store p) R' (store p').
Proof.
  intros G Hcur E. unfold keyValue_bind in E.
  destruct (splitLast parts) as [[front last]|]; [|discriminate].
  apply bind_Ok in E as (t & p1 & Hw & E).
  apply on_store_Ok in Hw as (h1 & Hw & ->). simpl in E.
  apply (walk_ranked _ _ _ _ _ _ _ G Hcur) in Hw as (R1 & A1 & Ht).
  destruct (hasItem h1 t last) as [[]|]; try discriminate.
  destruct (consumeValue val _) as [fullVal p2|e p2| |] eqn:Hc; try discriminate.
  apply consumeValue_text in Hc as (pulled & (_ & _ & _ & _ & _ & Hs) & _).
  simpl in Hs.
  destruct (parseValue fullVal (store p2)) as [v h2|e h2| |] eqn:Hv; try discriminate.
  injection E as <-. rewrite Hs in Hv. simpl.
  destruct (parseValue_ranked _ _ _ _ _ (advance_good _ _ _ _ A1) Hv) as (R2 & A2 & V2 & N2).
  exists R2. eapply advance_trans; [exact A1|].
  apply advance_setItem; [exact A2 | exact V2|].
  eapply newer_above; [exact N2|]. destruct A2 as (_ & _ & [OT _]).
  rewrite OT by exact Ht. eapply rank_table_bound; [eapply advance_good, A1 | exact Ht].
Qed.

Lemma parseLine_ranked text (p p' : parser) R :
  good R (store p) -> wf_parser p ->
  parseLine text p = Ok tt p' -> exists R', advance R (store p) R' (store p').
Proof.
  intros G (_ & Hroot & Hcur) E. unfold parseLine in E.
  destruct (_ || _); [injection E as <-; exists R; apply advance_refl, G|].
  destruct (strings.HasPrefix _ "["); [eapply parseTableHeader_ranked; eassumption|].
  destruct (_ <? _)%Z; [discriminate|]. unfold parseKeyValue in E.
  destruct (parseKeyParts _) as [err|parts]; [discriminate|].
  eapply keyValue_bind_ranked; eassumption.
Qed.

Lemma Parse_loop_ranked fuel : forall (p p' : parser) R,
  good R (store p) -> wf_parser p ->
  Parse_loop fuel p = Ok tt p' -> exists R', good R' (store p').
Proof.
  induction fuel as [|fuel IH]; intros p p' R G Hwf E; [discriminate|].
  simpl in E. destruct (scanLine p) as [[text p1]|] eqn:Hs.
  - pose proof (scanLine_inv _ _ _ Hwf Hs) as (W1 & _).
    assert (store p1 = store p) as Hst.
    { unfold scanLine in Hs. destruct (pending (scanner p)); [discriminate|].
      injection Hs as _ <-. reflexivity. }
    apply bind_Ok in E as ([] & p2 & Hl & E).
    rewrite <- Hst in G.
    destruct (parseLine_ranked _ _ _ _ G W1 Hl) as (R2 & A2).
    apply (parseLine_inv _ _ _ W1) in Hl as (W2 & _).
    eapply IH; [eapply advance_good, A2 | exact W2 | exact E].
  - destruct (failed (scanner p)); [discriminate|]. injection E as <-. eauto.
Qed.

Lemma ranked_newParser input : exists R, good R (store (newParser input)).
Proof.
  exists (rankTable (Ranks (fun _ => 0) (fun _ => 0)) empty_heap).
  apply (advance_good (Ranks (fun _ => 0) (fun _ => 0)) empty_heap).
  apply (good_NewTable _ empty_heap). split; [apply wf_empty|].
  split; [|split; [|split]]; intros ? *; simpl; try rewrite lookup_nil; try discriminate; lia.
Qed.

(** The store [Parse] returns has no cycle. *)
Lemma Parse_good input r h : Parse input = Ok r h -> exists R, good R h.
Proof.
  intros E. apply Parse_Ok in E as (p' & E & _ & ->). unfold Parse_run in E.
  destruct (ranked_newParser input) as [R G].
  eapply Parse_loop_ranked; [exact G | apply wf_newParser | exact E].
Qed.

(** ** [ToUntyped] on a store without cycles *)

Lemma untypedElems_Ok f elems :
  (forall e, e ∈ elems -> exists u, f e = Ok u tt) ->
  exists out, untypedElems f elems = Ok out tt
              /\ Forall2 (fun e u => f e = Ok u tt) elems out.
Proof.
  induction elems as [|e elems IH]; intros H.
  - exists []. split; [reflexivity | constructor].
  - destruct (H e) as [u Hu]; [apply elem_of_cons; left; reflexivity|].
    destruct IH as (out & Hout & Hall).
    { intros e' He'. apply H. apply elem_of_cons. right. exact He'. }
    exists (u :: out). simpl. rewrite Hu. simpl. rewrite Hout. simpl.
    split; [reflexivity | constructor; assumption].
Qed.

Lemma untypedElems_inv f elems out :
  untypedElems f elems = Ok out tt -> Forall2 (fun e u => f e = Ok u tt) elems out.
Proof.
  revert out. induction elems as [|e elems IH]; intros out E.
  - injection E as <-. constructor.
  - simpl in E. apply bind_Ok in E as (u & [] & Hu & E).
    apply bind_Ok in E as (out' & [] & Hout & E). injection E as <-.
    constructor; [exact Hu | apply IH, Hout].
Qed.

Lemma untypedElems_ext f g elems :
  (forall e, e ∈ elems -> f e = g e) -> untypedElems f elems = untypedElems g elems.
Proof.
  induction elems as [|e elems IH]; intros H; [reflexivity|].
  simpl. rewrite (H e) by (apply elem_of_cons; left; reflexivity).
  rewrite IH; [reflexivity|]. intros e' He'. apply H. apply elem_of_cons. right. exact He'.
Qed.

Lemma untypedItems_ext f g (l : list (string * Node)) :
  (forall k c, (k, c) ∈ l -> f c = g c) -> untypedItems f l = untypedItems g l.
Proof.
  induction l as [|[k c] l IH]; intros H; [reflexivity|].
  simpl. rewrite (H k c) by (apply elem_of_cons; left; reflexivity).
  rewrite IH; [reflexivity|]. intros k' c' Hin. apply (H k'). apply elem_of_cons. right. exact Hin.
Qed.

(** The map built from the bindings has their keys, each bound to
    the result for its node. *)
Lemma untypedItems_Ok f (l : list (string * Node)) :
  NoDup l.*1 ->
  (forall k c, (k, c) ∈ l -> exists u, f c = Ok u tt) ->
  exists m, untypedItems f l = Ok m tt
            /\ (forall k c, (k, c) ∈ l -> exists u, m !! k = Some u /\ f c = Ok u tt)
            /\ (forall k, k ∉ l.*1 -> m !! k = None).
Proof.
  induction l as [|[k c] l IH]; intros Hnd H.
  - exists ∅. split; [reflexivity|]. split.
    + intros k c Hin. apply elem_of_nil in Hin as [].
    + intros k _. apply lookup_empty.
  - simpl in Hnd. apply NoDup_cons in Hnd as [Hk Hnd].
    destruct (H k c) as [u Hu]; [apply elem_of_cons; left; reflexivity|].
    destruct (IH Hnd) as (m & Hm & Hin & Hout).
    { intros k' c' Hin. apply (H k'). apply elem_of_cons. right. exact Hin. }
    exists (<[k := u]> m). simpl. rewrite Hu. simpl. rewrite Hm. simpl.
    split; [reflexivity|]. split.
    + intros k' c' Hin'. apply elem_of_cons in Hin' as [[= -> ->]|Hin'].
      * exists u. rewrite lookup_insert_eq. auto.
      * assert (k' <> k) as Hne.
        { intros ->. apply Hk. apply list_elem_of_fmap. exists (k, c'). auto. }
        rewrite lookup_insert_ne by (symmetry; exact Hne). apply (Hin _ _ Hin').
    + intros k' Hk'. simpl in Hk'. apply not_elem_of_cons in Hk' as [Hne Hk'].
      rewrite lookup_insert_ne by (symmetry; exact Hne). apply Hout, Hk'.
Qed.

Lemma need_child R h r n :
  good R h -> valid h n -> above R r n -> r < size h -> need R h n <= size h - r.
Proof.
  intros G Hv Hab Hr. destruct n as [t|a|ty v]; simpl in *.
  - pose proof (rank_table_bound _ _ _ G Hv). lia.
  - pose proof (rank_array_bound _ _ _ G Hv). lia.
  - lia.
Qed.

(** With the fuel a node needs, [ToUntyped] returns. *)
Lemma ToUntyped_fuel_Ok R h fuel : forall n,
  good R h -> valid h n -> need R h n <= fuel -> exists u, ToUntyped_fuel fuel h n = Ok u tt.
Proof.
  induction fuel as [|fuel IH]; intros n G Hv Hn; [destruct n; simpl in Hn; lia|].
  pose proof G as [[VT VA] (HT & HA & BT & BA)].
  destruct n as [t|a|ty v]; simpl in *.
  - unfold Items. destruct (lookup_lt_is_Some_2 _ _ Hv) as [items Hit]. rewrite Hit.
    destruct (untypedItems_Ok (ToUntyped_fuel fuel h) (map_to_list items)) as (m & Hm & _).
    { apply NoDup_fst_map_to_list. }
    { intros k c Hin. apply elem_of_map_to_list in Hin. apply IH; [exact G| |].
      - exact (VT _ _ _ _ Hit Hin).
      - pose proof (need_child R h (rt R t) c G (VT _ _ _ _ Hit Hin) (HT _ _ _ _ Hit Hin)
                      (BT _ Hv)). lia. }
    rewrite Hm. simpl. eauto.
  - unfold Elems. destruct (lookup_lt_is_Some_2 _ _ Hv) as [elems Hel]. rewrite Hel.
    destruct (untypedElems_Ok (ToUntyped_fuel fuel h) elems) as (out & Hout & _).
    { intros c Hin. apply IH; [exact G| |].
      - exact (VA _ _ _ Hel Hin).
      - pose proof (need_child R h (ra R a) c G (VA _ _ _ Hel Hin) (HA _ _ _ Hel Hin)
                      (BA _ Hv)). lia. }
    rewrite Hout. simpl. eauto.
  - eauto.
Qed.

(** More fuel does not change a result. *)
Lemma ToUntyped_fuel_mono h fuel : forall fuel' n u,
  fuel <= fuel' -> ToUntyped_fuel fuel h n = Ok u tt -> ToUntyped_fuel fuel' h n = Ok u tt.
Proof.
  induction fuel as [|fuel IH]; intros fuel' n u Hle E; [discriminate|].
  destruct fuel' as [|fuel']; [lia|]. simpl in *. unfold ToUntyped_body in *.
  destruct n as [t|a|ty v]; [| |exact E].
  - destruct (Items h t) as [items|]; [|discriminate].
    apply bind_Ok in E as (m & [] & Hm & E). injection E as <-.
    assert (untypedItems (ToUntyped_fuel fuel' h) (map_to_list items) = Ok m tt) as ->;
      [|reflexivity].
    revert m Hm. generalize (map_to_list items). intros l.
    induction l as [|[k c] l IHl]; intros m Hm; [exact Hm|].
    simpl in *. apply bind_Ok in Hm as (u & [] & Hu & Hm).
    apply bind_Ok in Hm as (m' & [] & Hm' & Hm). injection Hm as <-.
    rewrite (IH fuel' c u) by (lia || exact Hu). simpl.
    rewrite (IHl _ Hm'). reflexivity.
  - destruct (Elems h a) as [elems|]; [|discriminate].
    apply bind_Ok in E as (out & [] & Hout & E). injection E as <-.
    assert (untypedElems (ToUntyped_fuel fuel' h) elems = Ok out tt) as ->; [|reflexivity].
    revert out Hout. induction elems as [|c l IHl]; intros out Hout; [exact Hout|].
    simpl in *. apply bind_Ok in Hout as (u & [] & Hu & Hout).
    apply bind_Ok in Hout as (out' & [] & Hout' & Hout). injection Hout as <-.
    rewrite (IH fuel' c u) by (lia || exact Hu). simpl.
    rewrite (IHl _ Hout'). reflexivity.
Qed.

Lemma need_bound R h n : good R h -> valid h n -> need R h n <= S (size h).
Proof. intros _ _. destruct n; simpl; lia. Qed.

(** [ToUntyped] returns on every node of a store without cycles. *)
Lemma ToUntyped_Ok R h n : good R h -> valid h n -> exists u, ToUntyped h n = Ok u tt.
Proof.
  intros G Hv. apply (ToUntyped_fuel_Ok R); [exact G | exact Hv|].
  apply need_bound; assumption.
Qed.

Lemma ToUntyped_child R h r c :
  good R h -> valid h c -> above R r c -> r < size h ->
  ToUntyped_fuel (size h) h c = ToUntyped h c.
Proof.
  intros G Hv Hab Hr.
  destruct (ToUntyped_fuel_Ok R h (size h) c G Hv) as [u Hu].
  { pose proof (need_child R h r c G Hv Hab Hr). lia. }
  rewrite Hu. symmetry. unfold ToUntyped.
  eapply ToUntyped_fuel_mono; [|exact Hu]. lia.
Qed.

(** On such a store [ToUntyped] satisfies the equation of the source
    function. *)
Lemma ToUntyped_unfold R h n :
  good R h -> valid h n -> ToUntyped h n = ToUntyped_body (ToUntyped h) h n.
Proof.
  intros G Hv. pose proof G as [[VT VA] (HT & HA & BT & BA)].
  unfold ToUntyped at 1. simpl. unfold ToUntyped_body.
  destruct n as [t|a|ty v]; [| |reflexivity]; simpl in Hv.
  - destruct (Items h t) as [items|] eqn:Hit; [|reflexivity].
    rewrite (untypedItems_ext _ (ToUntyped h)); [reflexivity|].
    intros k c Hin. apply elem_of_map_to_list in Hin.
    apply (ToUntyped_child R h (rt R t)); [exact G| | |apply BT, Hv].
    + exact (VT _ _ _ _ Hit Hin).
    + exact (HT _ _ _ _ Hit Hin).
  - destruct (Elems h a) as [elems|] eqn:Hel; [|reflexivity].
    rewrite (untypedElems_ext _ (ToUntyped h)); [reflexivity|].
    intros c Hin.
    apply (ToUntyped_child R h (ra R a)); [exact G| | |apply BA, Hv].
    + exact (VA _ _ _ Hel Hin).
    + exact (HA _ _ _ Hel Hin).
Qed.

(** The untyped view of a table: a map with the keys of the table,
    each bound to the untyped view of the node bound in the table. *)
Lemma ToUntyped_table R h t items :
  good R h -> Items h t = Some items ->
  exists m, ToUntyped h (NTable t) = Ok (UMap m) tt
            /\ (forall k c, items !! k = Some c ->
                  exists u, m !! k = Some u /\ ToUntyped h c = Ok u tt)
            /\ (forall k, items !! k = None -> m !! k = None).
Proof.
  intros G Hit. pose proof G as [[VT VA] _].
  assert (valid h (NTable t)) as Hv by (eapply lookup_lt_Some, Hit).
  rewrite (ToUntyped_unfold R) by assumption. unfold ToUntyped_body. rewrite Hit.
  destruct (untypedItems_Ok (ToUntyped h) (map_to_list items)) as (m & Hm & Hin & Hout).
  { apply NoDup_fst_map_to_list. }
  { intros k c Hkc. apply elem_of_map_to_list in Hkc.
    apply (ToUntyped_Ok R); [exact G | exact (VT _ _ _ _ Hit Hkc)]. }
  exists m. rewrite Hm. split; [reflexivity|]. split.
  - intros k c Hk. apply (Hin k c). apply elem_of_map_to_list. exact Hk.
  - intros k Hk. apply Hout. intros Hin'. apply list_elem_of_fmap in Hin' as ([k' c] & -> & Hin').
    apply elem_of_map_to_list in Hin'. simpl in Hk. congruence.
Qed.

(** The untyped view of an array: the untyped views of its elements,
    in order. *)
Lemma ToUntyped_array R h a elems :
  good R h -> Elems h a = Some elems ->
  exists out, ToUntyped h (NArray a) = Ok (USlice out) tt
              /\ Forall2 (fun c u => ToUntyped h c = Ok u tt) elems out.
Proof.
  intros G Hel. pose proof G as [[VT VA] _].
  assert (valid h (NArray a)) as Hv by (eapply lookup_lt_Some, Hel).
  rewrite (ToUntyped_unfold R) by assumption. unfold ToUntyped_body. rewrite Hel.
  destruct (untypedElems_Ok (ToUntyped h) elems) as (out & Hout & Hall).
  { intros c Hc. apply (ToUntyped_Ok R); [exact G | exact (VA _ _ _ Hel Hc)]. }
  exists out. rewrite Hout. split; [reflexivity | exact Hall].
Qed.

(** [GetUntyped] of a longer path is a lookup in the map [GetUntyped]
    returns for the path. *)
Lemma GetUntyped_step R h r path k m :
  good R h -> r < length (tables h) -> k <> EmptyString ->
  GetUntyped h r path = Ok (Some (UMap m)) tt ->
  GetUntyped h r (path ++ [k]) = Ok (m !! k) tt.
Proof.
  intros G Hr Hk E. unfold GetUntyped, Get in *. rewrite Get_loop_app.
  destruct (Get_loop h (NTable r) path) as [n|] eqn:Hg; [|discriminate].
  apply bind_Ok in E as (u & [] & Hu & E). injection E as ->.
  assert (valid h n) as Hv by exact (Get_loop_valid h path (NTable r) n (proj1 G) Hr Hg).
  destruct n as [t|a|ty v].
  - simpl in Hv. destruct (lookup_lt_is_Some_2 _ _ Hv) as [items Hit].
    destruct (ToUntyped_table R h t items G Hit) as (m' & Hm' & Hin & Hout).
    rewrite Hm' in Hu. injection Hu as <-.
    rewrite Get_loop_cons, (len_nonEmpty _ Hk). unfold Items. rewrite Hit.
    destruct (items !! k) as [c|] eqn:Hc.
    + destruct (Hin _ _ Hc) as (u & Hmu & Hcu). simpl. rewrite Hcu, Hmu. reflexivity.
    + rewrite (Hout _ Hc). reflexivity.
  - simpl in Hv. destruct (lookup_lt_is_Some_2 _ _ Hv) as [elems Hel].
    destruct (ToUntyped_array R h a elems G Hel) as (out & Hout & _).
    rewrite Hout in Hu. discriminate.
  - discriminate.
Qed.

Lemma Parse_good_root input r h :
  Parse input = Ok r h -> exists R, good R h /\ r < length (tables h).
Proof.
  intros E. destruct (Parse_good _ _ _ E) as [R G]. exists R. split; [exact G|].
  apply Parse_Ok in E as (p' & E & -> & ->).
  apply Parse_loop_inv in E as ((_ & Hroot & _) & _); [exact Hroot | apply wf_newParser].
Qed.

Lemma GetUntyped_found R h r path n :
  good R h -> r < length (tables h) -> Get h r path = Some n ->
  exists u, ToUntyped h n = Ok u tt /\ GetUntyped h r path = Ok (Some u) tt.
Proof.
  intros G Hr Hg.
  assert (valid h n) as Hv by exact (Get_loop_valid h path (NTable r) n (proj1 G) Hr Hg).
  destruct (ToUntyped_Ok R h n G Hv) as [u Hu]. exists u. split; [exact Hu|].
  unfold GetUntyped. rewrite Hg, Hu. reflexivity.
Qed.






(** ** Multi-line strings *)

Lemma triple_at_other q c s : c <> q -> triple_at q (String c s) = false.
Proof.
  intros Hc. destruct s as [|c1 [|c2 s]]; try reflexivity. simpl.
  destruct (isb_spec c q) as [->|_]; [congruence | reflexivity].
Qed.

Lemma stripComment_loop_multi q body t :
  q = Ch.dq \/ q = Ch.sq -> multiBody q body ->
  stripComment_loop (body +:+ triple q +:+ t) (qMulti q) EmptyString
  = body +:+ triple q +:+ stripComment_loop t noQuotes EmptyString.
Proof.
  intros Hq. induction body as [|c body IH]; intros Hb.
  - rewrite !app_nil_l_string.
    destruct Hq as [-> | ->].
    + change (stripComment_loop (triple Ch.dq +:+ t) (qMulti Ch.dq) EmptyString)
        with (stripComment_loop t noQuotes (WriteString EmptyString (triple Ch.dq))).
      rewrite (stripComment_loop_acc _ _ _ _ (le_n _)). reflexivity.
    + change (stripComment_loop (triple Ch.sq +:+ t) (qMulti Ch.sq) EmptyString)
        with (stripComment_loop t noQuotes (WriteString EmptyString (triple Ch.sq))).
      rewrite (stripComment_loop_acc _ _ _ _ (le_n _)). reflexivity.
  - apply bytes_cons in Hb as [[Hc Hbs] Hb]. rewrite !app_cons_string.
    destruct Hq as [-> | ->].
    + change (qMulti Ch.dq) with (Q true false true false) in *.
      cbn -[triple_at WriteByte WriteString].
      destruct (isb_spec c Ch.backslash) as [->|_]; [exfalso; apply Hbs; reflexivity|].
      rewrite (triple_at_other _ _ _ Hc).
      rewrite (stripComment_loop_acc _ _ _ _ (le_n _)), IH by exact Hb. reflexivity.
    + change (qMulti Ch.sq) with (Q false true false true) in *.
      cbn -[triple_at WriteByte WriteString].
      rewrite (triple_at_other _ _ _ Hc).
      rewrite (stripComment_loop_acc _ _ _ _ (le_n _)), IH by exact Hb. reflexivity.
Qed.

Lemma stripComment_loop_open q rest :
  q = Ch.dq \/ q = Ch.sq ->
  stripComment_loop (triple q +:+ rest) noQuotes EmptyString
  = triple q +:+ stripComment_loop rest (qMulti q) EmptyString.
Proof.
  intros [-> | ->].
  - change (stripComment_loop (triple Ch.dq +:+ rest) noQuotes EmptyString)
      with (stripComment_loop rest (qMulti Ch.dq) (WriteString EmptyString (triple Ch.dq))).
    rewrite (stripComment_loop_acc _ _ _ _ (le_n _)). reflexivity.
  - change (stripComment_loop (triple Ch.sq +:+ rest) noQuotes EmptyString)
      with (stripComment_loop rest (qMulti Ch.sq) (WriteString EmptyString (triple Ch.sq))).
    rewrite (stripComment_loop_acc _ _ _ _ (le_n _)). reflexivity.
Qed.

(** The comment stripper passes over a multi-line string. *)
Lemma stripComment_multi q pad1 body rest :
  q = Ch.dq \/ q = Ch.sq -> blanks pad1 -> multiBody q body ->
  stripCommentPreserveStrings (pad1 +:+ triple q +:+ body +:+ triple q +:+ rest)
  = pad1 +:+ triple q +:+ body +:+ triple q
    +:+ stripComment_loop rest noQuotes EmptyString.
Proof.
  intros Hq H1 Hb. unfold stripCommentPreserveStrings.
  rewrite stripComment_loop_plain
    by (eapply Forall_impl; [exact H1 | apply asciiSpace_plain]).
  rewrite (stripComment_loop_open _ _ Hq), (stripComment_loop_multi _ _ _ Hq Hb).
  reflexivity.
Qed.

Lemma Index_from_multi q body t : forall i,
  multiBody q body ->
  strings.Index_from i (body +:+ triple q +:+ t) (triple q) = Some (i + String.length body).
Proof.
  induction body as [|c body IH]; intros i Hb.
  - rewrite app_nil_l_string. unfold triple. simpl. unfold isb. rewrite !Ascii.eqb_refl.
    simpl. f_equal. lia.
  - apply bytes_cons in Hb as [[Hc _] Hb]. rewrite app_cons_string.
    unfold triple at 2. cbn [strings.Index_from strings.HasPrefix].
    destruct (isb_spec q c) as [->|_]; [congruence|]. cbn [andb].
    fold (triple q). rewrite IH by exact Hb. simpl. f_equal. lia.
Qed.

Lemma extractTripleQuoted_multi q body t :
  q = Ch.dq \/ q = Ch.sq -> multiBody q body ->
  extractTripleQuoted (triple q +:+ body +:+ triple q +:+ t) q
  = Some (dropFirstNewline body).
Proof.
  intros Hq Hb. unfold extractTripleQuoted.
  assert ((len (triple q +:+ body +:+ triple q +:+ t) <? 6)%nat = false) as ->.
  { apply Nat.ltb_ge. unfold len. rewrite !length_app_string. simpl. lia. }
  assert (strings.drop 3 (triple q +:+ body +:+ triple q +:+ t) = body +:+ triple q +:+ t)
    as -> by reflexivity.
  assert (strings.HasPrefix (triple q +:+ body +:+ triple q +:+ t) (triple q) = true) as Hp.
  { unfold triple. simpl. unfold isb. rewrite !Ascii.eqb_refl. reflexivity. }
  assert ((if isb q Ch.sq then triple Ch.sq else triple Ch.dq) = triple q) as ->
    by (destruct Hq as [-> | ->]; reflexivity).
  assert ((isb q Ch.dq
           && negb (strings.HasPrefix (triple q +:+ body +:+ triple q +:+ t) (triple Ch.dq)))
          = false) as ->.
  { destruct Hq as [-> | ->]; [rewrite Hp|]; reflexivity. }
  assert ((isb q Ch.sq
           && negb (strings.HasPrefix (triple q +:+ body +:+ triple q +:+ t) (triple Ch.sq)))
          = false) as ->.
  { destruct Hq as [-> | ->]; [|rewrite Hp]; reflexivity. }
  unfold strings.Index. rewrite (Index_from_multi _ _ _ _ Hb). simpl.
  rewrite take_app_string. destruct body; reflexivity.
Qed.

Lemma multiBody_dropFirstNewline q body :
  multiBody q body -> multiBody q (dropFirstNewline body).
Proof.
  intros Hb. destruct body as [|c body]; [exact Hb|]. simpl.
  destruct (isb c Ch.nl); [|exact Hb]. apply bytes_cons in Hb as [_ Hb]. exact Hb.
Qed.

Lemma foldLines_plain body : forall b,
  bytes (fun c => c <> Ch.backslash) body -> foldLines body false b = b +:+ body.
Proof.
  induction body as [|c body IH]; intros b Hb.
  - simpl. rewrite app_nil_r_string. reflexivity.
  - apply bytes_cons in Hb as [Hc Hb]. cbn [foldLines andb].
    destruct (isb_spec c Ch.backslash) as [->|_]; [congruence|].
    rewrite IH by exact Hb. unfold WriteByte. rewrite app_assoc_string. reflexivity.
Qed.

Lemma basicBody_plain body :
  bytes (fun c => c <> Ch.dq /\ c <> Ch.backslash) body -> basicBody body body.
Proof.
  induction body as [|c body IH]; intros Hb; [constructor|].
  apply bytes_cons in Hb as [[Hdq Hbs] Hb]. apply basicBody_byte; auto.
Qed.

Lemma decodeBasicString_multi body :
  multiBody Ch.dq body -> decodeBasicString body true = inr body.
Proof.
  intros Hb. unfold decodeBasicString.
  rewrite foldLines_plain by (eapply Forall_impl; [exact Hb|]; simpl; intros c [_ H]; auto).
  rewrite app_nil_l_string.
  rewrite (decodeEscapes_basicBody body body); [reflexivity|].
  apply basicBody_plain. eapply Forall_impl; [exact Hb|]. simpl. intros c [H1 H2]. auto.
Qed.

(** A multi-line string: the text between the delimiters is the
    string, after a newline right behind the opening delimiter is
    dropped; what follows the closing delimiter is not looked at. *)
Lemma parseValue_body_multi pv q pad1 body rest (h : heap) :
  q = Ch.dq \/ q = Ch.sq -> blanks pad1 -> multiBody q body ->
  parseValue_body pv (pad1 +:+ triple q +:+ body +:+ triple q +:+ rest) h
  = Ok (NValue ValueString (AString (dropFirstNewline body))) h.
Proof.
  intros Hq H1 Hb. unfold parseValue_body. cbv zeta.
  rewrite (stripComment_multi _ _ _ _ Hq H1 Hb).
  assert (solid q) as Hs by (destruct Hq as [-> | ->]; [apply solid_dq | apply solid_sq]).
  destruct (TrimSpace_anchor pad1 q (String q (String q (body +:+ String q (str1 q)))) q
              (stripComment_loop rest noQuotes EmptyString) H1 Hs Hs) as [t' Ht].
  assert (forall x, pad1 +:+ triple q +:+ body +:+ triple q +:+ x
                    = pad1 +:+ String q (String q (String q (body +:+ String q (str1 q)))
                                         +:+ String q x)) as Hshape.
  { intros x. f_equal. unfold triple. rewrite !app_cons_string, app_nil_l_string.
    do 3 f_equal. rewrite !app_assoc_string. reflexivity. }
  rewrite Hshape, Ht.
  assert (String q (String q (String q (body +:+ String q (str1 q))) +:+ String q t')
          = triple q +:+ body +:+ triple q +:+ t') as ->.
  { unfold triple. rewrite !app_cons_string, app_nil_l_string.
    do 3 f_equal. rewrite !app_assoc_string. reflexivity. }
  assert (isEmpty (triple q +:+ body +:+ triple q +:+ t') = false) as -> by reflexivity.
  pose proof (extractTripleQuoted_multi q body t' Hq Hb) as Hx.
  assert (strings.HasPrefix (triple q +:+ body +:+ triple q +:+ t') (triple q) = true) as Hp.
  { unfold triple. simpl. unfold isb. rewrite !Ascii.eqb_refl. reflexivity. }
  destruct Hq as [-> | ->].
  - rewrite Hp, Hx. rewrite decodeBasicString_multi; [reflexivity|].
    apply multiBody_dropFirstNewline, Hb.
  - assert (strings.HasPrefix (triple Ch.sq +:+ body +:+ triple Ch.sq +:+ t') (triple Ch.dq)
            = false) as -> by reflexivity.
    rewrite Hp, Hx. reflexivity.
Qed.

Lemma parseValue_multi q pad1 body rest (h : heap) :
  q = Ch.dq \/ q = Ch.sq -> blanks pad1 -> multiBody q body ->
  parseValue (pad1 +:+ triple q +:+ body +:+ triple q +:+ rest) h
  = Ok (NValue ValueString (AString (dropFirstNewline body))) h.
Proof. intros Hq H1 Hb. rewrite parseValue_unfold. apply parseValue_body_multi; assumption. Qed.

End Toml.

(** * The claims of the specification *)

(** ** Integer literals *)

Ltac isb_const :=
  match goal with
  | |- context [isb ?a ?b] =>
      let v := eval vm_compute in (isb a b) in
      lazymatch v with
      | true => change (isb a b) with true
      | false => change (isb a b) with false
      end
  end.

Ltac case_isb :=
  first
    [ isb_const
    | match goal with
      | |- context [isb ?a ?b] => destruct (isb_spec a b); subst
      end ];
  cbn -[isb strconv.ParseUint strconv.ParseInt wrap64].

Lemma parseIntToken_refines s : parseIntToken s = intLiteral_spec s.
Proof.
  unfold parseIntToken, intLiteral_spec, parseIntBase.
  generalize (strings.RemoveAll Ch.underscore s) as t. intros t.
  destruct t as [|c0 [|c1 [|c2 t]]]; cbn -[isb strconv.ParseUint strconv.ParseInt wrap64];
    repeat case_isb; try reflexivity; try congruence.
Qed.

(** C6: [parseIntToken] is the integer literal of the specification
    (underscores stripped, optional sign, base chosen by the prefix
    [0x], [0o] or [0b] over the unsigned digits, sign applied
    afterwards, signed decimal of 64 bits without a prefix), and the
    four literals of the test suite decode to 1000, 3735928559, 493
    and 10. *)
Theorem C6_parseIntToken_is_the_literal :
  (forall s, parseIntToken s = intLiteral_spec s)
  /\ parseIntToken "1_000" = inr 1000%Z
  /\ parseIntToken "0xDEADBEEF" = inr 3735928559%Z
  /\ parseIntToken "0o755" = inr 493%Z
  /\ parseIntToken "0b1010" = inr 10%Z.
Proof.
  split; [exact parseIntToken_refines|].
  repeat split; vm_compute; reflexivity.
Qed.

Lemma digitVal_nonneg c d : strconv.digitVal c = Some d -> (0 <= d)%Z.
Proof.
  unfold strconv.digitVal. intros Hd.
  destruct ((48 <=? byteZ c)%Z && (byteZ c <=? 57)%Z) eqn:E1.
  - injection Hd as <-. apply andb_true_iff in E1 as [?%Z.leb_le _]. lia.
  - destruct ((97 <=? Z.lor (byteZ c) 32)%Z && (Z.lor (byteZ c) 32 <=? 122)%Z) eqn:E2;
      [|discriminate].
    injection Hd as <-. apply andb_true_iff in E2 as [?%Z.leb_le _]. lia.
Qed.

Lemma digitsValue_ge base ds : (1 <= base)%Z -> forall acc v,
  (0 <= acc)%Z -> digitsValue base ds acc = Some v -> (acc <= v)%Z.
Proof.
  intros Hb. induction ds as [|c ds IH]; intros acc v Hacc Hv; simpl in Hv.
  - injection Hv as <-. lia.
  - destruct (strconv.digitVal c) as [d|] eqn:Hd; [|discriminate].
    destruct (d <? base)%Z; [|discriminate].
    apply digitVal_nonneg in Hd.
    assert (0 <= acc * base)%Z by (apply Z.mul_nonneg_nonneg; lia).
    assert (acc <= acc * base)%Z by nia.
    apply IH in Hv; lia.
Qed.

(** Digits whose value fits in 64 bits are read without error. *)
Lemma ParseUint_loop_value base ds : (2 <= base)%Z -> forall n v,
  (0 <= n)%Z -> digitsValue base ds n = Some v -> (v <= 2 ^ 64 - 1)%Z ->
  strconv.ParseUint_loop ds base (2 ^ 64 - 1) ((2 ^ 64 - 1) / base + 1) n = inr v.
Proof.
  intros Hb. induction ds as [|c ds IH]; intros n v Hn Hv Hmax; simpl in Hv |- *.
  - congruence.
  - destruct (strconv.digitVal c) as [d|] eqn:Hd; [|discriminate].
    destruct (d <? base)%Z eqn:Hlt; [|discriminate].
    apply Z.ltb_lt in Hlt. pose proof (digitVal_nonneg _ _ Hd) as Hd0.
    assert (0 <= n * base)%Z as Hnb by (apply Z.mul_nonneg_nonneg; lia).
    assert (n * base + d <= v)%Z as Hle by (eapply digitsValue_ge; [| |exact Hv]; lia).
    assert (base * n <= 2 ^ 64 - 1)%Z as Hbn
      by (change (2 ^ 64)%Z with 18446744073709551616%Z in *; lia).
    assert (n <= (2 ^ 64 - 1) / base)%Z as Hcut by (apply Z.div_le_lower_bound; lia).
    replace (base <=? d)%Z with false by (symmetry; apply Z.leb_gt; lia).
    replace ((2 ^ 64 - 1) / base + 1 <=? n)%Z with false by (symmetry; apply Z.leb_gt; lia).
    rewrite (Z.mod_small (n * base + d))
      by (change (2 ^ 64)%Z with 18446744073709551616%Z in *; lia).
    replace (n * base + d <? n * base)%Z with false by (symmetry; apply Z.ltb_ge; lia).
    replace (2 ^ 64 - 1 <? n * base + d)%Z with false by (symmetry; apply Z.ltb_ge; lia).
    simpl. apply IH; [lia | exact Hv | exact Hmax].
Qed.

Lemma digitsValue_no_underscore base ds : forall acc v,
  digitsValue base ds acc = Some v -> strings.RemoveAll Ch.underscore ds = ds.
Proof.
  induction ds as [|c ds IH]; intros acc v Hv; simpl in *; [reflexivity|].
  destruct (strconv.digitVal c) as [d|] eqn:Hd; [|discriminate].
  destruct (d <? base)%Z; [|discriminate].
  destruct (isb_spec c Ch.underscore) as [->|_]; [vm_compute in Hd; discriminate|].
  f_equal. eapply IH, Hv.
Qed.

Lemma RemoveAll_app c a b :
  strings.RemoveAll c (a +:+ b) = strings.RemoveAll c a +:+ strings.RemoveAll c b.
Proof.
  induction a as [|d a IH]; simpl; [reflexivity|].
  rewrite IH. destruct (isb d c); reflexivity.
Qed.

Lemma wrap64_range z : (- 2 ^ 63 <= wrap64 z < 2 ^ 63)%Z.
Proof. unfold wrap64. pose proof (Z.mod_pos_bound (z + 2 ^ 63) (2 ^ 64)). lia. Qed.

Lemma wrap64_mod z : (wrap64 z mod 2 ^ 64 = z mod 2 ^ 64)%Z.
Proof. unfold wrap64. rewrite Zminus_mod_idemp_l. f_equal. lia. Qed.

Lemma wrap64_congr a b : (a mod 2 ^ 64 = b mod 2 ^ 64)%Z -> wrap64 a = wrap64 b.
Proof.
  intros E. unfold wrap64. f_equal.
  rewrite <- (Zplus_mod_idemp_l a), <- (Zplus_mod_idemp_l b), E. reflexivity.
Qed.

Lemma wrap64_mul_sign v sign : wrap64 (wrap64 v * sign) = wrap64 (sign * v).
Proof.
  apply wrap64_congr. rewrite (Z.mul_comm sign v).
  rewrite <- (Zmult_mod_idemp_l (wrap64 v)), wrap64_mod, Zmult_mod_idemp_l. reflexivity.
Qed.

(** C9: a literal with a base prefix whose digits denote a value of
    at most 2^64 - 1 decodes without error, and the payload is that
    value (negated after a minus sign) reduced modulo 2^64 into the
    range of [int64]. *)
Theorem C9_base_prefixed_wraps sign sgn prefix base ds v :
  In (sign, sgn) [(EmptyString, 1%Z); ("+", 1%Z); ("-", (-1)%Z)] ->
  In (prefix, base) [("0x", 16%Z); ("0o", 8%Z); ("0b", 2%Z)] ->
  ds <> EmptyString ->
  digitsValue base ds 0 = Some v ->
  (v <= 2 ^ 64 - 1)%Z ->
  parseIntToken (sign +:+ prefix +:+ ds) = inr (wrap64 (sgn * v))
  /\ (- 2 ^ 63 <= wrap64 (sgn * v) < 2 ^ 63)%Z
  /\ (wrap64 (sgn * v) mod 2 ^ 64 = (sgn * v) mod 2 ^ 64)%Z.
Proof.
  intros Hsign Hin Hne Hv Hmax.
  split; [|split; [apply wrap64_range | apply wrap64_mod]].
  assert (strconv.ParseUint ds base 64 = inr v) as HP.
  { unfold strconv.ParseUint. destruct ds; [congruence|].
    change (isEmpty (String a ds)) with false. cbv iota.
    apply ParseUint_loop_value; [|lia|exact Hv|exact Hmax].
    simpl in Hin. destruct Hin as [E|[E|[E|[]]]]; inversion E; lia. }
  rewrite <- wrap64_mul_sign.
  unfold parseIntToken.
  assert (strings.RemoveAll Ch.underscore (sign +:+ prefix +:+ ds) = sign +:+ prefix +:+ ds)
    as ->.
  { pose proof (digitsValue_no_underscore _ _ _ _ Hv) as Hds.
    rewrite !RemoveAll_app, Hds.
    simpl in Hin, Hsign.
    destruct Hin as [E|[E|[E|[]]]]; inversion E; subst;
      destruct Hsign as [E'|[E'|[E'|[]]]]; inversion E'; subst; reflexivity. }
  simpl in Hin, Hsign.
  destruct Hin as [E|[E|[E|[]]]]; inversion E; subst;
    destruct Hsign as [E'|[E'|[E'|[]]]]; inversion E'; subst;
    cbv beta iota delta [String.append];
    cbn -[strconv.ParseUint wrap64]; unfold parseIntBase;
    cbn -[strconv.ParseUint wrap64]; rewrite HP; reflexivity.
Qed.

(** The literal [0xFFFFFFFFFFFFFFFF] decodes to -1. *)
Lemma C9_witness : parseIntToken "0xFFFFFFFFFFFFFFFF" = inr (-1)%Z.
Proof.
  destruct (C9_base_prefixed_wraps EmptyString 1 "0x" 16 "FFFFFFFFFFFFFFFF" (2 ^ 64 - 1))
    as [E _].
  - simpl. auto.
  - simpl. auto.
  - discriminate.
  - vm_compute. reflexivity.
  - lia.
  - exact E.
Defined.

(** ** Key paths *)

(** C1 (a defect of the code): [parseKeyParts] accepts the empty key
    expression, and a quoted empty key, and returns no segment; the
    callers index the last element of the empty result and panic,
    whatever the library does: a key/value line without a key, an
    array-of-tables header without a name, an inline pair without a
    key. *)
Theorem C1_empty_key_panics :
  parseKeyParts EmptyString = inr []
  /\ parseKeyParts (DQ +:+ DQ) = inr []
  /\ forall float64 Time (lib : GoLib float64 Time),
       Parse "= 1" = Panic
       /\ Parse "[[]]" = Panic
       /\ Parse "a = { = 1 }" = Panic.
Proof.
  split; [reflexivity|]. split; [vm_compute; reflexivity|].
  intros float64 Time lib. repeat split; vm_compute; reflexivity.
Qed.

(** C7: the line ["a.b" = 1] binds the one segment [a.b], the line
    [a.b = 2] binds [b] in the table [a], and both values are found
    again in the parsed document. *)
Theorem C7_quoted_key_is_one_segment :
  parseKeyParts (DQ +:+ "a.b" +:+ DQ) = inr ["a.b"]
  /\ parseKeyParts "a.b" = inr ["a"; "b"]
  /\ exists root h,
       Parse (lib := refLib) doc_quoted = Ok root h
       /\ Get h root ["a.b"] = Some (NValue ValueInt (AInt64 1))
       /\ Get h root ["a"; "b"] = Some (NValue ValueInt (AInt64 2))
       /\ Get h root ["a"] <> Get h root ["a.b"].
Proof.
  split; [vm_compute; reflexivity|]. split; [vm_compute; reflexivity|].
  eexists _, _. split; [vm_compute; reflexivity|].
  split; [vm_compute; reflexivity|]. split; [vm_compute; reflexivity|].
  vm_compute. discriminate.
Qed.

(** ** The tree builder *)

Lemma parseInlinePair_preserved {float64 Time} {lib : GoLib float64 Time}
    kv t (h h' : heap) :
  parseInlinePair parseValue kv t h = Ok tt h' -> preserved h h'.
Proof.
  unfold parseInlinePair. intros E.
  destruct (isEmpty _); [injection E as <-; apply preserved_refl|].
  destruct (_ <? _)%Z; [discriminate|].
  destruct (parseKeyParts _) as [err|parts]; [discriminate|].
  eapply inlinePair_bind_preserved; [|exact E]. apply parseValue_allocates.
Qed.

(** C2: where the last segment of a key is already bound in the table
    its path leads to, a key/value line ends with the duplicate-key
    error of its line, and a pair of an inline table with the
    duplicate-key error of inline tables; a line or a pair that is
    accepted keeps every binding made before it, as does every value
    that is decoded ([Items] is a map: a key has one binding).  A
    second [sku = 1] in a table is the duplicate-key error of line 3,
    a second [x] in an inline table the duplicate-key error of its
    line, and a header [[sku]] after [sku = 1] the not-a-table error
    of line 2. *)
Theorem C2_duplicate_key_is_error :
  (forall float64 Time (lib : GoLib float64 Time),
    (forall line idx (p : parser) front last t h1 items n,
        parseKeyParts (strings.TrimSpace (strings.take (Z.to_nat idx) line))
        = inr (front ++ [last]) ->
        walk (notTable p) front (cur p) (store p) = Ok t h1 ->
        Items h1 t = Some items -> items !! last = Some n ->
        parseKeyValue line idx p
        = Err (Annotated (lineNo p) (DuplicateKey last)) (with_store p h1))
    /\ (forall front last val t (h : heap) t1 h1 items n,
        walk (fun _ => errors_New "inline table path conflict") front t h = Ok t1 h1 ->
        Items h1 t1 = Some items -> items !! last = Some n ->
        inlinePair_bind parseValue (front ++ [last]) val t h
        = Err (errors_New "duplicate inline table key") h1)
    /\ (forall line idx (p p' : parser),
        parseKeyValue line idx p = Ok tt p' -> preserved (store p) (store p'))
    /\ (forall kv t (h h' : heap),
        parseInlinePair parseValue kv t h = Ok tt h' -> preserved h h')
    /\ (forall s (h : heap) n h', parseValue s h = Ok n h' -> preserved h h'))
  /\ (exists h,
        Parse (lib := refLib) (lines ["[t]"; "sku = 1"; "sku = 1"])
        = Err (Annotated 3 (DuplicateKey "sku")) h)
  /\ (exists h,
        Parse (lib := refLib) (lines ["a = { x = 1, x = 2 }"])
        = Err (Annotated 1 (Text "duplicate inline table key")) h)
  /\ (exists h,
        Parse (lib := refLib) (lines ["sku = 1"; "[sku]"])
        = Err (Annotated 2 (KeyNotTable "sku")) h).
Proof.
  split; [|repeat split; eexists; vm_compute; reflexivity].
  intros float64 Time lib. split; [|split; [|split; [|split]]].
  - intros line idx p front last t h1 items n Hparts Hw Ht Hn.
    unfold parseKeyValue. rewrite Hparts.
    apply (keyValue_bind_duplicate p front last t h1 items n (conj Ht Hn) Hw).
  - intros front last val t h t1 h1 items n Hw Ht Hn.
    eapply inlinePair_bind_duplicate; eassumption.
  - intros line idx p p'. unfold parseKeyValue.
    destruct (parseKeyParts _) as [err|parts]; [discriminate|].
    apply keyValue_bind_preserved.
  - intros kv t h h'. apply parseInlinePair_preserved.
  - intros s h n h'. apply parseValue_preserved.
Qed.

(** A second [sku = 1] in a table that has [sku] is the duplicate-key
    error of that line. *)
Lemma C2_witness :
  let p := MkParser (MkScanner [] false) 0 0 2
             (Heap [{[ "sku" := NValue ValueInt (AInt64 1%Z) ]}] []) in
  parseKeyValue (lib := refLib) "sku = 1" 4 p
  = Err (Annotated 2 (DuplicateKey "sku")) p.
Proof.
  intros p.
  apply (proj1 (proj1 C2_duplicate_key_is_error _ _ refLib)
           "sku = 1" 4%Z p [] "sku" 0 (store p)
           {[ "sku" := NValue ValueInt (AInt64 1%Z) ]} (NValue ValueInt (AInt64 1%Z))).
  - vm_compute. reflexivity.
  - reflexivity.
  - reflexivity.
  - vm_compute. reflexivity.
Defined.

(** C3: on the path of a table header (from the root) or of a
    key/value line (from the current table), an existing binding of a
    segment that is gone through must be a table: a binding of
    another tag ends the call with the not-a-table error, and the
    call succeeds only if the binding is a [Table]; the last segment
    of an array-of-tables header, when bound, must be an array: a
    binding of another tag ends the call with the not-an-array error,
    and the call succeeds only if the binding is an [Array].  An
    [Array] has the tag [array], and a [Value] made by the decoder
    has one of the scalar tags.  In the documents that follow, a
    header or a dotted key through an integer, through a literal
    array or through an array of tables is the not-a-table error of
    its line, and an array-of-tables header on an integer or on a
    table the not-an-array error. *)
Theorem C3_paths_go_through_tables :
  (forall float64 Time (lib : GoLib float64 Time),
    (forall (p : @parser float64 Time) pre part rest t1 h1 items (n : Node),
        walk (notTable p) pre (root p) (store p) = Ok t1 h1 ->
        Items h1 t1 = Some items -> items !! part = Some n ->
        (Kind n <> ValueTable ->
           tableHeader_plain (pre ++ part :: rest) p
           = Err (Annotated (lineNo p) (KeyNotTable part)) (with_store p h1)
           /\ forall last,
                tableHeader_array ((pre ++ part :: rest) ++ [last]) p
                = Err (Annotated (lineNo p) (KeyNotTable part)) (with_store p h1))
        /\ (forall p', tableHeader_plain (pre ++ part :: rest) p = Ok tt p' ->
              exists t2, n = NTable t2)
        /\ (forall last p',
              tableHeader_array ((pre ++ part :: rest) ++ [last]) p = Ok tt p' ->
              exists t2, n = NTable t2)
        /\ (Kind n <> ValueArray ->
              tableHeader_array (pre ++ [part]) p
              = Err (Annotated (lineNo p) (KeyNotArray part)) (with_store p h1))
        /\ (forall p', tableHeader_array (pre ++ [part]) p = Ok tt p' ->
              exists a, n = NArray a))
    /\ (forall (p : parser) pre part rest t1 h1 items (n : Node),
        walk (notTable p) pre (cur p) (store p) = Ok t1 h1 ->
        Items h1 t1 = Some items -> items !! part = Some n ->
        (Kind n <> ValueTable ->
           forall last val,
             keyValue_bind ((pre ++ part :: rest) ++ [last]) val p
             = Err (Annotated (lineNo p) (KeyNotTable part)) (with_store p h1))
        /\ (forall last val p',
              keyValue_bind ((pre ++ part :: rest) ++ [last]) val p = Ok tt p' ->
              exists t2, n = NTable t2))
    /\ (forall a : nat, Kind (NArray a : @Node float64 Time) <> ValueTable)
    /\ (forall s (h : heap) ty v h',
          parseValue s h = Ok (NValue ty v) h' -> scalarKind ty))
  /\ (exists h,
        Parse (lib := refLib) (lines ["a = 1"; "[a.b]"])
        = Err (Annotated 2 (KeyNotTable "a")) h)
  /\ (exists h,
        Parse (lib := refLib) (lines ["a = 1"; "a.b = 2"])
        = Err (Annotated 2 (KeyNotTable "a")) h)
  /\ (exists h,
        Parse (lib := refLib) (lines ["a = [1]"; "[a.b]"])
        = Err (Annotated 2 (KeyNotTable "a")) h)
  /\ (exists h,
        Parse (lib := refLib) (lines ["[[a]]"; "[a.b]"])
        = Err (Annotated 2 (KeyNotTable "a")) h)
  /\ (exists h,
        Parse (lib := refLib) (lines ["a = 1"; "[[a]]"])
        = Err (Annotated 2 (KeyNotArray "a")) h)
  /\ (exists h,
        Parse (lib := refLib) (lines ["[a]"; "[[a]]"])
        = Err (Annotated 2 (KeyNotArray "a")) h).
Proof.
  split; [|repeat split; eexists; vm_compute; reflexivity].
  intros float64 Time lib. split; [|split; [|split]].
  - intros p pre part rest t1 h1 items n Hw Ht Hn.
    pose proof (conj Ht Hn) as Hb.
    split; [intros Hk; split; [|intros last]|split; [|split; [|split]]].
    + apply (tableHeader_plain_blocked p pre part rest t1 h1 items n Hb Hw Hk).
    + apply (tableHeader_array_blocked p pre part rest t1 h1 items n Hb Hw last Hk).
    + intros p'. apply (tableHeader_plain_passes p pre part rest t1 h1 items n Hb Hw).
    + intros last p'.
      apply (tableHeader_array_passes p pre part rest t1 h1 items n Hb Hw).
    + intros Hk. apply (tableHeader_array_not_array p pre part t1 h1 items n Hb Hw Hk).
    + intros p'. apply (tableHeader_array_extends p pre part t1 h1 items n Hb Hw).
  - intros p pre part rest t1 h1 items n Hw Ht Hn.
    pose proof (conj Ht Hn) as Hb. split.
    + intros Hk last val.
      apply (keyValue_bind_blocked p pre part rest t1 h1 items n Hb Hw last val Hk).
    + intros last val p'.
      apply (keyValue_bind_passes p pre part rest t1 h1 items n Hb Hw).
  - discriminate.
  - intros s h ty v h' E. rewrite parseValue_unfold in E.
    apply parseValue_body_cases in E as [(_ & ty' & v' & E & Hs)|[[s' E]|[s' E]]].
    + injection E as <- <-. exact Hs.
    + apply parseArrayToken_homogeneous in E as (a & elems & E & _);
        [discriminate | apply parseValue_allocates].
    + apply parseInlineTableToken_is_table in E as (t & E). discriminate.
Qed.

(** The header [[a.b]] in a document where [a] is bound to the
    integer 1 is the not-a-table error for [a]. *)
Lemma C3_witness :
  let p := MkParser (MkScanner [] false) 0 0 2
             (@Heap RefLib.float RefLib.time
                [{[ "a" := NValue ValueInt (AInt64 1%Z) ]}] []) in
  tableHeader_plain ["a"; "b"] p = Err (Annotated 2 (KeyNotTable "a")) p.
Proof.
  intros p.
  apply (proj1 (proj1 (proj1 C3_paths_go_through_tables _ _ refLib)
                  p [] "a" ["b"] 0 (store p)
                  {[ "a" := NValue ValueInt (AInt64 1%Z) ]} (NValue ValueInt (AInt64 1%Z))
                  eq_refl eq_refl ltac:(vm_compute; reflexivity))).
  discriminate.
Defined.

(** C4: an array-of-tables header whose last segment is not bound
    binds it to a new array, and in every case one new empty table is
    appended to the array and becomes the current table; the two
    [[[products]]] blocks of the test suite give an array of two
    tables at [products], the first with the name [Hammer]. *)
Theorem C4_array_of_tables :
  (forall float64 Time (p : @parser float64 Time) front last parent h1 items,
      walk (notTable p) front (root p) (store p) = Ok parent h1 ->
      Items h1 parent = Some items ->
      (items !! last = None ->
         exists p' arr,
           tableHeader_array (front ++ [last]) p = Ok tt p'
           /\ Items (store p') parent = Some (<[last := NArray arr]> items)
           /\ Elems h1 arr = None
           /\ Elems (store p') arr = Some [NTable (cur p')]
           /\ Items h1 (cur p') = None
           /\ Items (store p') (cur p') = Some ∅)
      /\ (forall arr elems,
            items !! last = Some (NArray arr) -> Elems h1 arr = Some elems ->
            exists p',
              tableHeader_array (front ++ [last]) p = Ok tt p'
              /\ Items (store p') parent = Some items
              /\ Elems (store p') arr = Some (elems ++ [NTable (cur p')])
              /\ Items h1 (cur p') = None
              /\ Items (store p') (cur p') = Some ∅))
  /\ exists root h products first second,
       Parse (lib := refLib) doc_products = Ok root h
       /\ Get h root ["products"] = Some (NArray products)
       /\ Elems h products = Some [NTable first; NTable second]
       /\ Get h first ["name"] = Some (NValue ValueString (AString "Hammer"))
       /\ Get h first ["sku"] = Some (NValue ValueInt (AInt64 738594937))
       /\ Get h second ["name"] = Some (NValue ValueString (AString "Nails"))
       /\ Get h second ["sku"] = Some (NValue ValueInt (AInt64 284758393))
       /\ Get h second ["count"] = Some (NValue ValueInt (AInt64 100)).
Proof.
  split.
  - intros float64 Time p front last parent h1 items Hw Ht. split.
    + intros Hn.
      destruct (tableHeader_array_new p front last parent h1 items Hw Ht Hn)
        as (p' & E & Hcur & _ & Hnew & Hparent & Harr).
      exists p', (length (arrays h1)). rewrite Hcur in *.
      repeat split; try assumption; apply lookup_ge_None_2; reflexivity.
    + intros arr elems Hn Ha.
      destruct (tableHeader_array_append p front last parent h1 items (NArray arr)
                  (conj Ht Hn) Hw arr elems eq_refl Ha)
        as (p' & E & Hcur & _ & Hnew & Harr & Hparent).
      exists p'. rewrite Hcur in *.
      repeat split; try assumption. apply lookup_ge_None_2. reflexivity.
  - eexists _, _, _, _, _. split; [vm_compute; reflexivity|].
    split; [vm_compute; reflexivity|]. split; [vm_compute; reflexivity|].
    repeat split; vm_compute; reflexivity.
Qed.

(** The first [[[products]]] of a document creates the array. *)
Lemma C4_witness :
  let p := MkParser (MkScanner [] false) 0 0 1 (@Heap RefLib.float RefLib.time [∅] []) in
  exists p',
    tableHeader_array ["products"] p = Ok tt p'
    /\ Get (store p') (root p') ["products"] = Some (NArray 0)
    /\ Elems (store p') 0 = Some [NTable (cur p')].
Proof.
  intros p.
  destruct (proj1 (proj1 C4_array_of_tables _ _ p [] "products" 0 (store p) ∅
                     eq_refl eq_refl) eq_refl)
    as (p' & arr & E & Hparent & _ & Harr & _).
  exists p'. split; [exact E|].
  vm_compute in E. injection E as <-. split; vm_compute; reflexivity.
Defined.

(** ** Literal arrays *)



(** C10: a part of a literal array that is empty after trimming is
    passed over without being decoded, and the token [[8001, 8002,]]
    decodes to the array of its two elements, on one line and over
    several lines. *)
Theorem C10_empty_elements_are_skipped :
  (forall float64 Time (pv : string -> @heap float64 Time -> outcome heap Node)
          part parts arr ek h,
      isEmpty (strings.TrimSpace part) = true ->
      parseArray_loop pv (part :: parts) arr ek h = parseArray_loop pv parts arr ek h)
  /\ (exists h,
        parseValue (lib := refLib) "[8001, 8002,]" empty_heap = Ok (NArray 0) h
        /\ Elems h 0 = Some [NValue ValueInt (AInt64 8001); NValue ValueInt (AInt64 8002)])
  /\ (exists h,
        parseValue (lib := refLib) "[8001,, 8002]" empty_heap = Ok (NArray 0) h
        /\ Elems h 0 = Some [NValue ValueInt (AInt64 8001); NValue ValueInt (AInt64 8002)])
  /\ exists root h ports,
       Parse (lib := refLib) doc_ports = Ok root h
       /\ Get h root ["ports"] = Some (NArray ports)
       /\ Elems h ports
          = Some [NValue ValueInt (AInt64 8001); NValue ValueInt (AInt64 8002)].
Proof.
  split; [|split; [|split]].
  - intros float64 Time pv part parts arr ek h Hempty.
    rewrite parseArray_loop_cons, Hempty. reflexivity.
  - eexists. split; vm_compute; reflexivity.
  - eexists. split; vm_compute; reflexivity.
  - eexists _, _, _. split; [vm_compute; reflexivity|]. split; vm_compute; reflexivity.
Qed.

(** A part made of one space is passed over. *)
Lemma C10_witness :
  parseArray_loop (parseValue (lib := refLib)) [" "; "1"] 0 None (NewArray empty_heap).2
  = parseArray_loop (parseValue (lib := refLib)) ["1"] 0 None (NewArray empty_heap).2.
Proof.
  apply (proj1 C10_empty_elements_are_skipped). vm_compute. reflexivity.
Defined.

(** ** Line numbers of errors *)

(** C8, as stated, fails: the array of [doc_mixed] begins on line 1,
    and the error of its mixed elements carries line 4, the last of
    the lines [consumeValue] read. *)
Lemma C8_counterexample :
  exists p1 p',
    scanLine (newParser doc_mixed) = Some ("a = [", p1)
    /\ lineNo p1 = 1
    /\ parseLine (lib := refLib) "a = [" p1 = Err (Annotated 4 (Text "mixed-type array")) p'
    /\ Parse_run (lib := refLib) doc_mixed = Err (Annotated 4 (Text "mixed-type array")) p'.
Proof.
  eexists _, _. split; [vm_compute; reflexivity|]. split; [reflexivity|].
  split; vm_compute; reflexivity.
Qed.

(** C8, amended: an error of one turn of the loop of [Parse] carries
    the number of the line the turn began with plus the number [k] of
    lines [consumeValue] read after it, which is the number of the
    last line read; and an error of [Parse], the error of the scanner
    apart, is the error of the turn that began with some line
    [text], the line of number [S (length before)] of the input. *)
Theorem C8_errors_carry_the_last_line_read :
  forall float64 Time (lib : GoLib float64 Time),
    (forall text (p : parser) e p',
        parseLine text p = Err e p' ->
        exists k m, pulled_lines k p p' /\ e = Annotated (lineNo p + k) m)
    /\ (forall input e (p' : parser),
          Parse_run input = Err e p' ->
          e = ErrTooLong
          \/ exists before text p1 k m,
               pending (NewScanner input) = before ++ text :: pending (scanner p1)
               /\ lineNo p1 = S (length before)
               /\ parseLine text p1 = Err e p'
               /\ pulled_lines k p1 p'
               /\ e = Annotated (S (length before) + k) m).
Proof.
  intros float64 Time lib.
  assert (forall text (p : parser) e p',
             parseLine text p = Err e p' ->
             exists k m, pulled_lines k p p' /\ e = Annotated (lineNo p + k) m) as Hturn.
  { intros text p e p' E. destruct (parseLine_lines text p) as [Hend Hann].
    rewrite E in Hend, Hann. simpl in Hend, Hann.
    destruct Hend as [k Hk], Hann as [m ->]. exists k, m. split; [exact Hk|].
    destruct Hk as (_ & _ & _ & _ & ->). reflexivity. }
  split; [exact Hturn|].
  intros input e p' E. unfold Parse_run in E.
  apply Parse_loop_error in E as [->|(k0 & p0 & text & p1 & Hk0 & Hs & El)]; [auto|].
  right. destruct (Hturn _ _ _ _ El) as (k & m & Hk & ->).
  destruct Hk0 as (before & Hlen & Hp & _ & Hno).
  apply scanLine_pulled in Hs as [(l1 & Hl1 & _ & _ & Hno1) Hp1].
  assert (lineNo p1 = S (length before)) as Hline.
  { rewrite Hno1, Hno, Hlen. unfold newParser. simpl. lia. }
  exists before, text, p1, k, m. rewrite Hline in *.
  repeat split; try assumption.
  rewrite <- Hp1, <- Hp. unfold newParser, NewScanner. simpl.
  destruct (ScanLines input EmptyString); reflexivity.
Qed.

(** The error of the array of [doc_mixed]: line 1 and three more. *)
Lemma C8_witness :
  let p1 := MkParser (MkScanner ["1,"; DQ +:+ "x" +:+ DQ; "]"] false) 0 0 1
              (@Heap RefLib.float RefLib.time [∅] []) in
  exists k m p',
    parseLine (lib := refLib) "a = [" p1 = Err (Annotated (1 + k) m) p'
    /\ pulled_lines k p1 p'.
Proof.
  intros p1.
  assert (exists e p', parseLine (lib := refLib) "a = [" p1 = Err e p') as (e & p' & E)
    by (eexists _, _; vm_compute; reflexivity).
  destruct (proj1 (C8_errors_carry_the_last_line_read _ _ refLib) _ _ _ _ E)
    as (k & m & Hk & He).
  exists k, m, p'. rewrite E, He. auto.
Defined.

(** ** Further properties of the code *)

(** X1: [Parse] terminates on every input, with the tree, an error or
    a panic: [parseValue] calls itself on strictly shorter strings
    and satisfies the equation of the source function, and every
    turn of the loop of [Parse] reads at least one line. *)
Theorem X1_Parse_terminates :
  forall float64 Time (lib : GoLib float64 Time),
    (forall input, Parse input <> OutOfFuel)
    /\ (forall s (h : heap), parseValue s h <> OutOfFuel)
    /\ (forall s (h : heap), parseValue s h = parseValue_body parseValue s h).
Proof.
  intros float64 Time lib. split; [apply Parse_total|].
  split; [apply parseValue_total | apply parseValue_unfold].
Qed.

(** X2: [parseArrayToken] slices [content[1 : len(content)-1]]
    without a check of the length or of the last byte.  A text that
    is the opening bracket alone once its comment and the white space
    around it are taken off makes the call panic, and so does the
    document [a = [ # ]], where [consumeValue] counts the bracket
    inside the comment as the closing one and reads no further line.
    On a longer text the last byte is taken off whatever it is: two
    texts that differ in it give the same result, and the document
    [a = [1, 2}] parses as the array of 1 and 2. *)
Theorem X2_array_brackets_are_not_checked :
  forall float64 Time (lib : GoLib float64 Time),
    (forall pv s (h : @heap float64 Time),
        strings.TrimSpace (stripCommentPreserveStrings s) = "[" ->
        parseArrayToken pv s h = Panic)
    /\ Parse "a = [ # ]" = Panic
    /\ (forall pv s1 s2 body c1 c2 (h : @heap float64 Time),
          strings.TrimSpace (stripCommentPreserveStrings s1)
          = String Ch.lbrack (body +:+ str1 c1) ->
          strings.TrimSpace (stripCommentPreserveStrings s2)
          = String Ch.lbrack (body +:+ str1 c2) ->
          parseArrayToken pv s1 h = parseArrayToken pv s2 h)
    /\ exists root h a,
         Parse (lib := refLib) "a = [1, 2}" = Ok root h
         /\ Get h root ["a"] = Some (NArray a)
         /\ Elems h a = Some [NValue ValueInt (AInt64 1); NValue ValueInt (AInt64 2)].
Proof.
  intros float64 Time lib. split; [|split; [|split]].
  - intros pv s h. apply parseArrayToken_one_bracket.
  - vm_compute. reflexivity.
  - intros pv s1 s2 body c1 c2 h. apply parseArrayToken_last_byte.
  - eexists _, _, _. split; [vm_compute; reflexivity|].
    split; vm_compute; reflexivity.
Qed.

(** X3: an array-of-tables header whose name is bound to an array
    appends a table to it whatever the array holds: on a literal
    array with an element that is not a table the header is accepted
    and leaves an array that is not homogeneous. *)
Theorem X3_header_makes_a_literal_array_mixed :
  forall float64 Time (p : @parser float64 Time) front last parent h1 items arr elems e,
    walk (notTable p) front (root p) (store p) = Ok parent h1 ->
    Items h1 parent = Some items -> items !! last = Some (NArray arr) ->
    Elems h1 arr = Some elems -> e ∈ elems -> Kind e <> ValueTable ->
    exists p' elems',
      tableHeader_array (front ++ [last]) p = Ok tt p'
      /\ Elems (store p') arr = Some elems'
      /\ ~ homogeneous elems'.
Proof. intros float64 Time. apply tableHeader_array_mixed. Qed.

(** The header [[[a]]] after the line [a = [1]]. *)
Lemma X3_witness :
  exists r h a t,
    Parse (lib := refLib) (lines ["a = [1]"; "[[a]]"]) = Ok r h
    /\ Get h r ["a"] = Some (NArray a)
    /\ Elems h a = Some [NValue ValueInt (AInt64 1); NTable t]
    /\ exists p p' elems',
         Parse (lib := refLib) "a = [1]" = Ok (root p) (store p)
         /\ tableHeader_array ["a"] p = Ok tt p'
         /\ Elems (store p') a = Some elems'
         /\ ~ homogeneous elems'.
Proof.
  eexists _, _, _, _. split; [vm_compute; reflexivity|].
  split; [vm_compute; reflexivity|]. split; [vm_compute; reflexivity|].
  pose (p := MkParser (MkScanner [] false) 0 0 1
               (@Heap RefLib.float RefLib.time [{[ "a" := NArray 0 ]}]
                  [[NValue ValueInt (AInt64 1%Z)]])).
  destruct (X3_header_makes_a_literal_array_mixed _ _ p [] "a" 0 (store p)
              {[ "a" := NArray 0 ]} 0 [NValue ValueInt (AInt64 1%Z)]
              (NValue ValueInt (AInt64 1%Z))
              eq_refl eq_refl ltac:(vm_compute; reflexivity) eq_refl
              ltac:(apply list_elem_of_singleton; reflexivity) ltac:(discriminate))
    as (p' & elems' & E & Hel & Hh).
  exists p, p', elems'. split; [vm_compute; reflexivity|]. auto.
Defined.

(** X4: [Get] follows its path segment by segment: the lookup of a
    path in two pieces is the lookup of the first piece followed by
    the lookup of the second, empty segments are passed over, a
    segment that is not bound in the table reached ends the lookup
    with [false], and so does a non-empty segment after a node that
    is not a table. *)
Theorem X4_Get_follows_the_path :
  forall float64 Time (h : @heap float64 Time) root,
    (forall path1 path2,
        Get h root (path1 ++ path2)
        = match Get h root path1 with
          | Some n => Get_loop h n path2
          | None => None
          end)
    /\ (forall path, Get h root (filter (fun k => k <> EmptyString) path) = Get h root path)
    /\ (forall path1 k path2 t items,
          Get h root path1 = Some (NTable t) -> Items h t = Some items ->
          nonEmptyKey k -> items !! k = None -> Get h root (path1 ++ k :: path2) = None)
    /\ (forall path1 path2 n,
          Get h root path1 = Some n -> (forall t, n <> NTable t) ->
          Exists nonEmptyKey path2 -> Get h root (path1 ++ path2) = None).
Proof.
  intros float64 Time h root. split; [|split; [|split]].
  - intros path1 path2. apply Get_loop_app.
  - intros path. apply Get_loop_skips_empty.
  - intros path1 k path2 t items HG Ht Hk Hn. unfold Get in *.
    rewrite Get_loop_app, HG, Get_loop_cons, (len_nonEmpty _ Hk), Ht, Hn. reflexivity.
  - intros path1 path2 n HG Hn Hex. unfold Get in *.
    rewrite Get_loop_app, HG. apply Get_loop_not_table; assumption.
Qed.



(** X6: a header that [parseTableHeader] accepts leads where [Get]
    leads: along the segments of its name from the root, [Get] finds
    the table that is now the current one (header [[name]]), or the
    array whose last element is the table that is now the current one
    (header [[[name]]]); that table is new and empty, and the elements
    the array had stay in front of it. *)
Theorem X6_accepted_header_is_found :
  forall float64 Time (lib : GoLib float64 Time) line (p p' : @parser float64 Time),
    wf_parser p ->
    parseTableHeader line p = Ok tt p' ->
    exists name parts,
      headerName line = Some name
      /\ parseKeyParts (strings.TrimSpace name) = inr parts
      /\ root p' = root p
      /\ if isArrayHeader line then
           exists arr elems,
             Get (store p') (root p) parts = Some (NArray arr)
             /\ Elems (store p') arr = Some (elems ++ [NTable (cur p')])
             /\ (forall elems0, Elems (store p) arr = Some elems0 -> elems0 = elems)
             /\ Items (store p') (cur p') = Some ∅
             /\ Items (store p) (cur p') = None
         else Get (store p') (root p) parts = Some (NTable (cur p')).
Proof.
  intros float64 Time lib line p p' Hwf E.
  destruct (isArrayHeader line) eqn:Hk.
  - destruct (parseTableHeader_array_Get _ _ _ Hk Hwf E)
      as (name & parts & arr & elems & H1 & H2 & H3 & H4 & H5 & H6 & H7 & H8).
    exists name, parts. repeat (split; [assumption|]). exists arr, elems. auto.
  - destruct (parseTableHeader_plain_Get _ _ _ Hk E) as (name & parts & H1 & H2 & H3 & H4).
    exists name, parts. auto.
Qed.

(** The header [[a.b]] in an empty document. *)
Lemma X6_witness :
  let p := @newParser RefLib.float RefLib.time EmptyString in
  exists p',
    parseTableHeader "[a.b]" p = Ok tt p'
    /\ Get (store p') (root p) ["a"; "b"] = Some (NTable (cur p')).
Proof.
  intros p.
  assert (exists p', parseTableHeader "[a.b]" p = Ok tt p') as [p' E]
    by (eexists; vm_compute; reflexivity).
  destruct (X6_accepted_header_is_found _ _ refLib "[a.b]" p p' (wf_newParser _) E)
    as (name & parts & Hname & Hparts & _ & HG).
  vm_compute in Hname. injection Hname as <-.
  vm_compute in Hparts. injection Hparts as <-.
  exists p'. split; [exact E | exact HG].
Defined.

(** X7: the parser does not reject a table header that names a table
    again: a header [[name]] that was accepted is accepted in every
    later state of the parse, changes nothing in the store and makes
    the same table the current one. *)
Theorem X7_table_header_can_be_repeated :
  forall float64 Time (lib : GoLib float64 Time) line (p p1 p2 : @parser float64 Time),
    isArrayHeader line = false ->
    parseTableHeader line p = Ok tt p1 ->
    root p2 = root p -> preserved (store p1) (store p2) ->
    parseTableHeader line p2 = Ok tt (with_cur p2 (cur p1)).
Proof. intros float64 Time lib. apply parseTableHeader_again. Qed.

(** The header [[a]] twice. *)
Lemma X7_witness :
  let p := @newParser RefLib.float RefLib.time EmptyString in
  exists p1,
    parseTableHeader "[a]" p = Ok tt p1
    /\ parseTableHeader "[a]" p1 = Ok tt p1.
Proof.
  intros p.
  assert (exists p1, parseTableHeader "[a]" p = Ok tt p1) as [p1 E]
    by (eexists; vm_compute; reflexivity).
  exists p1. split; [exact E|].
  rewrite (X7_table_header_can_be_repeated _ _ refLib "[a]" p p1 p1 eq_refl E).
  - vm_compute in E. injection E as <-. reflexivity.
  - vm_compute in E. injection E as <-. reflexivity.
  - apply preserved_refl.
Defined.

(** X8: the tree [Parse] returns is well-formed: every binding and
    every array element is a table or an array of the tree or a
    [Value] whose payload has the dynamic type its tag names.  On a
    node [Get] finds, [MustString] succeeds when the kind is [string]
    and [MustInt] when it is [int], and a node of kind [table] is a
    [Table], a node of kind [array] an [Array]. *)
Theorem X8_Parse_returns_a_well_formed_tree :
  forall float64 Time (lib : GoLib float64 Time) input root (h : @heap float64 Time),
    Parse input = Ok root h ->
    wf h
    /\ forall path n,
         Get h root path = Some n ->
         valid h n
         /\ (Kind n = ValueString -> exists s, MustString n = Some s)
         /\ (Kind n = ValueInt -> exists i, MustInt n = Some i)
         /\ (Kind n = ValueTable -> exists t items, n = NTable t /\ Items h t = Some items)
         /\ (Kind n = ValueArray -> exists a elems, n = NArray a /\ Elems h a = Some elems).
Proof.
  intros float64 Time lib input root h E.
  apply Parse_Ok in E as (p' & E & -> & ->).
  apply Parse_loop_inv in E as ((Hwf & Hroot & _) & Hr & _); [|apply wf_newParser].
  split; [exact Hwf|]. intros path n HG.
  assert (valid (store p') n) as Hv by (eapply Get_loop_valid; [exact Hwf| |exact HG]; exact Hroot).
  split; [exact Hv|]. destruct n as [t|a|ty v]; simpl in *.
  - repeat split; try discriminate. intros _.
    destruct (lookup_lt_is_Some_2 _ _ Hv) as [items Hit]. eauto.
  - repeat split; try discriminate. intros _.
    destruct (lookup_lt_is_Some_2 _ _ Hv) as [elems Hel]. eauto.
  - repeat split; intros ->; destruct v; try contradiction; eauto.
Qed.

(** The document [a = 1]. *)
Lemma X8_witness :
  exists root h n i,
    Parse (lib := refLib) "a = 1" = Ok root h
    /\ Get h root ["a"] = Some n
    /\ MustInt n = Some i.
Proof.
  assert (exists root h, Parse (lib := refLib) "a = 1" = Ok root h) as (root & h & E)
    by (eexists _, _; vm_compute; reflexivity).
  destruct (X8_Parse_returns_a_well_formed_tree _ _ refLib _ _ _ E) as [_ HG].
  assert (exists n, Get h root ["a"] = Some n /\ Kind n = ValueInt) as (n & Hn & Hk).
  { vm_compute in E. injection E as <- <-. eexists. split; vm_compute; reflexivity. }
  destruct (HG _ _ Hn) as (_ & _ & Hint & _). destruct (Hint Hk) as [i Hi].
  exists root, h, n, i. auto.
Defined.

(** X9: what [Get] finds from the root is never changed by the lines
    parsed afterwards: a path that leads to a node in some state of
    the parse leads to the same node after every further line that is
    accepted, and at the end of the parse. *)
Theorem X9_later_lines_keep_what_Get_finds :
  forall float64 Time (lib : GoLib float64 Time) (p : @parser float64 Time),
    wf_parser p ->
    (forall text p', parseLine text p = Ok tt p' ->
       wf_parser p'
       /\ forall path n, Get (store p) (root p) path = Some n ->
                         Get (store p') (root p') path = Some n)
    /\ (forall fuel p', Parse_loop fuel p = Ok tt p' ->
         wf_parser p'
         /\ forall path n, Get (store p) (root p) path = Some n ->
                           Get (store p') (root p') path = Some n).
Proof.
  intros float64 Time lib p Hwf. split.
  - intros text p' E. apply (parseLine_inv _ _ _ Hwf) in E as (W & Hr & Hp).
    split; [exact W|]. intros path n HG. rewrite Hr. unfold Get in *.
    eapply Get_loop_preserved; eassumption.
  - intros fuel p' E. apply (Parse_loop_inv _ _ _ Hwf) in E as (W & Hr & Hp).
    split; [exact W|]. intros path n HG. rewrite Hr. unfold Get in *.
    eapply Get_loop_preserved; eassumption.
Qed.

(** The line [b = 2] after [a = 1]. *)
Lemma X9_witness :
  exists p p',
    parseLine (lib := refLib) "a = 1" (@newParser RefLib.float RefLib.time EmptyString) = Ok tt p
    /\ parseLine "b = 2" p = Ok tt p'
    /\ Get (store p) (root p) ["a"] = Some (NValue ValueInt (AInt64 1))
    /\ Get (store p') (root p') ["a"] = Some (NValue ValueInt (AInt64 1)).
Proof.
  assert (exists p, parseLine (lib := refLib) "a = 1" (@newParser RefLib.float RefLib.time EmptyString) = Ok tt p)
    as [p E] by (eexists; vm_compute; reflexivity).
  assert (exists p', parseLine "b = 2" p = Ok tt p') as [p' E'].
  { vm_compute in E. injection E as <-. eexists. vm_compute. reflexivity. }
  assert (Get (store p) (root p) ["a"] = Some (NValue ValueInt (AInt64 1))) as HG.
  { vm_compute in E. injection E as <-. vm_compute. reflexivity. }
  exists p, p'. split; [exact E|]. split; [exact E'|]. split; [exact HG|].
  pose proof (parseLine_inv _ _ _ (wf_newParser _) E) as (Hwf & _).
  exact (proj2 (proj1 (X9_later_lines_keep_what_Get_finds _ _ refLib p Hwf) _ _ E') _ _ HG).
Defined.

(** X10: when [findUnquotedEqual] does not return -1 it returns the
    index of a byte [=] of the string, so that the key [line[:idx]]
    and the value [line[idx+1:]] that [parseKeyValue] and
    [parseInlineTableToken] cut out are inside the line and the line
    is the key, the byte [=] and the value; on a text without quotes
    before its first [=] it returns the index of that [=]. *)
Theorem X10_findUnquotedEqual_points_at_an_equal_sign :
  (forall s,
      findUnquotedEqual s = (-1)%Z
      \/ exists k, findUnquotedEqual s = Z.of_nat k
                   /\ k < String.length s
                   /\ s = strings.take k s +:+ String Ch.eq (strings.drop (k + 1) s))
  /\ (forall key rest,
        Forall (fun c => c <> Ch.dq /\ c <> Ch.sq /\ c <> Ch.eq) (list_ascii_of_string key) ->
        findUnquotedEqual (key +:+ String Ch.eq rest) = Z.of_nat (String.length key)).
Proof.
  split; [apply findUnquotedEqual_spec|].
  intros key rest Hk. unfold findUnquotedEqual.
  rewrite findUnquotedEqual_loop_plain by exact Hk. lia.
Qed.

(** X11: the text [consumeValue] returns is the text it was given
    followed by the lines it read from the scanner, each after a
    newline; the line counter went up by their number and nothing
    else of the parser changed.  Its errors are the empty value,
    with no line read, and the three unterminated values, with every
    line of the input read. *)
Theorem X11_consumeValue_joins_the_lines_it_reads :
  forall float64 Time initial (p : @parser float64 Time),
    (forall full p',
        consumeValue initial p = Ok full p' ->
        exists pulled,
          full = initial +:+ joinLines pulled
          /\ pending (scanner p) = pulled ++ pending (scanner p')
          /\ lineNo p' = lineNo p + length pulled
          /\ root p' = root p /\ cur p' = cur p /\ store p' = store p)
    /\ (forall e p',
          consumeValue initial p = Err e p' ->
          (e = errors_New "empty value" /\ p' = p)
          \/ ((e = errors_New "unterminated multiline string"
               \/ e = errors_New "unterminated multiline literal string"
               \/ e = errors_New "unterminated compound value")
              /\ pending (scanner p') = []
              /\ lineNo p' = lineNo p + length (pending (scanner p)))).
Proof.
  intros float64 Time initial p. split.
  - intros full p' E. apply consumeValue_text in E as (pulled & H & ->).
    destruct H as (H1 & _ & H2 & H3 & H4 & H5). exists pulled. auto 10.
  - intros e p' E. apply consumeValue_error in E as [E|(E & H & Hnil)]; [auto|].
    right. destruct H as (_ & _ & H2 & _). auto.
Qed.





(** X14: [stripCommentPreserveStrings] returns the text up to a byte
    [#], or the whole text: it never changes or drops a byte before
    the comment.  Stripping a second time changes nothing, a text
    without [#] is returned as it is, and a [#] between the quotes of
    a basic or of a literal string is kept while the comment after
    the string is cut. *)
Theorem X14_stripComment_cuts_at_a_hash_outside_strings :
  (forall s, exists rest,
      s = stripCommentPreserveStrings s +:+ rest
      /\ (rest = EmptyString \/ exists r, rest = String Ch.hash r))
  /\ (forall s,
        stripCommentPreserveStrings (stripCommentPreserveStrings s)
        = stripCommentPreserveStrings s)
  /\ (forall s, bytes (fun c => c <> Ch.hash) s -> stripCommentPreserveStrings s = s)
  /\ (forall pad1 body s pad2 tail,
        bytes (fun c => strings.asciiSpace c = true) pad1 ->
        basicBody body s -> lineEnd pad2 tail ->
        stripCommentPreserveStrings
          (pad1 +:+ String Ch.dq (body +:+ String Ch.dq (pad2 +:+ tail)))
        = pad1 +:+ String Ch.dq (body +:+ String Ch.dq pad2))
  /\ (forall pad1 body pad2 tail,
        bytes (fun c => strings.asciiSpace c = true) pad1 ->
        bytes (fun c => c <> Ch.sq) body -> lineEnd pad2 tail ->
        stripCommentPreserveStrings
          (pad1 +:+ String Ch.sq (body +:+ String Ch.sq (pad2 +:+ tail)))
        = pad1 +:+ String Ch.sq (body +:+ String Ch.sq pad2)).
Proof.
  split; [apply stripComment_cut|]. split; [apply stripComment_idempotent|].
  split; [apply stripComment_no_hash|].
  split; [apply stripComment_basicBody | apply stripComment_literal_string].
Qed.

(** X15: [parseValue] decodes a basic string on one line, with blanks
    around it and maybe a comment after it, to the string its body
    stands for: bytes other than the quote and the backslash stand
    for themselves, also [#], and the seven two-byte escapes (the
    backslash followed by b, t, n, f, r, the quote or the backslash)
    for their byte.  Every string can be written this way, with
    the quote and the backslash escaped.  A literal string is decoded
    to the text between its quotes, backslashes included. *)
Theorem X15_string_literals_decode :
  forall float64 Time (lib : GoLib float64 Time) (h : @heap float64 Time) pad1 pad2 tail,
    bytes (fun c => strings.asciiSpace c = true) pad1 -> lineEnd pad2 tail ->
    (forall body s,
        basicBody body s ->
        parseValue (pad1 +:+ String Ch.dq (body +:+ String Ch.dq (pad2 +:+ tail))) h
        = Ok (NValue ValueString (AString s)) h)
    /\ (forall s,
          parseValue (pad1 +:+ String Ch.dq (escapeBasic s +:+ String Ch.dq (pad2 +:+ tail))) h
          = Ok (NValue ValueString (AString s)) h)
    /\ (forall body,
          bytes (fun c => c <> Ch.sq) body ->
          parseValue (pad1 +:+ String Ch.sq (body +:+ String Ch.sq (pad2 +:+ tail))) h
          = Ok (NValue ValueString (AString body)) h).
Proof.
  intros float64 Time lib h pad1 pad2 tail H1 He. split; [|split].
  - intros body s Hb. rewrite parseValue_unfold.
    apply parseValue_body_basic_string; assumption.
  - intros s. rewrite parseValue_unfold.
    apply parseValue_body_basic_string; [assumption | apply basicBody_escapeBasic | assumption].
  - intros body Hb. rewrite parseValue_unfold.
    apply parseValue_body_literal_string; assumption.
Qed.

(** A basic string with a tab escape and a [#] inside it, a blank
    before it and a comment after it. *)
Lemma X15_witness :
  parseValue (lib := refLib)
    (" " +:+ DQ +:+ "a\tb # c" +:+ DQ +:+ "  # comment") empty_heap
  = Ok (NValue ValueString (AString ("a" +:+ str1 Ch.tab +:+ "b # c"))) empty_heap.
Proof.
  apply (proj1 (X15_string_literals_decode _ _ refLib empty_heap " " "  " "# comment"
                  ltac:(repeat constructor)
                  ltac:(split; [repeat constructor | right; eexists; reflexivity]))
           "a\tb # c" ("a" +:+ str1 Ch.tab +:+ "b # c")).
  apply basicBody_byte; [discriminate|discriminate|].
  apply (basicBody_escape "t" Ch.tab); [reflexivity|].
  repeat (apply basicBody_byte; [discriminate|discriminate|]). constructor.
Defined.

(** X16: a key/value line made of a dotted key of bare keys, the byte
    [=] and a basic or literal string on the same line, with blanks
    between them and maybe a comment at the end, does what its text
    says.  When the walk over the segments before the last one ends
    in a table where the last segment is not bound, the line is
    accepted and binds the last segment there to the [Value] of kind
    [string] holding the decoded string, and nothing else changes;
    when the last segment is bound, the line is the duplicate-key
    error of its line number; when the walk ends with an error, that
    error is the result. *)
Theorem X16_string_line_binds_the_decoded_string :
  forall float64 Time (lib : GoLib float64 Time) (p : @parser float64 Time)
         padL front last padA padB q body s pad2 tail,
    Forall bareKey (front ++ [last]) ->
    blanks padL -> blanks padA -> blanks padB ->
    quotedBody q body s -> lineEnd pad2 tail ->
    let text := keyValueLine padL (front ++ [last]) padA padB
                  (String q (body +:+ String q (pad2 +:+ tail))) in
    let v := NValue ValueString (AString s) in
    (forall t h1 items,
        walk (notTable p) front (cur p) (store p) = Ok t h1 ->
        Items h1 t = Some items -> items !! last = None ->
        parseLine text p = Ok tt (with_store p (setItem h1 t last v)))
    /\ (forall t h1 items n,
          walk (notTable p) front (cur p) (store p) = Ok t h1 ->
          Items h1 t = Some items -> items !! last = Some n ->
          parseLine text p
          = Err (Annotated (lineNo p) (DuplicateKey last)) (with_store p h1))
    /\ (forall e h1,
          walk (notTable p) front (cur p) (store p) = Err e h1 ->
          parseLine text p = Err e (with_store p h1)).
Proof.
  intros float64 Time lib p padL front last padA padB q body s pad2 tail
    Hks HL HA HB Hq He text v.
  subst text. rewrite (parseLine_quoted _ _ _ _ _ _ _ _ _ _ _ Hks HL HA HB Hq He).
  split; [|split].
  - intros t h1 items. apply bindValue_free.
  - intros t h1 items n. apply bindValue_bound.
  - intros e h1. apply bindValue_blocked.
Qed.

(** The line [a.b = "x" # c] in an empty document. *)
Lemma X16_witness :
  exists p',
    parseLine (lib := refLib) ("a.b = " +:+ DQ +:+ "x" +:+ DQ +:+ " # c")
      (@newParser RefLib.float RefLib.time EmptyString) = Ok tt p'
    /\ Get (store p') (root p') ["a"; "b"] = Some (NValue ValueString (AString "x")).
Proof.
  pose (p := @newParser RefLib.float RefLib.time EmptyString).
  assert (Forall bareKey (["a"] ++ ["b"])) as Hks.
  { repeat constructor; try discriminate; vm_compute; intuition lia. }
  assert (blanks " ") as Hb by (repeat constructor).
  assert (quotedBody Ch.dq "x" "x") as Hq.
  { left. split; [reflexivity|]. apply basicBody_byte; [discriminate|discriminate|constructor]. }
  assert (lineEnd " " "# c") as He by (split; [exact Hb | right; eexists; reflexivity]).
  pose proof (proj1 (X16_string_line_binds_the_decoded_string _ _ refLib p
                       EmptyString ["a"] "b" " " " " Ch.dq "x" "x" " " "# c"
                       Hks blanks_nil Hb Hb Hq He)
                1 (setItem (NewTable (store p)).2 0 "a" (NTable 1)) ∅
                ltac:(vm_compute; reflexivity) ltac:(vm_compute; reflexivity)
                ltac:(apply lookup_empty)) as E.
  eexists. split; [exact E|]. vm_compute. reflexivity.
Defined.

(** X17: [parseKeyParts] never returns an empty segment.  A dotted
    key made of bare keys gives these bare keys; a key between
    quotes, without the quote and the backslash inside, gives one
    segment whatever else it holds, dots included: the text between
    the quotes without the white space around it, or no segment when
    nothing is left. *)
Theorem X17_parseKeyParts_segments :
  (forall s parts, parseKeyParts s = inr parts -> Forall nonEmptyKey parts)
  /\ (forall ks, ks <> [] -> Forall bareKey ks -> parseKeyParts (dotted ks) = inr ks)
  /\ (forall q k,
        (q = Ch.dq \/ q = Ch.sq) ->
        bytes (fun c => c <> q /\ c <> Ch.backslash) k ->
        parseKeyParts (String q (k +:+ str1 q))
        = inr (if isEmpty (strings.TrimSpace k) then [] else [strings.TrimSpace k])).
Proof.
  split; [apply parseKeyParts_nonEmpty|].
  split; [apply parseKeyParts_dotted | apply parseKeyParts_quoted].
Qed.



(** X19: a comment ends the value, on whatever line it stands.
    [parseValue] decodes the text up to the first [#] outside quotes
    and looks at nothing after it, so in a value that spans several
    lines a comment cuts off the lines that follow.  The document of
    the four lines [a = [], then 1 with a comma and the comment
    [# one], then 2, then the closing bracket, is accepted and binds
    [a] to the array of 1 alone. *)
Theorem X19_comment_ends_a_multiline_value :
  forall float64 Time (lib : GoLib float64 Time),
    (forall s (h : @heap float64 Time),
        parseValue s h = parseValue (stripCommentPreserveStrings s) h)
    /\ (forall a rest (h : @heap float64 Time),
          bytes (fun c => c <> Ch.dq /\ c <> Ch.sq /\ c <> Ch.hash) a ->
          parseValue (a +:+ String Ch.hash rest) h = parseValue a h)
    /\ exists r h arr,
         Parse (lib := refLib) (lines ["a = ["; "  1, # one"; "  2"; "]"]) = Ok r h
         /\ Get h r ["a"] = Some (NArray arr)
         /\ Elems h arr = Some [NValue ValueInt (AInt64 1)].
Proof.
  intros float64 Time lib. split; [apply parseValue_strip|].
  split; [apply parseValue_plain_hash|].
  eexists _, _, _. split; [vm_compute; reflexivity|].
  split; vm_compute; reflexivity.
Qed.

(** X20: the tree [Parse] returns has no cycle: its tables and
    arrays can be ranked so that every binding and every element
    ranks above the table or array that holds it.  Hence [ToUntyped]
    returns on every node [Get] finds from the root, and
    [GetUntyped] returns that view, or [(nil, false)] where [Get]
    finds nothing. *)
Theorem X20_ToUntyped_returns_on_a_parsed_tree :
  forall float64 Time (lib : GoLib float64 Time) input r (h : @heap float64 Time),
    Parse input = Ok r h ->
    acyclic h
    /\ (forall path n,
          Get h r path = Some n ->
          exists u, ToUntyped h n = Ok u tt /\ GetUntyped h r path = Ok (Some u) tt)
    /\ (forall path, Get h r path = None -> GetUntyped h r path = Ok None tt).
Proof.
  intros float64 Time lib input r h E.
  destruct (Parse_good_root _ _ _ E) as (R & G & Hr).
  split; [exists R; apply G|]. split.
  - intros path n. apply (GetUntyped_found R); assumption.
  - intros path Hg. unfold GetUntyped. rewrite Hg. reflexivity.
Qed.

(** The document [a = [[1], [2]]]. *)
Lemma X20_witness :
  exists r h n u,
    Parse (lib := refLib) "a = [[1], [2]]" = Ok r h
    /\ Get h r ["a"] = Some n
    /\ ToUntyped h n = Ok u tt
    /\ GetUntyped h r ["a"] = Ok (Some u) tt.
Proof.
  assert (exists r h, Parse (lib := refLib) "a = [[1], [2]]" = Ok r h) as (r & h & E)
    by (eexists _, _; vm_compute; reflexivity).
  destruct (X20_ToUntyped_returns_on_a_parsed_tree _ _ refLib _ _ _ E) as (_ & HG & _).
  assert (exists n, Get h r ["a"] = Some n) as (n & Hn).
  { vm_compute in E. injection E as <- <-. eexists. vm_compute. reflexivity. }
  destruct (HG _ _ Hn) as (u & Hu & HGu). exists r, h, n, u. auto.
Defined.

(** X21: the untyped view mirrors the tree.  In the tree [Parse]
    returns, [ToUntyped] of a table is a map with exactly the keys of
    the table, each bound to [ToUntyped] of the node bound in the
    table; [ToUntyped] of an array is the slice of [ToUntyped] of its
    elements, in order; [ToUntyped] of a [Value] is its payload.
    Hence when [GetUntyped] returns a map for a path, [GetUntyped]
    of the path with one more segment is the lookup of that segment
    in the map. *)
Theorem X21_untyped_view_mirrors_the_tree :
  forall float64 Time (lib : GoLib float64 Time) input r (h : @heap float64 Time),
    Parse input = Ok r h ->
    (forall t items,
        Items h t = Some items ->
        exists m, ToUntyped h (NTable t) = Ok (UMap m) tt
                  /\ (forall k c, items !! k = Some c ->
                        exists u, m !! k = Some u /\ ToUntyped h c = Ok u tt)
                  /\ (forall k, items !! k = None -> m !! k = None))
    /\ (forall a elems,
          Elems h a = Some elems ->
          exists out, ToUntyped h (NArray a) = Ok (USlice out) tt
                      /\ Forall2 (fun c u => ToUntyped h c = Ok u tt) elems out)
    /\ (forall ty v, ToUntyped h (NValue ty v) = Ok (UValue v) tt)
    /\ (forall path k m,
          k <> EmptyString ->
          GetUntyped h r path = Ok (Some (UMap m)) tt ->
          GetUntyped h r (path ++ [k]) = Ok (m !! k) tt).
Proof.
  intros float64 Time lib input r h E.
  destruct (Parse_good_root _ _ _ E) as (R & G & Hr).
  split; [intros t items; apply (ToUntyped_table R), G|].
  split; [intros a elems; apply (ToUntyped_array R), G|].
  split; [reflexivity|].
  intros path k m. apply (GetUntyped_step R); assumption.
Qed.

(** The document [a.b = 1]. *)
Lemma X21_witness :
  exists r h m,
    Parse (lib := refLib) "a.b = 1" = Ok r h
    /\ GetUntyped h r ["a"] = Ok (Some (UMap m)) tt
    /\ GetUntyped h r (["a"] ++ ["b"]) = Ok (m !! "b") tt
    /\ m !! "b" = Some (UValue (AInt64 1)).
Proof.
  assert (exists r h, Parse (lib := refLib) "a.b = 1" = Ok r h) as (r & h & E)
    by (eexists _, _; vm_compute; reflexivity).
  destruct (X21_untyped_view_mirrors_the_tree _ _ refLib _ _ _ E) as (_ & _ & _ & HG).
  assert (GetUntyped h r ["a"] = Ok (Some (UMap {[ "b" := UValue (AInt64 1) ]})) tt) as Ha.
  { vm_compute in E. injection E as <- <-. vm_compute. reflexivity. }
  exists r, h, {[ "b" := UValue (AInt64 1) ]}. split; [exact E|].
  split; [exact Ha|]. split; [apply HG; [discriminate | exact Ha]|].
  reflexivity.
Defined.



(** X23: multi-line strings.  For a text that begins, after blanks,
    with three quotes, continues with a body without a quote of that
    kind (and, between double quotes, without a backslash) and three
    closing quotes, [parseValue] returns the string that is the body,
    newlines and [#] included, without a newline right behind the
    opening quotes.  Whatever follows the closing quotes is ignored:
    the document of the lines [a = '''], [x # y] and [z''' trailing]
    is accepted. *)
Theorem X23_multiline_strings_are_taken_verbatim :
  forall float64 Time (lib : GoLib float64 Time),
    (forall q pad1 body rest (h : @heap float64 Time),
        q = Ch.dq \/ q = Ch.sq -> blanks pad1 -> multiBody q body ->
        parseValue (pad1 +:+ triple q +:+ body +:+ triple q +:+ rest) h
        = Ok (NValue ValueString (AString (dropFirstNewline body))) h)
    /\ exists r h,
         Parse (lib := refLib) (lines ["a = '''"; "x # y"; "z''' trailing"]) = Ok r h
         /\ Get h r ["a"]
            = Some (NValue ValueString (AString ("x # y" +:+ NL +:+ "z"))).
Proof.
  intros float64 Time lib. split.
  - intros q pad1 body rest h. apply parseValue_multi.
  - eexists _, _. split; vm_compute; reflexivity.
Qed.
